(** * Incremental workspace crawler, content-hash cache and progress manager

    A shallow embedding of the TypeScript sources of the extension:
    - [fileHashCache.ts]   (module [HashCache]),
    - the local file crawler [crawlLocalFilesAsync] and [FetchRepoNode.exec]
      (module [Crawler]),
    - [progressManager.ts] (modules [Progress] and [ProgressFloat]).

    Conventions.  JavaScript strings are Rocq strings holding the UTF-8 bytes
    of the text.  Asynchronous functions are state-passing functions over a
    [World]; a rejected promise is the outcome [Throw].  Library functions of
    the runtime whose code is not part of the repository ([JSON.parse],
    [minimatch], the [ignore] package, the MD5 digest) are section variables;
    a bit-exact MD5 is given in module [MD5] for the closed examples.
    Time stamps and sizes are integers.  The numbers of the progress
    manager are rationals: exact ones in [Progress], which serves where
    rounding does not matter (signs and ranges), and rationals rounded to
    doubles after each operation in [ProgressFloat]. *)

From Stdlib Require Import ZArith QArith Qround Qpower Lqa Floats.
From Stdlib Require Import String Ascii List Bool Lia.
From stdpp Require Import gmap strings list fin_maps.

Local Open Scope string_scope.
Local Open Scope list_scope.

(** ** MD5 (RFC 1321), as computed by [crypto.createHash('md5')] *)

Module MD5.

Local Open Scope Z_scope.

Definition add32 (a b : Z) : Z := (a + b) mod 4294967296.
Definition not32 (a : Z) : Z := Z.lxor a 4294967295.
Definition rotl32 (x s : Z) : Z :=
  Z.lor (Z.shiftl x s mod 4294967296) (Z.shiftr x (32 - s)).

(** [K i = floor (2^32 * abs (sin (i + 1)))] *)
Definition K : list Z :=
  [
   3614090360; 3905402710; 606105819; 3250441966;
   4118548399; 1200080426; 2821735955; 4249261313;
   1770035416; 2336552879; 4294925233; 2304563134;
   1804603682; 4254626195; 2792965006; 1236535329;
   4129170786; 3225465664; 643717713; 3921069994;
   3593408605; 38016083; 3634488961; 3889429448;
   568446438; 3275163606; 4107603335; 1163531501;
   2850285829; 4243563512; 1735328473; 2368359562;
   4294588738; 2272392833; 1839030562; 4259657740;
   2763975236; 1272893353; 4139469664; 3200236656;
   681279174; 3936430074; 3572445317; 76029189;
   3654602809; 3873151461; 530742520; 3299628645;
   4096336452; 1126891415; 2878612391; 4237533241;
   1700485571; 2399980690; 4293915773; 2240044497;
   1873313359; 4264355552; 2734768916; 1309151649;
   4149444226; 3174756917; 718787259; 3951481745
  ].

(** Per-round shift amounts. *)
Definition shifts : list Z :=
  [
   7; 12; 17; 22;
   7; 12; 17; 22;
   7; 12; 17; 22;
   7; 12; 17; 22;
   5; 9; 14; 20;
   5; 9; 14; 20;
   5; 9; 14; 20;
   5; 9; 14; 20;
   4; 11; 16; 23;
   4; 11; 16; 23;
   4; 11; 16; 23;
   4; 11; 16; 23;
   6; 10; 15; 21;
   6; 10; 15; 21;
   6; 10; 15; 21;
   6; 10; 15; 21
  ].

Record state : Type := mkState { sa : Z; sb : Z; sc : Z; sd : Z }.

Definition init : state :=
  mkState 1732584193 4023233417 2562383102 271733878.

Definition mix (i : nat) (b c d : Z) : Z :=
  if (i <? 16)%nat then Z.lor (Z.land b c) (Z.land (not32 b) d)
  else if (i <? 32)%nat then Z.lor (Z.land d b) (Z.land (not32 d) c)
  else if (i <? 48)%nat then Z.lxor b (Z.lxor c d)
  else Z.lxor c (Z.lor b (not32 d)).

Definition wordIndex (i : nat) : nat :=
  if (i <? 16)%nat then i
  else if (i <? 32)%nat then ((5 * i + 1) mod 16)%nat
  else if (i <? 48)%nat then ((3 * i + 5) mod 16)%nat
  else ((7 * i) mod 16)%nat.

Definition round (block : list Z) (st : state) (i : nat) : state :=
  let f := add32 (add32 (mix i (sb st) (sc st) (sd st)) (sa st))
                 (add32 (nth i K 0) (nth (wordIndex i) block 0)) in
  mkState (sd st) (add32 (sb st) (rotl32 f (nth i shifts 0))) (sb st) (sc st).

Definition compress (st : state) (block : list Z) : state :=
  let r := fold_left (round block) (seq 0 64) st in
  mkState (add32 (sa st) (sa r)) (add32 (sb st) (sb r))
          (add32 (sc st) (sc r)) (add32 (sd st) (sd r)).

(** Little-endian bytes of a word and words of a byte list. *)
Definition bytesOfWord (n : nat) (x : Z) : list Z :=
  map (fun k => Z.shiftr x (8 * Z.of_nat k) mod 256) (seq 0 n).

Fixpoint wordsOfBytes (n : nat) (bytes : list Z) : list Z :=
  match n, bytes with
  | S n', b0 :: b1 :: b2 :: b3 :: rest =>
      (b0 + 256 * b1 + 65536 * b2 + 16777216 * b3) :: wordsOfBytes n' rest
  | _, _ => []
  end.

Definition bytesOfString (s : string) : list Z :=
  map (fun c => Z.of_N (N_of_ascii c)) (list_ascii_of_string s).

(** Padding: one bit, zeros up to 56 modulo 64, the bit length on 64 bits. *)
Definition padding (len : nat) : list Z :=
  let zeros := ((119 - len mod 64) mod 64)%nat in
  128 :: repeat 0 zeros ++ bytesOfWord 8 (8 * Z.of_nat len).

Fixpoint blocks (n : nat) (words : list Z) : list (list Z) :=
  match n with
  | O => []
  | S n' => firstn 16 words :: blocks n' (skipn 16 words)
  end.

Definition digest (s : string) : state :=
  let bytes := bytesOfString s in
  let padded := bytes ++ padding (length bytes) in
  let words := wordsOfBytes (length padded / 4) padded in
  fold_left compress (blocks (length words / 16) words) init.

Definition hexDigit (n : Z) : ascii :=
  ascii_of_N (Z.to_N (if n <? 10 then 48 + n else 87 + n)).

Definition hexOfByte (b : Z) : string :=
  String (hexDigit (b / 16)) (String (hexDigit (b mod 16)) EmptyString).

Definition hexOfBytes (bytes : list Z) : string :=
  fold_right (fun b acc => hexOfByte b +:+ acc) EmptyString bytes.

(** [createHash('md5').update(s).digest('hex')] *)
Definition md5_hex (s : string) : string :=
  let st := digest s in
  hexOfBytes (bytesOfWord 4 (sa st) ++ bytesOfWord 4 (sb st)
              ++ bytesOfWord 4 (sc st) ++ bytesOfWord 4 (sd st)).

End MD5.

(** ** Outcomes and the state-and-exception monad *)

Inductive jsError : Type :=
| IOError (path : string)            (* a rejected fs call on [path] *)
| DirectoryDoesNotExist (dir : string)
| NoFilesFound (dir : string)
| OperationCancelled
| JsonSyntaxError.

Inductive outcome (A : Type) : Type :=
| Ok (a : A)
| Throw (e : jsError).
Arguments Ok {A} a.
Arguments Throw {A} e.

Module HashCache.

(** *** Data *)

(** One cache entry: [{ hash: string; timestamp: number }]. *)
Record HashEntry : Type := mkEntry { hash : string; timestamp : Z }.

(** [interface FileHashCache]: workspace id -> file path -> entry. *)
Abbreviation FileHashCache := (gmap string (gmap string HashEntry)).

(** The entry of a workspace and path in a document, if any. *)
Definition lookupEntry (cache : FileHashCache) (workspaceId filePath : string)
  : option HashEntry :=
  cache !! workspaceId ≫= (fun workspaceCache => workspaceCache !! filePath).

(** Text stored in the cache file: arbitrary text, or the text that
    [JSON.stringify(cache, null, 2)] produced for a document. *)
Inductive jsonText : Type :=
| Raw (data : string)
| Stringified (cache : FileHashCache).

Inductive cacheFileState : Type :=
| NoFile                    (* [fs.access] rejects *)
| Unreadable                (* [fs.access] resolves, [fs.readFile] rejects *)
| Present (text : jsonText).

(** Entries of the crawled file system, keyed by absolute path. *)
Inductive fsnode : Type :=
| FileNode (size : Z) (content : option string)  (* [None]: readFile rejects *)
| DirNode (items : list string)                  (* names given by readdir *)
| OtherNode.                                     (* neither file nor directory *)

Inductive fsEvent : Type :=
| EvReadFile (path : string)
| EvStat (path : string)
| EvReaddir (path : string).

Record World : Type := mkWorld {
  fileHashCachePath : string;     (* module variable, [""] until initialised *)
  cacheFile : cacheFileState;     (* what is stored at [fileHashCachePath] *)
  cacheWritable : bool;           (* do writeFile and rename on it succeed *)
  clock : Z;                      (* [Date.now()] *)
  fs : gmap string fsnode;        (* the crawled tree *)
  ioLog : list fsEvent            (* fs calls on the tree, oldest first *)
}.

Definition M (A : Type) : Type := World -> outcome A * World.

Definition ret {A} (a : A) : M A := fun w => (Ok a, w).
Definition throw {A} (e : jsError) : M A := fun w => (Throw e, w).
Definition bind {A B} (m : M A) (k : A -> M B) : M B :=
  fun w => match m w with
           | (Ok a, w') => k a w'
           | (Throw e, w') => (Throw e, w')
           end.
Definition try_catch {A} (m : M A) (handler : jsError -> M A) : M A :=
  fun w => match m w with
           | (Ok a, w') => (Ok a, w')
           | (Throw e, w') => handler e w'
           end.

Notation "x <- m ;; k" := (bind m (fun x => k))
  (at level 100, m at next level, right associativity).
Notation "m ;;; k" := (bind m (fun _ => k))
  (at level 100, right associativity).

Definition withLog (w : World) (log : list fsEvent) : World :=
  mkWorld (fileHashCachePath w) (cacheFile w) (cacheWritable w) (clock w)
          (fs w) log.

Definition withCacheFile (w : World) (file : cacheFileState) : World :=
  mkWorld (fileHashCachePath w) file (cacheWritable w) (clock w) (fs w)
          (ioLog w).

Definition logEvent (e : fsEvent) : M unit := fun w =>
  (Ok tt, withLog w (ioLog w ++ [e])).

(** Number of [fs.readFile] calls on [path] in a log. *)
Definition isReadOf (path : string) (e : fsEvent) : bool :=
  match e with
  | EvReadFile p => String.eqb p path
  | _ => false
  end.

Definition readCount (path : string) (log : list fsEvent) : nat :=
  length (List.filter (isReadOf path) log).

Definition Date_now : M Z := fun w => (Ok (clock w), w).

(** [fs.readFile(path, "utf-8")] on the crawled tree. *)
Definition readResult (w : World) (path : string) : outcome string :=
  match fs w !! path with
  | Some (FileNode _ (Some content)) => Ok content
  | _ => Throw (IOError path)
  end.

Definition fs_readFile (path : string) : M string :=
  logEvent (EvReadFile path) ;;; fun w => (readResult w path, w).

(** *** [String.prototype.trim] yielding the empty string

    [data.trim()] is empty exactly when [data] consists of white space and
    line terminators only: U+0009..U+000D, U+0020, U+00A0, U+1680,
    U+2000..U+200A, U+2028, U+2029, U+202F, U+205F, U+3000 and U+FEFF, here
    in their UTF-8 encodings. *)
Definition byte_in (c : ascii) (lo hi : N) : bool :=
  (N.leb lo (N_of_ascii c) && N.leb (N_of_ascii c) hi)%N.
Definition byte_is (c : ascii) (n : N) : bool := N.eqb (N_of_ascii c) n.

Fixpoint trim_is_empty (data : string) : bool :=
  match data with
  | EmptyString => true
  | String c rest =>
      if byte_in c 9 13 || byte_is c 32 then trim_is_empty rest
      else match rest with
           | String c2 rest2 =>
               if byte_is c 194 && byte_is c2 160 then trim_is_empty rest2
               else match rest2 with
                    | String c3 rest3 =>
                        if (byte_is c 225 && byte_is c2 154 && byte_is c3 128)
                           || (byte_is c 226 && byte_is c2 128
                               && (byte_in c3 128 138 || byte_in c3 168 169
                                   || byte_is c3 175))
                           || (byte_is c 226 && byte_is c2 129 && byte_is c3 159)
                           || (byte_is c 227 && byte_is c2 128 && byte_is c3 128)
                           || (byte_is c 239 && byte_is c2 187 && byte_is c3 191)
                        then trim_is_empty rest3
                        else false
                    | EmptyString => false
                    end
           | EmptyString => false
           end
  end.

Section WithRuntime.

(** [JSON.parse] at the declared type; [None] is a thrown [SyntaxError].
    The code does not check that the value parsed is a document:
    [holdsDocument] below tells where it is one. *)
Variable JSON_parse : string -> option FileHashCache.
(** [crypto.createHash('md5').update(s).digest('hex')]. *)
Variable md5 : string -> string.

Definition text_trim_is_empty (t : jsonText) : bool :=
  match t with
  | Raw data => trim_is_empty data
  | Stringified _ => false
  end.

Definition text_parse (t : jsonText) : option FileHashCache :=
  match t with
  | Raw data => JSON_parse data
  | Stringified cache => Some cache
  end.

(** [fs.access(fileHashCachePath)] *)
Definition cache_access : M unit := fun w =>
  match cacheFile w with
  | NoFile => (Throw (IOError (fileHashCachePath w)), w)
  | _ => (Ok tt, w)
  end.

(** [fs.readFile(fileHashCachePath, "utf-8")] *)
Definition cache_readFile : M jsonText := fun w =>
  match cacheFile w with
  | Present text => (Ok text, w)
  | _ => (Throw (IOError (fileHashCachePath w)), w)
  end.

(** *** [readFileHashCache] *)
Definition readFileHashCache : M FileHashCache := fun w =>
  if String.eqb (fileHashCachePath w) "" then ret ∅ w
  else
    try_catch
      (found <- try_catch (cache_access ;;; ret true) (fun _ => ret false) ;;
       if negb found then ret ∅
       else
         data <- cache_readFile ;;
         if text_trim_is_empty data then ret ∅
         else match text_parse data with
              | Some cache => ret cache
              | None => throw JsonSyntaxError
              end)
      (fun _ => ret ∅) w.

(** *** [writeFileHashCache]: temporary file, then rename; a failure is
    logged and swallowed. *)
Definition writeFileHashCache (cache : FileHashCache) : M unit := fun w =>
  if String.eqb (fileHashCachePath w) "" then (Ok tt, w)
  else if cacheWritable w
       then (Ok tt, withCacheFile w (Present (Stringified cache)))
       else (Ok tt, w).

(** *** [calculateFileHash]: [content || await fs.readFile(filePath)] *)
Definition calculateFileHash (filePath : string) (content : option string)
  : M string :=
  fileContent <- match content with
                 | Some c => if String.eqb c "" then fs_readFile filePath
                             else ret c
                 | None => fs_readFile filePath
                 end ;;
  ret (md5 fileContent).

(** *** [hasFileChanged] *)
Definition hasFileChanged (workspaceId filePath : string)
    (content : option string) : M bool :=
  cache <- readFileHashCache ;;
  let workspaceCache := default ∅ (cache !! workspaceId) in
  match workspaceCache !! filePath with
  | None => ret true
  | Some fileCache =>
      try_catch
        (currentHash <- calculateFileHash filePath content ;;
         ret (negb (String.eqb currentHash (hash fileCache))))
        (fun _ => ret true)
  end.

(** *** [updateFileHash] *)
Definition updateFileHash (workspaceId filePath : string)
    (content : option string) : M unit :=
  cache <- readFileHashCache ;;
  let cache1 := match cache !! workspaceId with
                | None => <[workspaceId := ∅]> cache
                | Some _ => cache
                end in
  h <- calculateFileHash filePath content ;;
  now <- Date_now ;;
  let workspaceCache := default ∅ (cache1 !! workspaceId) in
  writeFileHashCache
    (<[workspaceId := <[filePath := mkEntry h now]> workspaceCache]> cache1).

(** *** [cleanupFileHashCache] *)

Definition stale (now maxAgeMs : Z) (fileCache : HashEntry) : bool :=
  (maxAgeMs <? now - timestamp fileCache)%Z.

(** The inner [for ... in workspaceCache] loop: deletes in place and counts.
    Each key is handled on its own, so the order of enumeration is
    immaterial. *)
Definition sweepWorkspace (now maxAgeMs : Z)
    (workspaceCache : gmap string HashEntry) (entriesRemoved : nat)
  : gmap string HashEntry * nat :=
  map_fold (fun filePath fileCache acc =>
              if stale now maxAgeMs fileCache
              then (delete filePath acc.1, S acc.2)
              else acc)
           (workspaceCache, entriesRemoved) workspaceCache.

(** The outer [for ... in cache] loop. *)
Definition sweepCache (now maxAgeMs : Z) (cache : FileHashCache)
  : FileHashCache * nat :=
  map_fold (fun workspaceId workspaceCache acc =>
              let r := sweepWorkspace now maxAgeMs workspaceCache acc.2 in
              if Nat.eqb (size r.1) 0
              then (delete workspaceId acc.1, r.2)
              else (<[workspaceId := r.1]> acc.1, r.2))
           (cache, 0) cache.

Definition defaultMaxAgeMs : Z := (30 * 24 * 60 * 60 * 1000)%Z.

Definition cleanupFileHashCache (maxAgeMs : option Z) : M unit :=
  let maxAgeMs := default defaultMaxAgeMs maxAgeMs in
  cache <- readFileHashCache ;;
  now <- Date_now ;;
  let r := sweepCache now maxAgeMs cache in
  if Nat.ltb 0 r.2 then writeFileHashCache r.1 else ret tt.

(** *** Where the operations are modelled

    [JSON.parse] returns whatever value the text holds, and the code uses
    it unchecked.  The operations are modelled on documents: objects of
    workspace objects of entries.  [holdsDocument] tells the states of the
    cache file in which the value loaded is one: the file is absent or
    cannot be read, its text is blank or is rejected by [JSON.parse] (the
    empty document is used), or it is the text [JSON.stringify] produced
    for a document, as every write of the store leaves it.  Other text that
    [JSON.parse] accepts may hold a value that is no document ([null], an
    array, a number); on it [cache[workspaceId]] throws or yields nothing,
    which the model does not follow. *)
Definition holdsDocument (w : World) : Prop :=
  match cacheFile w with
  | Present (Raw data) => trim_is_empty data = true \/ JSON_parse data = None
  | _ => True
  end.

(** The own property names of [Object.prototype].  For a workspace
    identifier of such a name a document without that key still yields a
    value at [cache[workspaceId]] (a function, the prototype itself for
    [__proto__]), so that [updateFileHash] sets the entry on that value and
    not in the document; and an assignment to the key [__proto__] of a
    workspace object sets its prototype.  The maps of the model hold own
    properties only: [plainWorkspaceId] and [plainKeys] tell the
    identifiers and paths for which assignment and own properties agree. *)
Definition objectPrototypeKeys : list string :=
  ["constructor"; "__defineGetter__"; "__defineSetter__"; "hasOwnProperty";
   "__lookupGetter__"; "__lookupSetter__"; "isPrototypeOf";
   "propertyIsEnumerable"; "toString"; "valueOf"; "__proto__";
   "toLocaleString"].

Definition plainWorkspaceId (workspaceId : string) : Prop :=
  existsb (String.eqb workspaceId) objectPrototypeKeys = false.

Definition plainKeys (workspaceId filePath : string) : Prop :=
  plainWorkspaceId workspaceId /\ String.eqb filePath "__proto__" = false.

(** *** [initializeFileHashCachePath] and the activation of the extension

    [path.join(storagePath, FILE_HASH_CACHE_FILENAME)] becomes the cache
    path; a failure to create the directory is logged.  From then on
    [cacheFile] is what is stored at that path. *)
Definition FILE_HASH_CACHE_FILENAME : string :=
  "agentic-wiki.file_hash_cache.json".

Definition withCachePath (w : World) (path : string) : World :=
  mkWorld path (cacheFile w) (cacheWritable w) (clock w) (fs w) (ioLog w).

Definition initializeFileHashCachePath (storagePath : string) : M unit :=
  fun w =>
    (Ok tt,
     withCachePath w (storagePath +:+ "/" +:+ FILE_HASH_CACHE_FILENAME)).

(** [initializeCacheServices] of [extension.ts]: the cache of the LLM is
    initialised first ([llmCacheOk] tells whether that resolves), then the
    hash cache, which is swept with the default age; an error is logged. *)
Definition initializeCacheServices (llmCacheOk : bool) (storagePath : string)
  : M unit :=
  try_catch
    ((if llmCacheOk then ret tt else throw (IOError storagePath)) ;;;
     initializeFileHashCachePath storagePath ;;;
     cleanupFileHashCache None)
    (fun _ => ret tt).

End WithRuntime.

End HashCache.

(** ** The local file crawler *)

Module Crawler.
Import HashCache.

(** [FileInfo] of the result: [{ path, content }]; [path] holds the
    candidate's [relativePath]. *)
Record FileInfo : Type := mkFileInfo { fiPath : string; fiContent : string }.

(** Element of [pendingFiles]: [{ path, relativePath }]. *)
Record PendingFile : Type :=
  mkPending { pfPath : string; relativePath : string }.

Record CrawlResult : Type :=
  mkResult { files : list FileInfo; unchanged : option nat }.

(** [path.join(currentPath, item)] and [path.relative(rootDir, itemPath)] for
    POSIX paths, [rootDir] normalised without a trailing separator. *)
Definition path_join (a b : string) : string := a +:+ "/" +:+ b.

Definition path_relative (from to : string) : string :=
  if String.prefix (from +:+ "/") to
  then String.substring (String.length from + 1)
                        (String.length to - String.length from - 1) to
  else to.

(** [p] lies under the directory [d]. *)
Definition inside (d p : string) : Prop :=
  exists rest, p = path_join d rest.

(** Names listed by [readdir] hold no separator. *)
Fixpoint slashFree (name : string) : bool :=
  match name with
  | EmptyString => true
  | String c rest => negb (Ascii.eqb c "/") && slashFree rest
  end.

Definition nodeNamesOk (node : fsnode) : bool :=
  match node with
  | DirNode items => forallb slashFree items
  | _ => true
  end.

Definition namesOk (tree : gmap string fsnode) : Prop :=
  map_Forall (fun _ node => nodeNamesOk node = true) tree.

(** [path.basename(directory)]: the part after the last separator. *)
Fixpoint basename_from (s acc : string) : string :=
  match s with
  | EmptyString => acc
  | String c rest =>
      if Ascii.eqb c "/" then basename_from rest ""
      else basename_from rest (acc +:+ String c "")
  end.
Definition path_basename (directory : string) : string :=
  basename_from directory "".

(** [gitignoreContent.split("\n")] *)
Fixpoint split_newline (s : string) : list string :=
  match s with
  | EmptyString => [""]
  | String c rest =>
      if Ascii.eqb c "010" then "" :: split_newline rest
      else match split_newline rest with
           | line :: lines => String c line :: lines
           | [] => [String c ""]
           end
  end.

(** [fs.stat] and [fs.readdir] on the crawled tree. *)
Definition fs_stat (path : string) : M fsnode :=
  logEvent (EvStat path) ;;;
  fun w => match fs w !! path with
           | Some node => (Ok node, w)
           | None => (Throw (IOError path), w)
           end.

Definition fs_readdir (path : string) : M (list string) :=
  logEvent (EvReaddir path) ;;;
  fun w => match fs w !! path with
           | Some (DirNode items) => (Ok items, w)
           | _ => (Throw (IOError path), w)
           end.

Definition isDirectory (stats : fsnode) : bool :=
  match stats with DirNode _ => true | _ => false end.
Definition isFile (stats : fsnode) : bool :=
  match stats with FileNode _ _ => true | _ => false end.
Definition statSize (stats : fsnode) : Z :=
  match stats with FileNode size _ => size | _ => 0%Z end.

(** A [for ... of] loop threading the variables it assigns. *)
Fixpoint forEachM {A S : Type} (l : list A) (s : S) (body : A -> S -> M S)
  : M S :=
  match l with
  | [] => ret s
  | x :: rest => s' <- body x s ;; forEachM rest s' body
  end.

Section WithRuntime.

Variable JSON_parse : string -> option FileHashCache.
Variable md5 : string -> string.
(** [minimatch(relPath, pattern)] *)
Variable minimatch : string -> string -> bool.
(** [ignore().add(patterns).ignores(relPath)] *)
Variable ignore_add : list string -> string -> bool.

Section Walk.

Variable gitignoreSpec : option (string -> bool).
Variable includePatterns excludePatterns : option (list string).

(** The exclusion checks of [collectFilePaths]. *)
Definition isExcluded (relPath : string) : bool :=
  let excluded := match gitignoreSpec with
                  | Some ignores => if ignores relPath then true else false
                  | None => false
                  end in
  match excludePatterns with
  | Some patterns =>
      if negb excluded
      then if existsb (minimatch relPath) patterns then true else excluded
      else excluded
  | None => excluded
  end.

(** The inclusion check of [collectFilePaths]. *)
Definition isIncluded (relPath : string) : bool :=
  match includePatterns with
  | None => true
  | Some patterns =>
      if existsb (String.eqb "*") patterns then true
      else existsb (minimatch relPath) patterns
  end.

(** [useRelativePaths ? path.relative(rootDir, itemPath) : itemPath] *)
Definition relPathOf (rootDir : string) (useRelativePaths : bool)
    (itemPath : string) : string :=
  if useRelativePaths then path_relative rootDir itemPath else itemPath.

(** [collectFilePaths]; [depth] bounds the nesting the file system accepts,
    beyond it [readdir] rejects (ENAMETOOLONG, ELOOP). *)
Fixpoint collectFilePaths (depth : nat) (rootDir currentPath : string)
    (useRelativePaths : bool) (pendingFiles : list PendingFile)
  : M (list PendingFile) :=
  match depth with
  | O => throw (IOError currentPath)
  | S depth' =>
      items <- fs_readdir currentPath ;;
      forEachM items pendingFiles (fun item pendingFiles =>
        let itemPath := path_join currentPath item in
        stats <- fs_stat itemPath ;;
        let relPath := relPathOf rootDir useRelativePaths itemPath in
        let excluded := isExcluded relPath in
        if isDirectory stats && negb excluded
        then collectFilePaths depth' rootDir itemPath useRelativePaths
                              pendingFiles
        else if negb (isFile stats) || excluded then ret pendingFiles
        else if negb (isIncluded relPath) then ret pendingFiles
        else ret (pendingFiles ++ [mkPending itemPath relPath]))
  end.

(** [p] is reached from the directory [cur] through entries that are not
    excluded, [p] included. *)
Inductive descends (rootDir : string) (useRelativePaths : bool)
    (cur : string) : string -> Prop :=
| descends_item (item : string) :
    slashFree item = true ->
    isExcluded (relPathOf rootDir useRelativePaths (path_join cur item))
      = false ->
    descends rootDir useRelativePaths cur (path_join cur item)
| descends_deeper (item p : string) :
    slashFree item = true ->
    isExcluded (relPathOf rootDir useRelativePaths (path_join cur item))
      = false ->
    descends rootDir useRelativePaths (path_join cur item) p ->
    descends rootDir useRelativePaths cur p.

(** The directories a walk started at [cur] lists, the candidates it may
    add and the calls it may make. *)
Definition walked (rootDir : string) (useRelativePaths : bool)
    (cur d : string) : Prop :=
  d = cur \/ descends rootDir useRelativePaths cur d.

Definition candidateOk (rootDir : string) (useRelativePaths : bool)
    (cur : string) (e : PendingFile) : Prop :=
  relativePath e = relPathOf rootDir useRelativePaths (pfPath e)
  /\ isExcluded (relativePath e) = false
  /\ isIncluded (relativePath e) = true
  /\ descends rootDir useRelativePaths cur (pfPath e).

Definition eventOk (rootDir : string) (useRelativePaths : bool)
    (cur : string) (ev : fsEvent) : Prop :=
  match ev with
  | EvReaddir d => walked rootDir useRelativePaths cur d
  | EvStat p =>
      exists d item, walked rootDir useRelativePaths cur d
                     /\ slashFree item = true /\ p = path_join d item
  | EvReadFile _ => False
  end.

(** The regular file [p] of [tree] lies below the directory [cur], every
    directory on the way is listed by its parent and not excluded, and [p]
    itself is listed and not excluded. *)
Inductive reachable (tree : gmap string fsnode) (rootDir : string)
    (useRelativePaths : bool) (cur : string) : string -> Prop :=
| reachable_file (items : list string) (item : string) (size : Z)
    (content : option string) :
    tree !! cur = Some (DirNode items) ->
    In item items ->
    tree !! path_join cur item = Some (FileNode size content) ->
    isExcluded (relPathOf rootDir useRelativePaths (path_join cur item))
      = false ->
    reachable tree rootDir useRelativePaths cur (path_join cur item)
| reachable_below (items : list string) (item : string)
    (subItems : list string) (p : string) :
    tree !! cur = Some (DirNode items) ->
    In item items ->
    tree !! path_join cur item = Some (DirNode subItems) ->
    isExcluded (relPathOf rootDir useRelativePaths (path_join cur item))
      = false ->
    reachable tree rootDir useRelativePaths (path_join cur item) p ->
    reachable tree rootDir useRelativePaths cur p.

End Walk.

(** [ignores] of the ignore package throws a [RangeError] on a path that
    is not relative: the empty path, a path that starts with a separator or
    with dots before a separator, and a path of dots only.  Under an
    absolute [directory] every path is such when [useRelativePaths] is
    off.  [isExcluded] takes [ignores] as a function of the path;
    [ignoresDefined] tells where that follows the code: no rules were
    loaded, or the paths are relative to the root and no name of the tree
    is empty, holds a separator or is made of dots. *)
Fixpoint dotsOnly (name : string) : bool :=
  match name with
  | EmptyString => true
  | String c rest => Ascii.eqb c "." && dotsOnly rest
  end.

Definition ordinaryName (name : string) : bool :=
  slashFree name && negb (dotsOnly name).

Definition ordinaryNames (node : fsnode) : bool :=
  match node with
  | DirNode items => forallb ordinaryName items
  | _ => true
  end.

Definition ignoresDefined (useRelativePaths : bool)
    (gitignoreSpec : option (string -> bool)) (tree : gmap string fsnode)
  : Prop :=
  gitignoreSpec = None
  \/ (useRelativePaths = true
      /\ map_Forall (fun _ node => ordinaryNames node = true) tree).

(** Loading [.gitignore]: a read failure degrades to no rules. *)
Definition loadGitignore (directory : string)
  : M (option (string -> bool)) := fun w =>
  let gitignorePath := path_join directory ".gitignore" in
  match fs w !! gitignorePath with
  | Some _ =>
      try_catch
        (gitignoreContent <- fs_readFile gitignorePath ;;
         ret (Some (ignore_add (split_newline gitignoreContent))))
        (fun _ => ret None) w
  | None => ret None w
  end.

Definition truthy (s : option string) : bool :=
  match s with
  | Some v => negb (String.eqb v "")
  | None => false
  end.

Definition tooLarge (maxFileSize : option Z) (stats : fsnode) : bool :=
  match maxFileSize with
  | Some m => negb (Z.eqb m 0) && (m <? statSize stats)%Z
  | None => false
  end.

(** The body of [batch.map(async (fileInfo, index) => ...)].  The counter
    [unchangedCount] of the enclosing function is threaded through.  The
    callback acts on the state of its caller, not on the [World]: it is given
    by the error it throws, if any. *)
Definition processFile
    (progressCallback : option (nat -> nat -> string -> option jsError))
    (maxFileSize : option Z) (incrementalProcessing : bool)
    (workspaceId : option string) (totalFiles i : nat)
    (fileInfo : PendingFile) (index : nat) (unchangedCount : nat)
  : M (option FileInfo * nat) :=
  let incremental := incrementalProcessing && truthy workspaceId in
  let ws := default "" workspaceId in
  try_catch
    (match progressCallback with
     | Some callback =>
         match callback (i + index) totalFiles (pfPath fileInfo) with
         | Some e => throw e
         | None => ret tt
         end
     | None => ret tt
     end ;;;
     stats <- fs_stat (pfPath fileInfo) ;;
     if tooLarge maxFileSize stats then ret (None, unchangedCount)
     else
       fileChanged <- (if incremental
                       then hasFileChanged JSON_parse md5 ws
                                           (pfPath fileInfo) None
                       else ret true) ;;
       if negb fileChanged then ret (None, S unchangedCount)
       else
         content <- fs_readFile (pfPath fileInfo) ;;
         (if incremental
          then updateFileHash JSON_parse md5 ws (pfPath fileInfo)
                              (Some content)
          else ret tt) ;;;
         ret (Some (mkFileInfo (relativePath fileInfo) content),
              unchangedCount))
    (fun _ => ret (None, unchangedCount)).

(** One batch.  The tasks of [Promise.all] start together and interleave at
    their [await]s; they are run here one after the other, in the order of
    the batch, which is one of these schedules. *)
Fixpoint processBatch
    (progressCallback : option (nat -> nat -> string -> option jsError))
    (maxFileSize : option Z) (incrementalProcessing : bool)
    (workspaceId : option string) (totalFiles i : nat)
    (batch : list PendingFile) (index : nat) (unchangedCount : nat)
  : M (list (option FileInfo) * nat) :=
  match batch with
  | [] => ret ([], unchangedCount)
  | fileInfo :: rest =>
      r <- processFile progressCallback maxFileSize incrementalProcessing
                       workspaceId totalFiles i fileInfo index
                       unchangedCount ;;
      rs <- processBatch progressCallback maxFileSize incrementalProcessing
                         workspaceId totalFiles i rest (S index) r.2 ;;
      ret (r.1 :: rs.1, rs.2)
  end.

Definition batchSize : nat := 50.

(** [pendingFiles.slice(i, i + batchSize)] *)
Definition slice {A} (i j : nat) (l : list A) : list A :=
  firstn (j - i) (skipn i l).

(** The values of [i] in [for (let i = 0; i < n; i += batchSize)]. *)
Definition batchStarts (n : nat) : list nat :=
  map (Nat.mul batchSize) (seq 0 ((n + (batchSize - 1)) / batchSize)).

(** [results.filter(Boolean)] *)
Definition filterBoolean {A} (results : list (option A)) : list A :=
  omap id results.

(** *** [crawlLocalFilesAsync] *)
Definition crawlLocalFilesAsync (depth : nat) (directory : string)
    (includePatterns excludePatterns : option (list string))
    (maxFileSize : option Z) (useRelativePaths : bool)
    (progressCallback : option (nat -> nat -> string -> option jsError))
    (incrementalProcessing : bool) (workspaceId : option string)
  : M CrawlResult := fun w =>
  match fs w !! directory with
  | Some (DirNode _) =>
      (gitignoreSpec <- loadGitignore directory ;;
       pendingFiles <- collectFilePaths gitignoreSpec includePatterns
                         excludePatterns depth directory directory
                         useRelativePaths [] ;;
       let totalFiles := length pendingFiles in
       let workspaceId :=
         if incrementalProcessing && negb (truthy workspaceId)
         then Some (path_basename directory) else workspaceId in
       r <- forEachM (batchStarts totalFiles) ([], 0)
              (fun i acc =>
                 let batch := slice i (i + batchSize) pendingFiles in
                 results <- processBatch progressCallback maxFileSize
                              incrementalProcessing workspaceId totalFiles i
                              batch 0 acc.2 ;;
                 ret (acc.1 ++ filterBoolean results.1, results.2)) ;;
       ret (mkResult r.1 (if incrementalProcessing then Some r.2 else None)))
        w
  | _ => (Throw (DirectoryDoesNotExist directory), w)
  end.

(** *** [FetchRepoNode.exec]

    The fields of [SharedStore] read by [exec].  The cancellation token is
    given by [cancelledAtStart] and, for the callback of file number
    [current], by [cancelledAt current].  The calls to the progress manager
    act on its own state (module [Progress]) and are left out here. *)
Record SharedStore : Type := mkShared {
  localDir : string;
  sharedInclude : option (list string);
  sharedExclude : option (list string);
  sharedMaxFileSize : option Z
}.

(** The callback [exec] hands to the crawler, as far as it can throw. *)
Definition execCallback (cancelledAt : nat -> bool)
  : nat -> nat -> string -> option jsError :=
  fun current total filePath =>
    if cancelledAt current then Some OperationCancelled else None.

Definition FetchRepoNode_exec (depth : nat) (cancelledAtStart : bool)
    (cancelledAt : nat -> bool) (preRes : SharedStore)
  : M (list FileInfo) :=
  if cancelledAtStart then throw OperationCancelled
  else
    result <- crawlLocalFilesAsync depth (localDir preRes)
                (sharedInclude preRes) (sharedExclude preRes)
                (option_map (Z.mul 1024) (sharedMaxFileSize preRes))
                true
                (Some (execCallback cancelledAt))
                false None ;;
    if Nat.eqb (length (files result)) 0
    then throw (NoFilesFound (localDir preRes))
    else ret (files result).

(** *** What a crawl without the cache is expected to return

    The outcome of one candidate, read off the tree: nothing when the
    callback throws for its position, when it cannot be examined or read, or
    when it exceeds the size limit; its relative path and content
    otherwise.  [emittedRecords] lists the outcomes of the candidates in
    their order, the first at [position]. *)
Definition emittedRecord
    (progressCallback : option (nat -> nat -> string -> option jsError))
    (maxFileSize : option Z) (tree : gmap string fsnode)
    (totalFiles position : nat) (e : PendingFile) : option FileInfo :=
  match match progressCallback with
        | Some callback => callback position totalFiles (pfPath e)
        | None => None
        end with
  | Some _ => None
  | None =>
      match tree !! pfPath e with
      | Some (FileNode size (Some content)) =>
          if tooLarge maxFileSize (FileNode size (Some content)) then None
          else Some (mkFileInfo (relativePath e) content)
      | _ => None
      end
  end.

Fixpoint emittedRecords
    (progressCallback : option (nat -> nat -> string -> option jsError))
    (maxFileSize : option Z) (tree : gmap string fsnode)
    (totalFiles position : nat) (l : list PendingFile) : list FileInfo :=
  match l with
  | [] => []
  | e :: rest =>
      match emittedRecord progressCallback maxFileSize tree totalFiles
                          position e with
      | Some f => f :: emittedRecords progressCallback maxFileSize tree
                                      totalFiles (S position) rest
      | None => emittedRecords progressCallback maxFileSize tree totalFiles
                               (S position) rest
      end
  end.

(** The candidate at [p] gives no record in incremental mode under the
    document [doc]: it is no regular file that can be read, it exceeds the
    limit, or the document holds the digest of its content. *)
Definition settled (maxFileSize : option Z) (ws : string)
    (tree : gmap string fsnode) (doc : FileHashCache) (p : string) : Prop :=
  match tree !! p with
  | Some (FileNode size (Some content)) =>
      tooLarge maxFileSize (FileNode size (Some content)) = true
      \/ exists entry, lookupEntry doc ws p = Some entry
                       /\ hash entry = md5 content
  | _ => True
  end.

(** The same as a test on one entry of the tree, and for a whole tree. *)
Definition recorded (maxFileSize : option Z) (ws : string)
    (doc : FileHashCache) (p : string) (node : fsnode) : bool :=
  match node with
  | FileNode size (Some content) =>
      tooLarge maxFileSize node
      || match lookupEntry doc ws p with
         | Some entry => String.eqb (hash entry) (md5 content)
         | None => false
         end
  | _ => true
  end.

Definition allRecorded (maxFileSize : option Z) (ws : string)
    (tree : gmap string fsnode) (doc : FileHashCache) : Prop :=
  map_Forall (fun p node => recorded maxFileSize ws doc p node = true) tree.

(** The same, for the document a world holds. *)
Definition settledIn (maxFileSize : option Z) (ws : string)
    (w : World) (p : string) : Prop :=
  exists doc, readFileHashCache JSON_parse w = (Ok doc, w)
              /\ settled maxFileSize ws (fs w) doc p.

(** The workspace identifier in effect: the one given, or the base name of
    the directory when none is given in incremental mode. *)
Definition effectiveWorkspaceId (directory : string)
    (workspaceId : option string) : option string :=
  if negb (truthy workspaceId) then Some (path_basename directory)
  else workspaceId.

(** [w'] is [w] after further calls on the tree, and nothing else. *)
Definition extendsLog (w w' : World) : Prop :=
  exists log', w' = withLog w (ioLog w ++ log').

(** Two worlds with the same tree, clock and cache location. *)
Definition sameStore (w w' : World) : Prop :=
  fileHashCachePath w' = fileHashCachePath w
  /\ cacheWritable w' = cacheWritable w
  /\ clock w' = clock w
  /\ fs w' = fs w.

End WithRuntime.

End Crawler.


(** ** The progress manager

    JavaScript numbers are taken as exact rationals here: rounding of IEEE
    doubles, which [ProgressFloat] below adds, and the value NaN are outside
    this model.  Of the object handed to [progress.report] only the
    increment is kept. *)

Module Progress.

Local Open Scope Q_scope.

Inductive ProcessStage : Type :=
| INITIALIZING
| FETCHING_FILES
| IDENTIFYING_ABSTRACTIONS
| ANALYZING_RELATIONSHIPS
| ORDERING_CHAPTERS
| WRITING_CHAPTERS
| COMBINING_TUTORIAL
| COMPLETED.

#[global] Instance ProcessStage_eq_dec : EqDecision ProcessStage.
Proof. solve_decision. Defined.

Definition STAGE_WEIGHTS (stage : ProcessStage) : Q :=
  match stage with
  | INITIALIZING => 5
  | FETCHING_FILES => 15
  | IDENTIFYING_ABSTRACTIONS => 20
  | ANALYZING_RELATIONSHIPS => 15
  | ORDERING_CHAPTERS => 10
  | WRITING_CHAPTERS => 25
  | COMBINING_TUTORIAL => 10
  | COMPLETED => 0
  end.

(** [Object.values(ProcessStage)]: the declared order, which is also the
    insertion order of the [stageProgress] map. *)
Definition allStages : list ProcessStage :=
  [INITIALIZING; FETCHING_FILES; IDENTIFYING_ABSTRACTIONS;
   ANALYZING_RELATIONSHIPS; ORDERING_CHAPTERS; WRITING_CHAPTERS;
   COMBINING_TUTORIAL; COMPLETED].

Record ProgressManager : Type := mkManager {
  progress : bool;                 (* is a progress sink attached *)
  reported : list Q;               (* increments the sink received, oldest first *)
  token : option bool;             (* [isCancellationRequested] of the token *)
  currentStage : ProcessStage;
  stageProgress : ProcessStage -> Q;
  totalProgress : Q;
  lastReportedProgress : Q
}.

(** [stageProgress.set(stage, value)] *)
Definition mapSet (m : ProcessStage -> Q) (stage : ProcessStage) (value : Q)
  : ProcessStage -> Q :=
  fun s => if decide (s = stage) then value else m s.

(** The constructor. *)
Definition newProgressManager : ProgressManager :=
  mkManager false [] None INITIALIZING
            (fold_left (fun m stage => mapSet m stage 0) allStages
                       (fun _ => 0))
            0 0.

(** [setProgressObjects] attaches a sink, which has received nothing yet. *)
Definition setProgressObjects (cancellationRequested : bool)
    (pm : ProgressManager) : ProgressManager :=
  mkManager true [] (Some cancellationRequested) (currentStage pm)
            (stageProgress pm) (totalProgress pm) (lastReportedProgress pm).

(** [Math.max(0, increment)] *)
Definition max0 (increment : Q) : Q :=
  if Qlt_le_dec 0 increment then increment else 0.

Definition reportProgress (increment : Q) (pm : ProgressManager)
  : ProgressManager :=
  if progress pm
  then mkManager (progress pm) (reported pm ++ [max0 increment]) (token pm)
                 (currentStage pm) (stageProgress pm) (totalProgress pm)
                 (lastReportedProgress pm)
  else pm.

Definition calculateTotalProgress (pm : ProgressManager) : ProgressManager :=
  let sums :=
    fold_left (fun acc stage =>
                 let weight := STAGE_WEIGHTS stage in
                 (acc.1 + (stageProgress pm stage / 100) * weight,
                  acc.2 + weight))
              allStages (0, 0) in
  mkManager (progress pm) (reported pm) (token pm) (currentStage pm)
            (stageProgress pm) ((sums.1 / sums.2) * 100)
            (lastReportedProgress pm).

Definition setStageProgress (stage : ProcessStage) (value : Q)
    (pm : ProgressManager) : ProgressManager :=
  mkManager (progress pm) (reported pm) (token pm) (currentStage pm)
            (mapSet (stageProgress pm) stage value) (totalProgress pm)
            (lastReportedProgress pm).

Definition setLastReported (pm : ProgressManager) : ProgressManager :=
  mkManager (progress pm) (reported pm) (token pm) (currentStage pm)
            (stageProgress pm) (totalProgress pm) (totalProgress pm).

Definition startStage (stage : ProcessStage) (pm : ProgressManager)
  : ProgressManager :=
  let pm1 := mkManager (progress pm) (reported pm) (token pm) stage
                       (stageProgress pm) (totalProgress pm)
                       (lastReportedProgress pm) in
  reportProgress 0 (setStageProgress stage 0 pm1).

Definition clampPercentage (percentage : Q) : Q :=
  let percentage := if Qlt_le_dec percentage 0 then 0 else percentage in
  if Qlt_le_dec 100 percentage then 100 else percentage.

Definition updateStageProgress (percentage : Q) (pm : ProgressManager)
  : ProgressManager :=
  let percentage := clampPercentage percentage in
  let pm1 := setStageProgress (currentStage pm) percentage pm in
  let pm2 := calculateTotalProgress pm1 in
  let pm3 := reportProgress (totalProgress pm2 - lastReportedProgress pm2)
                            pm2 in
  setLastReported pm3.

Definition completeStage (pm : ProgressManager) : ProgressManager :=
  let pm1 := setStageProgress (currentStage pm) 100 pm in
  let pm2 := calculateTotalProgress pm1 in
  let pm3 := reportProgress (totalProgress pm2 - lastReportedProgress pm2)
                            pm2 in
  setLastReported pm3.

Definition isCancelled (pm : ProgressManager) : bool :=
  default false (token pm).

Definition reset (pm : ProgressManager) : ProgressManager :=
  mkManager (progress pm) (reported pm) (token pm) INITIALIZING
            (fold_left (fun m stage => mapSet m stage 0) allStages
                       (stageProgress pm))
            0 0.

(** Calls made on the manager, and runs of calls. *)
Inductive call : Type :=
| StartStage (stage : ProcessStage)
| UpdateStageProgress (percentage : Q)
| CompleteStage.

Definition step (pm : ProgressManager) (c : call) : ProgressManager :=
  match c with
  | StartStage stage => startStage stage pm
  | UpdateStageProgress percentage => updateStageProgress percentage pm
  | CompleteStage => completeStage pm
  end.

Definition run (calls : list call) (pm : ProgressManager) : ProgressManager :=
  fold_left step calls pm.

(** The increment a call hands to [reportProgress]: [startStage] hands 0,
    the others the aggregate minus the aggregate last reported. *)
Definition handed (pm : ProgressManager) (c : call) : Q :=
  match c with
  | StartStage _ => 0
  | _ => totalProgress (step pm c) - lastReportedProgress pm
  end.

(** The increments a run hands to the sink. *)
Definition emitted (calls : list call) (pm : ProgressManager) : list Q :=
  skipn (length (reported pm)) (reported (run calls pm)).

Definition Qsum (l : list Q) : Q := fold_right Qplus 0 l.

(** A run in the declared stage order: each stage is started, updated with
    the given percentages, and completed. *)
Definition stageCalls (percentages : ProcessStage -> list Q)
    (stage : ProcessStage) : list call :=
  StartStage stage :: map UpdateStageProgress (percentages stage)
    ++ [CompleteStage].

Definition orderedRun (percentages : ProcessStage -> list Q) : list call :=
  flat_map (stageCalls percentages) allStages.

(** The aggregate in closed form: each stage weighs its share of the total
    weight, which is 100. *)
Definition weightedAggregate (sp : ProcessStage -> Q) : Q :=
  (5 # 100) * sp INITIALIZING + (15 # 100) * sp FETCHING_FILES
  + (20 # 100) * sp IDENTIFYING_ABSTRACTIONS
  + (15 # 100) * sp ANALYZING_RELATIONSHIPS
  + (10 # 100) * sp ORDERING_CHAPTERS + (25 # 100) * sp WRITING_CHAPTERS
  + (10 # 100) * sp COMBINING_TUTORIAL + 0 * sp COMPLETED.

(** A list of recorded percentages that never decreases. *)
Fixpoint nondecreasing (l : list Q) : Prop :=
  match l with
  | [] => True
  | x :: rest =>
      match rest with
      | [] => True
      | y :: _ => x <= y
      end /\ nondecreasing rest
  end.

(** The percentages and the aggregates are within 0 and 100. *)
Definition inRange (pm : ProgressManager) : Prop :=
  (forall stage, 0 <= stageProgress pm stage <= 100)
  /\ 0 <= totalProgress pm <= 100
  /\ 0 <= lastReportedProgress pm <= 100.

End Progress.

(** ** The progress manager in floating point

    The numbers of the manager are IEEE doubles, and each [/], [*], [+]
    and [-] of [calculateTotalProgress], [updateStageProgress] and
    [completeStage] yields the exact result rounded to a double.  Here the
    doubles are the rationals they denote and [rnd] is the rounding, applied
    after each operation in the order of the source; the comparisons,
    [Math.max] and the constants are exact.  The stages, the weights, the
    state and the calls are those of [Progress]. *)
Module ProgressFloat.
Import Progress.

Local Open Scope Q_scope.

(** What is used of the rounding: equal numbers round alike, the rounding
    keeps the order, and the integers from 0 to 100 are doubles. *)
Record Rounding (rnd : Q -> Q) : Prop := mkRounding {
  rnd_proper : forall x y, x == y -> rnd x == rnd y;
  rnd_monotone : forall x y, x <= y -> rnd x <= rnd y;
  rnd_integer : forall n : Z, (0 <= n <= 100)%Z ->
                              rnd (inject_Z n) == inject_Z n
}.

Section WithRounding.

Variable rnd : Q -> Q.

Definition calculateTotalProgress (pm : ProgressManager) : ProgressManager :=
  let sums :=
    fold_left (fun acc stage =>
                 let weight := STAGE_WEIGHTS stage in
                 (rnd (acc.1 + rnd (rnd (stageProgress pm stage / 100)
                                    * weight)),
                  rnd (acc.2 + weight)))
              allStages (0, 0) in
  mkManager (progress pm) (reported pm) (token pm) (currentStage pm)
            (stageProgress pm) (rnd (rnd (sums.1 / sums.2) * 100))
            (lastReportedProgress pm).

Definition updateStageProgress (percentage : Q) (pm : ProgressManager)
  : ProgressManager :=
  let percentage := clampPercentage percentage in
  let pm1 := setStageProgress (currentStage pm) percentage pm in
  let pm2 := calculateTotalProgress pm1 in
  let pm3 := reportProgress
               (rnd (totalProgress pm2 - lastReportedProgress pm2)) pm2 in
  setLastReported pm3.

Definition completeStage (pm : ProgressManager) : ProgressManager :=
  let pm1 := setStageProgress (currentStage pm) 100 pm in
  let pm2 := calculateTotalProgress pm1 in
  let pm3 := reportProgress
               (rnd (totalProgress pm2 - lastReportedProgress pm2)) pm2 in
  setLastReported pm3.

Definition step (pm : ProgressManager) (c : call) : ProgressManager :=
  match c with
  | StartStage stage => startStage stage pm
  | UpdateStageProgress percentage => updateStageProgress percentage pm
  | CompleteStage => completeStage pm
  end.

Definition run (calls : list call) (pm : ProgressManager) : ProgressManager :=
  fold_left step calls pm.

(** The aggregate after each call. *)
Fixpoint aggregates (calls : list call) (pm : ProgressManager) : list Q :=
  match calls with
  | [] => []
  | c :: rest => totalProgress (step pm c) :: aggregates rest (step pm c)
  end.

(** For each call, the aggregate after it minus the aggregate last reported
    before it, as a number and not as a double. *)
Fixpoint differences (calls : list call) (pm : ProgressManager) : list Q :=
  match calls with
  | [] => []
  | c :: rest =>
      (totalProgress (step pm c) - lastReportedProgress pm)
        :: differences rest (step pm c)
  end.

(** The increments a run hands to the sink. *)
Definition emitted (calls : list call) (pm : ProgressManager) : list Q :=
  skipn (length (reported pm)) (reported (run calls pm)).

(** *** The calls of [FetchRepoNode]

    [prep] starts the stage; [exec] reports 0, then the callback of the
    crawler reports [Math.round((current / total) * 100)] for [current]
    from 0 to [total - 1] (each task of a batch calls it before its first
    [await], so the calls come in the order of the candidates), then [exec]
    reports 100; [post] completes the stage.  This is the run in which no
    cancellation is seen and some file is found.  [Math.round] yields the
    nearest integer, the upper one half way, and does not round otherwise;
    the quotient and the product are rounded to doubles. *)
Definition Math_round (x : Q) : Q := inject_Z (Qfloor (x + (1 # 2))).

Definition scanPercent (total current : nat) : Q :=
  Math_round (rnd (rnd (inject_Z (Z.of_nat current)
                        / inject_Z (Z.of_nat total)) * 100)).

Definition fetchPercentages (total : nat) : list Q :=
  0 :: map (scanPercent total) (seq 0 total) ++ [100].

Definition fetchStageCalls (total : nat) : list call :=
  StartStage FETCHING_FILES
    :: map UpdateStageProgress (fetchPercentages total) ++ [CompleteStage].

(** The aggregate as a function of the recorded percentages. *)
Definition aggregateOf (sp : ProcessStage -> Q) : Q :=
  totalProgress
    (calculateTotalProgress (mkManager false [] None INITIALIZING sp 0 0)).

(** A call keeps the recorded percentage of its stage from decreasing. *)
Definition callKeepsOrder (pm : ProgressManager) (c : call) : Prop :=
  match c with
  | StartStage stage => stageProgress pm stage = 0
  | UpdateStageProgress percentage =>
      stageProgress pm (currentStage pm) <= clampPercentage percentage
  | CompleteStage => stageProgress pm (currentStage pm) <= 100
  end.

Fixpoint keepsOrder (calls : list call) (pm : ProgressManager) : Prop :=
  match calls with
  | [] => True
  | c :: rest => callKeepsOrder pm c /\ keepsOrder rest (step pm c)
  end.

End WithRounding.

(** *** Rounding to the nearest double

    A positive number [x] lies in one binade, [2^b <= x < 2^(b+1)]; the
    doubles there are the multiples of [2^(b-52)], and [x] rounds to the
    nearest of them, to the one with an even multiplier when it lies half
    way.  The range of the exponent is not bounded: this is the rounding of
    the doubles wherever the result is neither subnormal nor infinite. *)
Definition pow2 (e : Z) : Q := 2 ^ e.

Definition binade (x : Q) : Z :=
  let k := (Z.log2 (Qnum x) - Z.log2 (Zpos (Qden x)))%Z in
  if Qle_bool (pow2 k) x then k else (k - 1)%Z.

Definition roundHalfEven (y : Q) : Z :=
  let f := Qfloor y in
  match Qcompare (y - inject_Z f) (1 # 2) with
  | Lt => f
  | Gt => (f + 1)%Z
  | Eq => if Z.even f then f else (f + 1)%Z
  end.

Definition roundPos (x : Q) : Q :=
  let e := (binade x - 52)%Z in
  inject_Z (roundHalfEven (x / pow2 e)) * pow2 e.

Definition round64 (x : Q) : Q :=
  let q := Qred x in
  match Qnum q with
  | Z0 => 0
  | Zpos _ => Qred (roundPos q)
  | Zneg _ => Qred (- roundPos (- q))
  end.

(** The number a double of the machine denotes (0 for what is no finite
    number). *)
Definition doubleValue (f : float) : Q :=
  match Prim2SF f with
  | S754_finite s m e =>
      let v := inject_Z (Zpos m) * pow2 e in Qred (if s then - v else v)
  | _ => 0
  end.

End ProgressFloat.

(** * Scenarios

    Concrete worlds used by the closed examples.  They run with the MD5 of
    module [MD5]; no cache file holds raw text in them, so [JSON.parse] is
    never reached and is given as a function that rejects everything; the
    matchers of [minimatch] and [ignore] are literal comparisons. *)

Module Scenarios.
Import HashCache Crawler.

Definition cachePath : string :=
  "/storage/agentic-wiki.file_hash_cache.json".

Definition noJson : string -> option FileHashCache := fun _ => None.
Definition literalMatch : string -> string -> bool :=
  fun relPath pattern => String.eqb relPath pattern.
Definition literalIgnore : list string -> string -> bool :=
  fun patterns relPath => existsb (String.eqb relPath) patterns.

(** A cache document with one workspace that has no entry. *)
Definition emptyWorkspaceDoc : FileHashCache := {[ "w1" := ∅ ]}.

Definition emptyWorkspaceWorld : World :=
  mkWorld cachePath (Present (Stringified emptyWorkspaceDoc)) true 5000 ∅ [].

(** A document with a stale and a fresh entry in one workspace and a
    workspace holding a stale entry only; the clock is at 5000. *)
Definition agedDoc : FileHashCache :=
  {[ "w1" := {[ "/p/old.txt" := mkEntry "aa" 1000;
                "/p/new.txt" := mkEntry "bb" 4500 ]};
     "w2" := {[ "/q/old.txt" := mkEntry "cc" 10 ]} ]}.

Definition agedWorld : World :=
  mkWorld cachePath (Present (Stringified agedDoc)) true 5000 ∅ [].

(** The project of the spec's scenario: [a.txt], [b.txt] and a [.gitignore]
    holding [b.txt]. *)
Definition projectTree : gmap string fsnode :=
  {[ "/proj" := DirNode [".gitignore"; "a.txt"; "b.txt"];
     "/proj/.gitignore" := FileNode 5 (Some "b.txt");
     "/proj/a.txt" := FileNode 5 (Some "hello");
     "/proj/b.txt" := FileNode 5 (Some "world") ]}.

Definition projectWorld : World :=
  mkWorld cachePath NoFile true 5000 projectTree [].

(** Two files without ignore rules; the cache knows the current digest of
    [a.txt] and an outdated digest of [b.txt]. *)
Definition twoFilesTree : gmap string fsnode :=
  {[ "/proj" := DirNode ["a.txt"; "b.txt"];
     "/proj/a.txt" := FileNode 5 (Some "hello");
     "/proj/b.txt" := FileNode 5 (Some "world") ]}.

Definition twoFilesDoc : FileHashCache :=
  {[ "w1" := {[ "/proj/a.txt" :=
                  mkEntry "5d41402abc4b2a76b9719d911017c592" 1000;
                "/proj/b.txt" :=
                  mkEntry "00000000000000000000000000000000" 1000 ]} ]}.

Definition twoFilesWorld : World :=
  mkWorld cachePath (Present (Stringified twoFilesDoc)) true 5000
          twoFilesTree [].

(** One file, whose current digest the cache knows. *)
Definition recordedTree : gmap string fsnode :=
  {[ "/proj" := DirNode ["a.txt"];
     "/proj/a.txt" := FileNode 5 (Some "hello") ]}.

Definition recordedWorld : World :=
  mkWorld cachePath (Present (Stringified twoFilesDoc)) true 5000
          recordedTree [].

(** A directory that exists and holds nothing. *)
Definition emptyDirWorld : World :=
  mkWorld cachePath NoFile true 5000 {[ "/empty" := DirNode [] ]} [].

(** A tree with an excluded directory [node_modules] holding a file that
    matches the inclusion glob. *)
Definition prunedTree : gmap string fsnode :=
  {[ "/proj" := DirNode ["node_modules"; "src"];
     "/proj/node_modules" := DirNode ["index.ts"];
     "/proj/node_modules/index.ts" := FileNode 3 (Some "lib");
     "/proj/src" := DirNode ["index.ts"];
     "/proj/src/index.ts" := FileNode 4 (Some "main") ]}.

Definition prunedWorld : World :=
  mkWorld cachePath NoFile true 5000 prunedTree [].

End Scenarios.

(** * Properties *)

(** ** The hash cache *)

Module HashCacheSpec.
Import HashCache.

Example md5_empty : MD5.md5_hex "" = "d41d8cd98f00b204e9800998ecf8427e".
Proof. vm_compute. reflexivity. Qed.

Example md5_abc : MD5.md5_hex "abc" = "900150983cd24fb0d6963f7d28e17f72".
Proof. vm_compute. reflexivity. Qed.

Example trim_blank : trim_is_empty (String "009" (String "010" " ")) = true.
Proof. reflexivity. Qed.

Example trim_braces : trim_is_empty " {} " = false.
Proof. reflexivity. Qed.

Section WithRuntime.

Variable JSON_parse : string -> option FileHashCache.
Variable md5 : string -> string.

Lemma readFileHashCache_total (w : World) :
  exists cache, readFileHashCache JSON_parse w = (Ok cache, w).
Proof.
  unfold readFileHashCache, try_catch, bind, ret, throw, cache_access,
    cache_readFile.
  destruct w as [cachePath [| |text] writable now tree log]; simpl;
    destruct (String.eqb cachePath ""); eauto.
  destruct (text_trim_is_empty text); eauto.
  destruct (text_parse JSON_parse text); eauto.
Qed.

(** C8.  [readFileHashCache] always resolves and leaves the world as it is;
    it resolves to the empty document when the path is not initialised, the
    file is missing or unreadable, its text trims to the empty string, or
    [JSON.parse] throws on it. *)
Theorem readFileHashCache_never_throws (w : World) :
  (exists cache, readFileHashCache JSON_parse w = (Ok cache, w))
  /\ (fileHashCachePath w = "" -> readFileHashCache JSON_parse w = (Ok ∅, w))
  /\ (cacheFile w = NoFile -> readFileHashCache JSON_parse w = (Ok ∅, w))
  /\ (cacheFile w = Unreadable ->
      readFileHashCache JSON_parse w = (Ok ∅, w))
  /\ (forall data, cacheFile w = Present (Raw data) ->
      trim_is_empty data = true ->
      readFileHashCache JSON_parse w = (Ok ∅, w))
  /\ (forall data, cacheFile w = Present (Raw data) ->
      JSON_parse data = None ->
      readFileHashCache JSON_parse w = (Ok ∅, w)).
Proof.
  split; [apply readFileHashCache_total|].
  unfold readFileHashCache, try_catch, bind, ret, throw, cache_access,
    cache_readFile.
  destruct w as [cachePath file writable now tree log]; simpl.
  repeat split.
  - intros ->. reflexivity.
  - intros ->. destruct (String.eqb _ _); reflexivity.
  - intros ->. destruct (String.eqb _ _); reflexivity.
  - intros data -> Hblank. destruct (String.eqb _ _); [reflexivity|].
    simpl. rewrite Hblank. reflexivity.
  - intros data -> Hparse. destruct (String.eqb _ _); [reflexivity|].
    simpl. destruct (trim_is_empty data); [reflexivity|].
    rewrite Hparse. reflexivity.
Qed.


(** The digest step leaves everything but the log as it is. *)
Lemma calculateFileHash_cases (filePath : string) (content : option string)
    (w : World) :
  (exists h w', calculateFileHash md5 filePath content w = (Ok h, w'))
  \/ (exists e w', calculateFileHash md5 filePath content w = (Throw e, w')).
Proof.
  destruct (calculateFileHash md5 filePath content w) as [[h|e] w'] eqn:E;
    eauto.
Qed.


(** *** The staleness sweep *)

Section Sweep.

Variables now maxAgeMs : Z.

(** What one pass of the inner loop leaves of [init], whatever map it
    iterates over. *)
Lemma sweep_fold_lookup (init m : gmap string HashEntry) (n : nat)
    (k : string) :
  (map_fold (fun filePath fileCache acc =>
               if stale now maxAgeMs fileCache
               then (delete filePath acc.1, S acc.2)
               else acc) (init, n) m).1 !! k
  = match m !! k with
    | Some e => if stale now maxAgeMs e then None else init !! k
    | None => init !! k
    end.
Proof.
  revert k.
  apply (map_fold_weak_ind
    (fun (r : gmap string HashEntry * nat) (m : gmap string HashEntry) =>
       forall k, r.1 !! k
                 = match m !! k with
                   | Some e => if stale now maxAgeMs e then None
                               else init !! k
                   | None => init !! k
                   end)).
  - intros k. rewrite lookup_empty. reflexivity.
  - intros i x m' r Hi IH k.
    destruct (decide (k = i)) as [->|Hne].
    + rewrite lookup_insert_eq. destruct (stale now maxAgeMs x) eqn:Hs; simpl.
      * apply lookup_delete_eq.
      * rewrite IH, Hi. reflexivity.
    + rewrite lookup_insert_ne by congruence.
      destruct (stale now maxAgeMs x); simpl.
      * rewrite lookup_delete_ne by congruence. apply IH.
      * apply IH.
Qed.

Lemma sweep_fold_count (init m : gmap string HashEntry) (n : nat) :
  let r := map_fold (fun filePath fileCache acc =>
                       if stale now maxAgeMs fileCache
                       then (delete filePath acc.1, S acc.2)
                       else acc) (init, n) m in
  n <= r.2
  /\ (n < r.2 <->
      exists k e, m !! k = Some e /\ stale now maxAgeMs e = true).
Proof.
  apply (map_fold_weak_ind
    (fun (r : gmap string HashEntry * nat) (m : gmap string HashEntry) =>
       n <= r.2
       /\ (n < r.2 <->
           exists k e, m !! k = Some e /\ stale now maxAgeMs e = true))).
  - split; [simpl; lia|]. split; [simpl; lia|].
    intros (k & e & Hk & _). rewrite lookup_empty in Hk. discriminate.
  - intros i x m' r Hi [Hle Hiff].
    destruct (stale now maxAgeMs x) eqn:Hs; simpl.
    + split; [lia|]. split; [|lia].
      intros _. exists i, x. rewrite lookup_insert_eq. auto.
    + split; [exact Hle|]. rewrite Hiff. split.
      * intros (k & e & Hk & He). exists k, e. split; [|exact He].
        rewrite lookup_insert_ne; [exact Hk|]. intros ->. congruence.
      * intros (k & e & Hk & He). exists k, e. split; [|exact He].
        destruct (decide (k = i)) as [->|Hne].
        -- rewrite lookup_insert_eq in Hk. congruence.
        -- rewrite lookup_insert_ne in Hk by congruence. exact Hk.
Qed.

Lemma sweepWorkspace_lookup (wc : gmap string HashEntry) (n : nat)
    (filePath : string) :
  (sweepWorkspace now maxAgeMs wc n).1 !! filePath
  = wc !! filePath ≫= (fun e => if stale now maxAgeMs e then None else Some e).
Proof.
  unfold sweepWorkspace. rewrite sweep_fold_lookup.
  destruct (wc !! filePath) as [e|]; simpl; [|reflexivity].
  destruct (stale now maxAgeMs e); reflexivity.
Qed.

Lemma sweepWorkspace_count (wc : gmap string HashEntry) (n : nat) :
  n <= (sweepWorkspace now maxAgeMs wc n).2
  /\ (n < (sweepWorkspace now maxAgeMs wc n).2 <->
      exists k e, wc !! k = Some e /\ stale now maxAgeMs e = true).
Proof. apply sweep_fold_count. Qed.

Lemma sweepWorkspace_counter_irrelevant (wc : gmap string HashEntry)
    (n : nat) :
  (sweepWorkspace now maxAgeMs wc n).1 = (sweepWorkspace now maxAgeMs wc 0).1.
Proof.
  apply map_eq. intros k. rewrite !sweepWorkspace_lookup. reflexivity.
Qed.

(** The outer loop, for any map it iterates over. *)
Lemma sweepCache_fold (init m : FileHashCache) (n : nat) :
  let r := map_fold (fun workspaceId workspaceCache acc =>
                       let r := sweepWorkspace now maxAgeMs workspaceCache
                                               acc.2 in
                       if Nat.eqb (size r.1) 0
                       then (delete workspaceId acc.1, r.2)
                       else (<[workspaceId := r.1]> acc.1, r.2))
                    (init, n) m in
  (forall ws, r.1 !! ws
     = match m !! ws with
       | Some wc =>
           let wc' := (sweepWorkspace now maxAgeMs wc 0).1 in
           if Nat.eqb (size wc') 0 then None else Some wc'
       | None => init !! ws
       end)
  /\ n <= r.2
  /\ (n < r.2 <-> exists ws wc k e, m !! ws = Some wc /\ wc !! k = Some e
                                    /\ stale now maxAgeMs e = true).
Proof.
  apply (map_fold_weak_ind
    (fun (r : FileHashCache * nat) (m : FileHashCache) =>
    (forall ws, r.1 !! ws
       = match m !! ws with
         | Some wc =>
             let wc' := (sweepWorkspace now maxAgeMs wc 0).1 in
             if Nat.eqb (size wc') 0 then None else Some wc'
         | None => init !! ws
         end)
    /\ n <= r.2
    /\ (n < r.2 <-> exists ws wc k e, m !! ws = Some wc /\ wc !! k = Some e
                                      /\ stale now maxAgeMs e = true))).
  - split; [|split].
    + intros ws. rewrite lookup_empty. reflexivity.
    + simpl. lia.
    + split; [simpl; lia|]. intros (ws & wc & k & e & Hws & _).
      rewrite lookup_empty in Hws. discriminate.
  - intros i x m' r Hi (Hlk & Hle & Hiff).
    destruct (sweepWorkspace_count x r.2) as [Hle' Hiff'].
    pose proof (sweepWorkspace_counter_irrelevant x r.2) as Hirr.
    assert (Hfst : forall ws,
      (if Nat.eqb (size (sweepWorkspace now maxAgeMs x r.2).1) 0
       then (delete i r.1, (sweepWorkspace now maxAgeMs x r.2).2)
       else (<[i := (sweepWorkspace now maxAgeMs x r.2).1]> r.1,
             (sweepWorkspace now maxAgeMs x r.2).2)).1 !! ws
      = match <[i:=x]> m' !! ws with
        | Some wc =>
            let wc' := (sweepWorkspace now maxAgeMs wc 0).1 in
            if Nat.eqb (size wc') 0 then None else Some wc'
        | None => init !! ws
        end).
    { intros ws. rewrite Hirr. simpl.
      destruct (decide (ws = i)) as [->|Hne].
      - rewrite lookup_insert_eq.
        destruct (Nat.eqb (size (sweepWorkspace now maxAgeMs x 0).1) 0);
          simpl.
        + apply lookup_delete_eq.
        + apply lookup_insert_eq.
      - rewrite (lookup_insert_ne m') by congruence.
        destruct (Nat.eqb (size (sweepWorkspace now maxAgeMs x 0).1) 0);
          simpl.
        + rewrite lookup_delete_ne by congruence. apply Hlk.
        + rewrite lookup_insert_ne by congruence. apply Hlk. }
    assert (Hsnd :
      (if Nat.eqb (size (sweepWorkspace now maxAgeMs x r.2).1) 0
       then (delete i r.1, (sweepWorkspace now maxAgeMs x r.2).2)
       else (<[i := (sweepWorkspace now maxAgeMs x r.2).1]> r.1,
             (sweepWorkspace now maxAgeMs x r.2).2)).2
      = (sweepWorkspace now maxAgeMs x r.2).2).
    { destruct (Nat.eqb _ _); reflexivity. }
    simpl. split; [exact Hfst|]. rewrite Hsnd. split; [lia|]. split.
    + intros Hlt.
      destruct (Nat.lt_ge_cases n r.2) as [Hr|Hr].
      * apply Hiff in Hr. destruct Hr as (ws & wc & k & e & Hws & Hk & He).
        exists ws, wc, k, e. split; [|auto].
        rewrite lookup_insert_ne; [exact Hws|]. intros ->. congruence.
      * assert (r.2 < (sweepWorkspace now maxAgeMs x r.2).2) as Hx by lia.
        apply Hiff' in Hx. destruct Hx as (k & e & Hk & He).
        exists i, x, k, e. rewrite lookup_insert_eq. auto.
    + intros (ws & wc & k & e & Hws & Hk & He).
      destruct (decide (ws = i)) as [->|Hne].
      * rewrite lookup_insert_eq in Hws. injection Hws as <-.
        assert (r.2 < (sweepWorkspace now maxAgeMs x r.2).2); [|lia].
        apply Hiff'. eauto.
      * rewrite lookup_insert_ne in Hws by congruence.
        assert (n < r.2); [|lia]. apply Hiff. eauto 10.
Qed.

Lemma sweepCache_lookup (cache : FileHashCache) (ws : string) :
  (sweepCache now maxAgeMs cache).1 !! ws
  = match cache !! ws with
    | Some wc =>
        let wc' := (sweepWorkspace now maxAgeMs wc 0).1 in
        if Nat.eqb (size wc') 0 then None else Some wc'
    | None => None
    end.
Proof.
  destruct (sweepCache_fold cache cache 0) as (Hlk & _).
  etransitivity; [exact (Hlk ws)|].
  destruct (cache !! ws) as [wc|] eqn:E; reflexivity.
Qed.

Lemma sweepCache_entries (cache : FileHashCache) (ws filePath : string) :
  (sweepCache now maxAgeMs cache).1 !! ws ≫= (fun wc => wc !! filePath)
  = (cache !! ws ≫= (fun wc => wc !! filePath))
      ≫= (fun e => if stale now maxAgeMs e then None else Some e).
Proof.
  rewrite sweepCache_lookup.
  destruct (cache !! ws) as [wc|]; simpl; [|reflexivity].
  destruct (Nat.eqb (size (sweepWorkspace now maxAgeMs wc 0).1) 0) eqn:Hsz;
    simpl.
  - apply Nat.eqb_eq, map_size_empty_iff in Hsz.
    rewrite <- (sweepWorkspace_lookup wc 0), Hsz, lookup_empty. reflexivity.
  - apply sweepWorkspace_lookup.
Qed.

Lemma sweepCache_no_empty_workspace (cache : FileHashCache) (ws : string)
    (wc : gmap string HashEntry) :
  (sweepCache now maxAgeMs cache).1 !! ws = Some wc -> wc <> ∅.
Proof.
  rewrite sweepCache_lookup.
  destruct (cache !! ws) as [wc0|]; simpl; [|discriminate].
  destruct (Nat.eqb (size (sweepWorkspace now maxAgeMs wc0 0).1) 0) eqn:Hsz;
    [discriminate|].
  intros [= <-] Hempty. rewrite Hempty, map_size_empty in Hsz. discriminate.
Qed.

Lemma sweepCache_removed (cache : FileHashCache) :
  0 < (sweepCache now maxAgeMs cache).2 <->
  exists ws wc filePath e,
    cache !! ws = Some wc /\ wc !! filePath = Some e
    /\ stale now maxAgeMs e = true.
Proof.
  destruct (sweepCache_fold cache cache 0) as (_ & _ & Hiff).
  exact Hiff.
Qed.

End Sweep.


End WithRuntime.




End HashCacheSpec.

(** ** The crawler *)

Module CrawlerSpec.
Import HashCache Crawler.

(** One step of a run that resolved: the first computation resolved. *)
Ltac bind_step H :=
  unfold bind at 1 in H;
  match type of H with
  | (let (_, _) := ?m in _) = _ =>
      let a := fresh "a" in
      let e := fresh "e" in
      let w := fresh "w" in
      destruct m as [[a|e] w] eqn:?; [|discriminate H]
  end.

Lemma readCount_app (path : string) (l l' : list fsEvent) :
  readCount path (l ++ l') = readCount path l + readCount path l'.
Proof. unfold readCount. rewrite List.filter_app, length_app. reflexivity. Qed.

Lemma readCount_read (path : string) :
  readCount path [EvReadFile path] = 1.
Proof. unfold readCount. simpl. rewrite String.eqb_refl. reflexivity. Qed.

Lemma readCount_stat (path p : string) : readCount path [EvStat p] = 0.
Proof. reflexivity. Qed.

(** *** Paths as strings *)

Lemma append_assoc (a b c : string) : (a +:+ b) +:+ c = a +:+ (b +:+ c).
Proof.
  induction a as [|ch a IH]; [reflexivity|].
  change (String ch ((a +:+ b) +:+ c) = String ch (a +:+ (b +:+ c))).
  rewrite IH. reflexivity.
Qed.

Lemma append_inv_head (a s1 s2 : string) : a +:+ s1 = a +:+ s2 -> s1 = s2.
Proof.
  induction a as [|ch a IH]; simpl; [auto|]. intros [= H]. auto.
Qed.

Lemma path_join_assoc (a b c : string) :
  path_join (path_join a b) c = path_join a (path_join b c).
Proof. unfold path_join. rewrite append_assoc. reflexivity. Qed.

Lemma path_join_inv (a b c : string) : path_join a b = path_join a c -> b = c.
Proof.
  unfold path_join. intros H. apply append_inv_head in H.
  injection H. auto.
Qed.

Lemma slashFree_join (x rest : string) : slashFree (path_join x rest) = false.
Proof.
  unfold path_join. induction x as [|ch x IH]; simpl; [reflexivity|].
  rewrite IH. apply andb_false_r.
Qed.

(** Two decompositions of one path, the first at a name without separator. *)
Lemma path_join_split (a : string) :
  slashFree a = true ->
  forall x r1 r2, path_join a r1 = path_join x r2 ->
                  x = a \/ exists x', x = path_join a x'.
Proof.
  unfold path_join.
  induction a as [|ch a IH]; simpl; intros Hfree x r1 r2 Heq.
  - destruct x as [|cx x]; [left; reflexivity|].
    simpl in Heq. injection Heq as <- _. right. exists x. reflexivity.
  - apply andb_true_iff in Hfree as [Hch Hfree].
    destruct x as [|cx x]; simpl in Heq.
    + injection Heq as -> _. discriminate.
    + injection Heq as <- Heq.
      destruct (IH Hfree x r1 r2 Heq) as [->|[x' ->]].
      * left. reflexivity.
      * right. exists x'. reflexivity.
Qed.

(** Two decompositions of one path, the second ending in a name without
    separator. *)
Lemma path_join_split_last (item : string) :
  slashFree item = true ->
  forall d0 d rest, path_join d0 item = path_join d rest ->
                    d = d0 \/ inside d d0.
Proof.
  unfold inside, path_join. intros Hfree.
  induction d0 as [|c d0 IH]; intros d rest Heq.
  - destruct d as [|c' d]; [left; reflexivity|].
    change (String "/" item = String c' (path_join d rest)) in Heq.
    injection Heq as <- Heq. rewrite Heq, slashFree_join in Hfree.
    discriminate.
  - destruct d as [|c' d].
    + change (String c (d0 +:+ "/" +:+ item) = String "/" rest) in Heq.
      injection Heq as -> _. right. exists d0. reflexivity.
    + change (String c (d0 +:+ "/" +:+ item)
              = String c' (d +:+ "/" +:+ rest)) in Heq.
      injection Heq as <- Heq.
      destruct (IH d rest Heq) as [->|[r ->]].
      * left. reflexivity.
      * right. exists r. reflexivity.
Qed.

Lemma length_append (a b : string) :
  String.length (a +:+ b) = String.length a + String.length b.
Proof.
  induction a as [|c a IH]; [reflexivity|].
  change (S (String.length (a +:+ b))
          = S (String.length a + String.length b)).
  rewrite IH. reflexivity.
Qed.

Lemma inside_irrefl (d : string) : ~ inside d d.
Proof.
  intros [rest H]. unfold path_join in H.
  apply (f_equal String.length) in H.
  rewrite !length_append in H.
  change (String.length "/") with 1 in H. lia.
Qed.

Section WithRuntime.

Variable JSON_parse : string -> option FileHashCache.
Variable md5 : string -> string.
Variable minimatch : string -> string -> bool.
Variable ignore_add : list string -> string -> bool.

(** *** Runs of the cache operations *)

Lemma readFileHashCache_withLog (w : World) (cache : FileHashCache)
    (log : list fsEvent) :
  readFileHashCache JSON_parse w = (Ok cache, w) ->
  readFileHashCache JSON_parse (withLog w log) = (Ok cache, withLog w log).
Proof.
  unfold readFileHashCache, try_catch, bind, ret, throw, cache_access,
    cache_readFile, withLog.
  destruct w as [cachePath [| |text] writable now tree log0]; simpl;
    destruct (String.eqb cachePath ""); try congruence.
  destruct (text_trim_is_empty text); try congruence.
  destruct (text_parse JSON_parse text); congruence.
Qed.

Lemma fs_readFile_run (path : string) (w : World) :
  fs_readFile path w
  = (readResult w path, withLog w (ioLog w ++ [EvReadFile path])).
Proof.
  reflexivity.
Qed.

Lemma calculateFileHash_read (path : string) (w : World) :
  calculateFileHash md5 path None w
  = (match readResult w path with
     | Ok content => Ok (md5 content)
     | Throw e => Throw e
     end, withLog w (ioLog w ++ [EvReadFile path])).
Proof.
  unfold calculateFileHash, bind, ret. rewrite fs_readFile_run.
  destruct (readResult w path); reflexivity.
Qed.

Lemma calculateFileHash_given (path content : string) (w : World) :
  content <> "" ->
  calculateFileHash md5 path (Some content) w = (Ok (md5 content), w).
Proof.
  intros Hne. unfold calculateFileHash, bind, ret.
  destruct (String.eqb_spec content ""); [contradiction|reflexivity].
Qed.

Lemma hasFileChanged_run (ws path : string) (w : World)
    (cache : FileHashCache) :
  readFileHashCache JSON_parse w = (Ok cache, w) ->
  hasFileChanged JSON_parse md5 ws path None w
  = match cache !! ws ≫= (fun wc => wc !! path) with
    | None => (Ok true, w)
    | Some entry =>
        (Ok (match readResult w path with
             | Ok content => negb (String.eqb (md5 content) (hash entry))
             | Throw _ => true
             end), withLog w (ioLog w ++ [EvReadFile path]))
    end.
Proof.
  intros Hread. unfold hasFileChanged, bind. rewrite Hread.
  replace (default ∅ (cache !! ws) !! path)
    with (cache !! ws ≫= (fun wc => wc !! path))
    by (destruct (cache !! ws); simpl; [reflexivity|];
        symmetry; apply lookup_empty).
  destruct (cache !! ws ≫= (fun wc => wc !! path)) as [entry|];
    [|reflexivity].
  unfold try_catch, bind, ret. rewrite calculateFileHash_read.
  destruct (readResult w path); reflexivity.
Qed.

Lemma writeFileHashCache_log (cache : FileHashCache) (w : World) :
  exists w', writeFileHashCache cache w = (Ok tt, w')
             /\ ioLog w' = ioLog w /\ fs w' = fs w.
Proof.
  unfold writeFileHashCache.
  destruct (String.eqb _ _); [eauto|].
  destruct (cacheWritable w); eauto.
Qed.

Lemma updateFileHash_log (ws path content : string) (w : World) :
  exists r w', updateFileHash JSON_parse md5 ws path (Some content) w = (r, w')
    /\ fs w' = fs w
    /\ ioLog w' = ioLog w ++ (if String.eqb content ""
                              then [EvReadFile path] else []).
Proof.
  destruct (HashCacheSpec.readFileHashCache_total JSON_parse w)
    as [cache Hread].
  unfold updateFileHash, bind. rewrite Hread.
  destruct (String.eqb_spec content "") as [->|Hne].
  - change (calculateFileHash md5 path (Some "")) with
      (calculateFileHash md5 path None).
    rewrite calculateFileHash_read.
    destruct (readResult w path) as [text|e].
    + unfold Date_now. simpl.
      match goal with
      | |- context [writeFileHashCache ?c ?w0] =>
          destruct (writeFileHashCache_log c w0) as (w' & -> & Hlog & Hfs)
      end.
      exists (Ok tt), w'. split; [reflexivity|]. split; [exact Hfs|exact Hlog].
    + eexists _, _. split; [reflexivity|]. split; reflexivity.
  - rewrite calculateFileHash_given by exact Hne.
    unfold Date_now. simpl.
    match goal with
    | |- context [writeFileHashCache ?c ?w0] =>
        destruct (writeFileHashCache_log c w0) as (w' & -> & Hlog & Hfs)
    end.
    exists (Ok tt), w'. split; [reflexivity|]. split; [exact Hfs|].
    rewrite Hlog, app_nil_r. reflexivity.
Qed.

(** *** Reads of one candidate in incremental mode *)

Lemma String_eqb_md5 (a b : string) : negb (String.eqb a b) = false -> a = b.
Proof. destruct (String.eqb_spec a b); [auto|discriminate]. Qed.


(** *** Loops *)

Lemma forEachM_ok_inv {A S : Type} (I : S -> World -> Prop)
    (body : A -> S -> M S) (l : list A) :
  (forall x s w s' w', In x l -> I s w -> body x s w = (Ok s', w') ->
                       I s' w') ->
  forall s w s' w', I s w -> forEachM l s body w = (Ok s', w') -> I s' w'.
Proof.
  induction l as [|x l IH]; intros Hbody s w s' w' HI Hrun.
  - injection Hrun as <- <-. exact HI.
  - simpl in Hrun. unfold bind in Hrun.
    destruct (body x s w) as [[s1|e] w1] eqn:Hx; [|discriminate].
    apply (IH (fun y s0 w0 s0' w0' Hy => Hbody y s0 w0 s0' w0' (or_intror Hy))
              s1 w1 s' w').
    + apply (Hbody x s w s1 w1); [left; reflexivity|exact HI|exact Hx].
    + exact Hrun.
Qed.

Lemma forEachM_throw_inv {A S : Type} (E : jsError -> Prop)
    (body : A -> S -> M S) (l : list A) :
  (forall x s w e w', body x s w = (Throw e, w') -> E e) ->
  forall s w e w', forEachM l s body w = (Throw e, w') -> E e.
Proof.
  intros Hbody. induction l as [|x l IH]; intros s w e w' Hrun.
  - discriminate.
  - simpl in Hrun. unfold bind in Hrun.
    destruct (body x s w) as [[s1|e1] w1] eqn:Hx.
    + apply (IH s1 w1 e w' Hrun).
    + injection Hrun as <- <-. apply (Hbody x s w e1 w1 Hx).
Qed.

Lemma withLog_withLog (w : World) (l l' : list fsEvent) :
  withLog (withLog w l) l' = withLog w l'.
Proof. reflexivity. Qed.

(** *** The walk *)

Section Walk.

Variable gitignoreSpec : option (string -> bool).
Variable includePatterns excludePatterns : option (list string).
Variable rootDir : string.
Variable useRelativePaths : bool.

Abbreviation excludedAt p :=
  (isExcluded minimatch gitignoreSpec excludePatterns
              (relPathOf rootDir useRelativePaths p)).
Abbreviation descendsFrom :=
  (descends minimatch gitignoreSpec excludePatterns rootDir useRelativePaths).
Abbreviation walkedFrom :=
  (walked minimatch gitignoreSpec excludePatterns rootDir useRelativePaths).

Lemma isExcluded_ignored (ignores : string -> bool) (relPath : string)
    (patterns : option (list string)) :
  ignores relPath = true ->
  isExcluded minimatch (Some ignores) patterns relPath = true.
Proof.
  intros H. unfold isExcluded. rewrite H. destruct patterns; reflexivity.
Qed.

Lemma isExcluded_false_not_ignored (ignores : string -> bool)
    (relPath : string) (patterns : option (list string)) :
  isExcluded minimatch (Some ignores) patterns relPath = false ->
  ignores relPath = false.
Proof.
  intros H. destruct (ignores relPath) eqn:E; [|reflexivity].
  rewrite (isExcluded_ignored ignores relPath patterns E) in H. discriminate.
Qed.

Lemma descends_inside (cur p : string) : descendsFrom cur p -> inside cur p.
Proof.
  induction 1 as [cur item Hfree Hex|cur item p Hfree Hex Hd [rest ->]].
  - exists item. reflexivity.
  - exists (path_join item rest). apply path_join_assoc.
Qed.

Lemma descends_not_excluded (cur p : string) :
  descendsFrom cur p -> excludedAt p = false.
Proof. induction 1; assumption. Qed.

(** Every directory between the start of a walk and a path it reaches is
    itself reached, hence not excluded. *)
Lemma descends_between (cur p : string) :
  descendsFrom cur p ->
  forall d, inside cur d -> inside d p -> descendsFrom cur d.
Proof.
  induction 1 as [cur item Hfree Hex|cur item p Hfree Hex Hd IH];
    intros d [x ->] [rest Hp].
  - rewrite path_join_assoc in Hp. apply path_join_inv in Hp.
    rewrite Hp, slashFree_join in Hfree. discriminate.
  - destruct (descends_inside _ _ Hd) as [rest2 Hp2].
    pose proof Hp as Hp0.
    rewrite Hp2, !path_join_assoc in Hp. apply path_join_inv in Hp.
    destruct (path_join_split item Hfree x rest2 rest Hp) as [->|[x' ->]].
    + apply descends_item; assumption.
    + apply (descends_deeper _ _ _ _ _ _ item); [assumption..|].
      apply IH.
      * exists x'. symmetry. apply path_join_assoc.
      * exists rest. exact Hp0.
Qed.

Lemma walked_deeper (cur item d : string) :
  slashFree item = true -> excludedAt (path_join cur item) = false ->
  walkedFrom (path_join cur item) d -> walkedFrom cur d.
Proof.
  intros Hfree Hex [->|Hd]; right.
  - apply descends_item; assumption.
  - apply (descends_deeper _ _ _ _ _ _ item); assumption.
Qed.

Lemma candidateOk_deeper (cur item : string) (e : PendingFile) :
  slashFree item = true -> excludedAt (path_join cur item) = false ->
  candidateOk minimatch gitignoreSpec includePatterns excludePatterns
              rootDir useRelativePaths (path_join cur item) e ->
  candidateOk minimatch gitignoreSpec includePatterns excludePatterns
              rootDir useRelativePaths cur e.
Proof.
  intros Hfree Hex (H1 & H2 & H3 & H4). repeat split; try assumption.
  apply (descends_deeper _ _ _ _ _ _ item); assumption.
Qed.

Lemma eventOk_deeper (cur item : string) (ev : fsEvent) :
  slashFree item = true -> excludedAt (path_join cur item) = false ->
  eventOk minimatch gitignoreSpec excludePatterns rootDir useRelativePaths
          (path_join cur item) ev ->
  eventOk minimatch gitignoreSpec excludePatterns rootDir useRelativePaths
          cur ev.
Proof.
  intros Hfree Hex. destruct ev as [p|p|d]; simpl; [auto| |].
  - intros (d & it & Hd & Hit & ->). exists d, it.
    split; [|split; [exact Hit|reflexivity]].
    apply (walked_deeper cur item d); assumption.
  - apply walked_deeper; assumption.
Qed.

Abbreviation collect :=
  (collectFilePaths minimatch gitignoreSpec includePatterns excludePatterns).
Abbreviation candidateFrom :=
  (candidateOk minimatch gitignoreSpec includePatterns excludePatterns
               rootDir useRelativePaths).
Abbreviation eventFrom :=
  (eventOk minimatch gitignoreSpec excludePatterns rootDir useRelativePaths).

Lemma namesOk_listed (w : World) (cur item : string) (items : list string) :
  namesOk (fs w) -> fs w !! cur = Some (DirNode items) -> In item items ->
  slashFree item = true.
Proof.
  intros Hok Hcur Hin. specialize (Hok cur (DirNode items) Hcur).
  simpl in Hok. rewrite forallb_forall in Hok. apply Hok, Hin.
Qed.

(** What a walk that resolves has added to the candidates and to the log. *)
Lemma collectFilePaths_inv (depth : nat) :
  forall (cur : string) (pending : list PendingFile) (w : World)
         (pending' : list PendingFile) (w' : World),
    namesOk (fs w) ->
    collect depth rootDir cur useRelativePaths pending w = (Ok pending', w') ->
    exists new log',
      pending' = pending ++ new
      /\ w' = withLog w (ioLog w ++ log')
      /\ Forall (candidateFrom cur) new
      /\ Forall (eventFrom cur) log'.
Proof.
  induction depth as [|depth IH]; intros cur pending w pending' w' Hok Hrun.
  - discriminate.
  - simpl in Hrun. unfold bind at 1 in Hrun. unfold fs_readdir in Hrun.
    unfold bind at 1 in Hrun. unfold logEvent at 1 in Hrun.
    set (w1 := withLog w (ioLog w ++ [EvReaddir cur])) in Hrun.
    change (fs w1) with (fs w) in Hrun.
    destruct (fs w !! cur) as [[| items |]|] eqn:Hcur; try discriminate.
    revert Hrun.
    apply (forEachM_ok_inv
      (fun s w2 => exists new log',
         s = pending ++ new /\ w2 = withLog w (ioLog w ++ log')
         /\ Forall (candidateFrom cur) new /\ Forall (eventFrom cur) log')).
    + intros item s w2 s' w2' Hin (new & log' & -> & -> & Hnew & Hlog) Hbody.
      pose proof (namesOk_listed w cur item items Hok Hcur Hin) as Hfree.
      unfold bind at 1 in Hbody. unfold fs_stat at 1 in Hbody.
      unfold bind at 1 in Hbody. unfold logEvent at 1 in Hbody.
      rewrite withLog_withLog in Hbody.
      change (ioLog (withLog w (ioLog w ++ log'))) with (ioLog w ++ log')
        in Hbody.
      rewrite <- app_assoc in Hbody.
      set (w3 := withLog w (ioLog w ++ log' ++ [EvStat (path_join cur item)]))
        in Hbody.
      change (fs w3) with (fs w) in Hbody.
      assert (Hlog3 : Forall (eventFrom cur)
                             (log' ++ [EvStat (path_join cur item)])).
      { apply Forall_app. split; [exact Hlog|].
        constructor; [|constructor].
        exists cur, item. split; [left; reflexivity|].
        split; [exact Hfree|reflexivity]. }
      destruct (fs w !! path_join cur item) as [stats|]; [|discriminate].
      destruct (isDirectory stats
                && negb (excludedAt (path_join cur item))) eqn:Hdir.
      * apply andb_true_iff in Hdir as [_ Hex].
        apply negb_true_iff in Hex.
        destruct (IH (path_join cur item) (pending ++ new) w3 s' w2' Hok Hbody)
          as (new2 & log2 & -> & -> & Hnew2 & Hlog2).
        exists (new ++ new2), ((log' ++ [EvStat (path_join cur item)]) ++ log2).
        split; [rewrite <- app_assoc; reflexivity|]. split.
        { subst w3. unfold withLog. simpl. f_equal.
          rewrite <- !app_assoc. reflexivity. }
        split; apply Forall_app; split; try assumption.
        -- eapply Forall_impl; [exact Hnew2|]. intros e.
           apply candidateOk_deeper; assumption.
        -- eapply Forall_impl; [exact Hlog2|]. intros ev.
           apply eventOk_deeper; assumption.
      * destruct (negb (isFile stats) || excludedAt (path_join cur item))
          eqn:Hskip.
        { injection Hbody as <- <-.
          exists new, (log' ++ [EvStat (path_join cur item)]). auto. }
        apply orb_false_iff in Hskip as [_ Hex].
        destruct (negb (isIncluded minimatch includePatterns
                          (relPathOf rootDir useRelativePaths
                                     (path_join cur item)))) eqn:Hinc.
        { injection Hbody as <- <-.
          exists new, (log' ++ [EvStat (path_join cur item)]). auto. }
        apply negb_false_iff in Hinc.
        injection Hbody as <- <-.
        exists (new ++ [mkPending (path_join cur item)
                          (relPathOf rootDir useRelativePaths
                                     (path_join cur item))]),
          (log' ++ [EvStat (path_join cur item)]).
        split; [rewrite <- app_assoc; reflexivity|]. split; [reflexivity|].
        split; [|exact Hlog3].
        apply Forall_app. split; [exact Hnew|].
        constructor; [|constructor].
        repeat split; simpl; try assumption.
        apply descends_item; assumption.
    + exists [], [EvReaddir cur]. split; [symmetry; apply app_nil_r|].
      split; [reflexivity|]. split; [constructor|].
      constructor; [left; reflexivity|constructor].
Qed.

(** A walk rejects with an error of the file system only. *)
Lemma collectFilePaths_throws (depth : nat) :
  forall (cur : string) (pending : list PendingFile) (w : World)
         (e : jsError) (w' : World),
    collect depth rootDir cur useRelativePaths pending w = (Throw e, w') ->
    exists p, e = IOError p.
Proof.
  induction depth as [|depth IH]; intros cur pending w e w' Hrun.
  - injection Hrun as <- _. eauto.
  - simpl in Hrun. unfold bind at 1 in Hrun. unfold fs_readdir in Hrun.
    unfold bind at 1 in Hrun. unfold logEvent at 1 in Hrun.
    set (w1 := withLog w (ioLog w ++ [EvReaddir cur])) in Hrun.
    change (fs w1) with (fs w) in Hrun.
    destruct (fs w !! cur) as [[| items |]|] eqn:Hcur;
      try (injection Hrun as <- _; eauto; fail).
    eapply (forEachM_throw_inv (fun e => exists p, e = IOError p));
      [|exact Hrun].
    intros item s w2 e2 w2' Hbody.
    unfold bind at 1 in Hbody. unfold fs_stat at 1 in Hbody.
    unfold bind at 1 in Hbody. unfold logEvent at 1 in Hbody.
    match type of Hbody with
    | context [fs ?w0 !! ?k] => destruct (fs w0 !! k) as [stats|]
    end; [|injection Hbody as <- _; eauto].
    destruct (isDirectory stats && _); [apply (IH _ _ _ _ _ Hbody)|].
    destruct (negb (isFile stats) || _); [discriminate|].
    destruct (negb _); discriminate.
Qed.

(** The candidates a walk adds passed the exclusion and inclusion checks. *)
Lemma collectFilePaths_candidates (depth : nat) :
  forall (cur : string) (pending : list PendingFile) (w : World)
         (pending' : list PendingFile) (w' : World),
    collect depth rootDir cur useRelativePaths pending w = (Ok pending', w') ->
    forall e, In e pending' ->
      In e pending
      \/ (relativePath e = relPathOf rootDir useRelativePaths (pfPath e)
          /\ isExcluded minimatch gitignoreSpec excludePatterns
                        (relativePath e) = false
          /\ isIncluded minimatch includePatterns (relativePath e) = true).
Proof.
  induction depth as [|depth IH]; intros cur pending w pending' w' Hrun.
  - discriminate.
  - simpl in Hrun. bind_step Hrun. revert Hrun.
    apply (forEachM_ok_inv
      (fun s (_ : World) => forall e, In e s ->
         In e pending
         \/ (relativePath e = relPathOf rootDir useRelativePaths (pfPath e)
             /\ isExcluded minimatch gitignoreSpec excludePatterns
                           (relativePath e) = false
             /\ isIncluded minimatch includePatterns (relativePath e)
                = true))); [|auto].
    intros item s w2 s' w2' _ Hs Hbody. bind_step Hbody.
    destruct (isDirectory a0 && negb (excludedAt (path_join cur item))).
    + intros e He.
      destruct (IH _ _ _ _ _ Hbody e He) as [Hin|Hnew]; auto.
    + destruct (negb (isFile a0) || excludedAt (path_join cur item))
        eqn:Hskip; [injection Hbody as <- _; exact Hs|].
      apply orb_false_iff in Hskip as [_ Hex].
      destruct (negb (isIncluded minimatch includePatterns
                        (relPathOf rootDir useRelativePaths
                                   (path_join cur item)))) eqn:Hinc;
        [injection Hbody as <- _; exact Hs|].
      apply negb_false_iff in Hinc.
      injection Hbody as <- _. intros e He.
      apply in_app_or in He as [He|[<-|[]]]; [auto|].
      right. simpl. auto.
Qed.

End Walk.

(** *** Processing the candidates *)

Lemma processFile_result
    (progressCallback : option (nat -> nat -> string -> option jsError))
    (maxFileSize : option Z) (incrementalProcessing : bool)
    (workspaceId : option string) (totalFiles i : nat)
    (fileInfo : PendingFile) (index unchangedCount : nat) (w : World) :
  exists res count' w',
    processFile JSON_parse md5 progressCallback maxFileSize
      incrementalProcessing workspaceId totalFiles i fileInfo index
      unchangedCount w = (Ok (res, count'), w')
    /\ (forall f, res = Some f -> fiPath f = relativePath fileInfo).
Proof.
  unfold processFile, try_catch.
  match goal with
  | |- context [let (_, _) := ?m w in _] =>
      destruct (m w) as [[[res count']|e] w1] eqn:Hrun
  end.
  - exists res, count', w1. split; [reflexivity|].
    intros f ->.
    bind_step Hrun. bind_step Hrun.
    destruct (tooLarge maxFileSize a0); [discriminate|].
    bind_step Hrun.
    destruct (negb a1); [discriminate|].
    bind_step Hrun. bind_step Hrun.
    injection Hrun as <- _ _. reflexivity.
  - exists None, unchangedCount, w1. split; [reflexivity|].
    intros f Hf. discriminate.
Qed.

Lemma processBatch_result
    (progressCallback : option (nat -> nat -> string -> option jsError))
    (maxFileSize : option Z) (incrementalProcessing : bool)
    (workspaceId : option string) (totalFiles i : nat)
    (batch : list PendingFile) :
  forall (index unchangedCount : nat) (w : World),
  exists results count' w',
    processBatch JSON_parse md5 progressCallback maxFileSize
      incrementalProcessing workspaceId totalFiles i batch index
      unchangedCount w = (Ok (results, count'), w')
    /\ (forall f, In (Some f) results ->
        exists e, In e batch /\ fiPath f = relativePath e).
Proof.
  induction batch as [|fileInfo rest IH]; intros index unchangedCount w.
  - exists [], unchangedCount, w. split; [reflexivity|].
    intros f [].
  - simpl. unfold bind at 1.
    destruct (processFile_result progressCallback maxFileSize
                incrementalProcessing workspaceId totalFiles i fileInfo
                index unchangedCount w) as (res & c1 & w1 & -> & Hres).
    unfold bind at 1. simpl snd.
    destruct (IH (S index) c1 w1) as (results & c2 & w2 & -> & Hrest).
    exists (res :: results), c2, w2. split; [reflexivity|].
    intros f [Hf|Hf].
    + exists fileInfo. split; [left; reflexivity|]. apply Hres. exact Hf.
    + destruct (Hrest f Hf) as (e & He & Hp). exists e. split; [right|]; auto.
Qed.

Lemma In_filterBoolean {A : Type} (x : A) (results : list (option A)) :
  In x (filterBoolean results) -> In (Some x) results.
Proof.
  unfold filterBoolean. induction results as [|[y|] results IH]; simpl.
  - auto.
  - intros [->|H]; auto.
  - auto.
Qed.

Lemma In_slice {A : Type} (x : A) (i j : nat) (l : list A) :
  In x (slice i j l) -> In x l.
Proof.
  unfold slice. intros H.
  rewrite <- (firstn_skipn i l). apply in_or_app. right.
  rewrite <- (firstn_skipn (j - i) (skipn i l)). apply in_or_app. left.
  exact H.
Qed.

(** The loop over the batches always resolves, with records of candidates. *)
Lemma batches_result
    (progressCallback : option (nat -> nat -> string -> option jsError))
    (maxFileSize : option Z) (incrementalProcessing : bool)
    (workspaceId : option string) (pendingFiles : list PendingFile)
    (starts : list nat) :
  forall (acc : list FileInfo * nat) (w : World),
  exists r w',
    forEachM starts acc
      (fun i acc =>
         let batch := slice i (i + batchSize) pendingFiles in
         results <- processBatch JSON_parse md5 progressCallback maxFileSize
                      incrementalProcessing workspaceId
                      (length pendingFiles) i batch 0 acc.2 ;;
         ret (acc.1 ++ filterBoolean results.1, results.2)) w
    = (Ok r, w')
    /\ (forall f, In f r.1 ->
        In f acc.1
        \/ exists e, In e pendingFiles /\ fiPath f = relativePath e).
Proof.
  induction starts as [|i starts IH]; intros acc w.
  - exists acc, w. split; [reflexivity|]. auto.
  - simpl. unfold bind at 1. unfold bind at 1.
    destruct (processBatch_result progressCallback maxFileSize
                incrementalProcessing workspaceId (length pendingFiles) i
                (slice i (i + batchSize) pendingFiles) 0 acc.2 w)
      as (results & c & w1 & -> & Hres).
    unfold ret at 1.
    destruct (IH (acc.1 ++ filterBoolean results, c) w1)
      as (r & w2 & Hrun & Hr).
    simpl in Hrun |- *. rewrite Hrun.
    exists r, w2. split; [reflexivity|].
    intros f Hf. destruct (Hr f Hf) as [Hacc|Hnew]; [|right; exact Hnew].
    simpl in Hacc. apply in_app_or in Hacc as [Hacc|Hacc]; [left; exact Hacc|].
    right. apply In_filterBoolean in Hacc.
    destruct (Hres f Hacc) as (e & He & Hp).
    exists e. split; [|exact Hp]. apply (In_slice e _ _ _ He).
Qed.

Lemma loadGitignore_run (directory : string) (w : World) :
  exists spec log',
    loadGitignore ignore_add directory w
    = (Ok spec, withLog w (ioLog w ++ log')).
Proof.
  unfold loadGitignore.
  destruct (fs w !! path_join directory ".gitignore").
  - unfold try_catch, bind. rewrite fs_readFile_run.
    destruct (readResult w (path_join directory ".gitignore"));
      eexists _, [_]; reflexivity.
  - exists None, []. unfold ret, withLog. rewrite app_nil_r.
    destruct w; reflexivity.
Qed.

(** The phases of a crawl that resolves. *)
Lemma crawl_phases (depth : nat) (directory : string)
    (includePatterns excludePatterns : option (list string))
    (maxFileSize : option Z) (useRelativePaths : bool)
    (progressCallback : option (nat -> nat -> string -> option jsError))
    (incrementalProcessing : bool) (workspaceId : option string)
    (w : World) (result : CrawlResult) (w' : World) :
  crawlLocalFilesAsync JSON_parse md5 minimatch ignore_add depth directory
    includePatterns excludePatterns maxFileSize useRelativePaths
    progressCallback incrementalProcessing workspaceId w = (Ok result, w') ->
  exists gitignoreSpec log1 pendingFiles w2,
    (exists items, fs w !! directory = Some (DirNode items))
    /\ loadGitignore ignore_add directory w
       = (Ok gitignoreSpec, withLog w (ioLog w ++ log1))
    /\ collectFilePaths minimatch gitignoreSpec includePatterns
         excludePatterns depth directory directory useRelativePaths []
         (withLog w (ioLog w ++ log1)) = (Ok pendingFiles, w2)
    /\ (forall f, In f (files result) ->
        exists e, In e pendingFiles /\ fiPath f = relativePath e)
    /\ (incrementalProcessing = false -> unchanged result = None).
Proof.
  unfold crawlLocalFilesAsync. intros Hrun.
  destruct (fs w !! directory) as [[| items |]|] eqn:Hdir; try discriminate.
  destruct (loadGitignore_run directory w) as (spec & log1 & Hload).
  unfold bind at 1 in Hrun. rewrite Hload in Hrun.
  bind_step Hrun.
  match type of Hrun with
  | context [forEachM ?starts ?acc ?body] =>
      destruct (batches_result progressCallback maxFileSize
                  incrementalProcessing
                  (if incrementalProcessing && negb (truthy workspaceId)
                   then Some (path_basename directory) else workspaceId)
                  a starts acc w0) as (r & w3 & Hb & Hr)
  end.
  unfold bind at 1 in Hrun.
  match type of Hrun with
  | context [forEachM ?starts ?acc ?body ?w1] =>
      assert (Hb' : forEachM starts acc body w1 = (Ok r, w3)) by exact Hb
  end.
  rewrite Hb' in Hrun.
  injection Hrun as <- <-.
  exists spec, log1, a, w0. split; [eauto|]. split; [exact Hload|].
  split; [assumption|]. split.
  - intros f Hf. destruct (Hr f Hf) as [[]|H]. exact H.
  - intros ->. reflexivity.
Qed.

(** *** Exclusion precedence *)

(** C6.  An ignore-rule match settles the exclusion before any exclusion
    glob is consulted: the verdict is [true] whatever the glob matcher and
    the exclusion patterns are, and the globs decide only for paths that no
    ignore rule matches.  No path matched by an ignore rule becomes a
    candidate, whatever the inclusion patterns say about it. *)
Theorem ignore_rules_exclude_first
    (ignores : string -> bool)
    (includePatterns excludePatterns : option (list string))
    (depth : nat) (rootDir : string) (useRelativePaths : bool)
    (w : World) (pendingFiles : list PendingFile) (w' : World) :
  collectFilePaths minimatch (Some ignores) includePatterns excludePatterns
    depth rootDir rootDir useRelativePaths [] w = (Ok pendingFiles, w') ->
  (forall relPath, ignores relPath = true ->
     (forall (matcher : string -> string -> bool) patterns,
        isExcluded matcher (Some ignores) patterns relPath = true)
     /\ (forall e, In e pendingFiles -> relativePath e <> relPath))
  /\ (forall relPath, ignores relPath = false ->
      isExcluded minimatch (Some ignores) excludePatterns relPath
      = match excludePatterns with
        | Some patterns => existsb (minimatch relPath) patterns
        | None => false
        end)
  /\ (forall e, In e pendingFiles ->
      ignores (relativePath e) = false
      /\ relativePath e = relPathOf rootDir useRelativePaths (pfPath e)).
Proof.
  intros Hrun.
  assert (Hcand : forall e, In e pendingFiles ->
            ignores (relativePath e) = false
            /\ relativePath e = relPathOf rootDir useRelativePaths (pfPath e)).
  { intros e He.
    destruct (collectFilePaths_candidates (Some ignores) includePatterns
                excludePatterns rootDir useRelativePaths depth rootDir []
                w pendingFiles w' Hrun e He) as [[]|(Hrel & Hex & _)].
    split; [|exact Hrel].
    apply (isExcluded_false_not_ignored ignores _ excludePatterns Hex). }
  split; [|split; [|exact Hcand]].
  - intros relPath Hig. split.
    + intros matcher patterns. unfold isExcluded. rewrite Hig.
      destruct patterns; reflexivity.
    + intros e He Heq. destruct (Hcand e He) as [Hno _].
      rewrite Heq, Hig in Hno. discriminate.
  - intros relPath Hig. unfold isExcluded. rewrite Hig.
    destruct excludePatterns as [patterns|]; [|reflexivity].
    simpl. destruct (existsb (minimatch relPath) patterns); reflexivity.
Qed.

(** *** Directory pruning *)

(** C7.  In a crawl that resolves, with names as [readdir] gives them: the
    walk lists no directory that is excluded and stats nothing below one;
    no candidate lies below an excluded directory; and every file of the
    result is the record of a candidate. *)
Theorem excluded_directories_are_pruned
    (depth : nat) (directory : string)
    (includePatterns excludePatterns : option (list string))
    (maxFileSize : option Z) (useRelativePaths : bool)
    (progressCallback : option (nat -> nat -> string -> option jsError))
    (incrementalProcessing : bool) (workspaceId : option string)
    (w : World) (result : CrawlResult) (w' : World) :
  namesOk (fs w) ->
  crawlLocalFilesAsync JSON_parse md5 minimatch ignore_add depth directory
    includePatterns excludePatterns maxFileSize useRelativePaths
    progressCallback incrementalProcessing workspaceId w = (Ok result, w') ->
  exists gitignoreSpec w1 pendingFiles walkLog,
    loadGitignore ignore_add directory w = (Ok gitignoreSpec, w1)
    /\ collectFilePaths minimatch gitignoreSpec includePatterns
         excludePatterns depth directory directory useRelativePaths [] w1
       = (Ok pendingFiles, withLog w1 (ioLog w1 ++ walkLog))
    /\ let excluded := fun p =>
         isExcluded minimatch gitignoreSpec excludePatterns
                    (relPathOf directory useRelativePaths p) in
       (forall d, In (EvReaddir d) walkLog ->
          d = directory \/ excluded d = false)
       /\ (forall p d, In (EvStat p) walkLog ->
           inside directory d -> inside d p -> excluded d = false)
       /\ (forall e d, In e pendingFiles ->
           inside directory d -> inside d (pfPath e) -> excluded d = false)
       /\ (forall f, In f (files result) ->
           exists e, In e pendingFiles /\ fiPath f = relativePath e).
Proof.
  intros Hok Hrun.
  destruct (crawl_phases _ _ _ _ _ _ _ _ _ _ _ _ Hrun)
    as (spec & log1 & pending & w2 & _ & Hload & Hwalk & Hfiles & _).
  set (w1 := withLog w (ioLog w ++ log1)) in *.
  destruct (collectFilePaths_inv spec includePatterns excludePatterns
              directory useRelativePaths depth directory [] w1 pending w2
              Hok Hwalk) as (new & walkLog & Hnew & -> & Hcand & Hev).
  simpl in Hnew. subst new.
  exists spec, w1, pending, walkLog.
  split; [exact Hload|]. split; [exact Hwalk|]. cbv zeta.
  rewrite Forall_forall in Hcand. rewrite Forall_forall in Hev.
  assert (Hwalked : forall d d', 
            walked minimatch spec excludePatterns directory useRelativePaths
                   directory d' ->
            inside directory d -> (d = d' \/ inside d d') ->
            isExcluded minimatch spec excludePatterns
                       (relPathOf directory useRelativePaths d) = false).
  { intros d d' [->|Hd'] Hin [->|Hdd'].
    - exfalso. apply (inside_irrefl _ Hin).
    - exfalso. destruct Hin as [x ->]. destruct Hdd' as [y Hy].
      rewrite path_join_assoc in Hy. apply (inside_irrefl directory).
      eexists. exact Hy.
    - apply (descends_not_excluded _ _ _ _ _ _ Hd').
    - apply (descends_not_excluded spec excludePatterns directory
               useRelativePaths directory d).
      apply (descends_between _ _ _ _ _ _ Hd' d Hin Hdd'). }
  split; [|split; [|split]].
  - intros d Hd. apply list_elem_of_In in Hd.
    destruct (Hev _ Hd) as [->|Hdesc]; [left; reflexivity|right].
    apply (descends_not_excluded _ _ _ _ _ _ Hdesc).
  - intros p d Hp Hin Hdp. apply list_elem_of_In in Hp.
    destruct (Hev _ Hp) as (d0 & item & Hd0 & Hfree & ->).
    destruct Hdp as [rest Hrest].
    apply (Hwalked d d0 Hd0 Hin).
    apply (path_join_split_last item Hfree d0 d rest Hrest).
  - intros e d He Hin Hde. apply list_elem_of_In in He.
    destruct (Hcand _ He) as (_ & _ & _ & Hdesc).
    apply (descends_not_excluded spec excludePatterns directory
             useRelativePaths directory d).
    apply (descends_between _ _ _ _ _ _ Hdesc d Hin Hde).
  - exact Hfiles.
Qed.

(** *** The empty result *)

Lemma crawl_throws (depth : nat) (directory : string)
    (includePatterns excludePatterns : option (list string))
    (maxFileSize : option Z) (useRelativePaths : bool)
    (progressCallback : option (nat -> nat -> string -> option jsError))
    (incrementalProcessing : bool) (workspaceId : option string)
    (w : World) (e : jsError) (w' : World) :
  crawlLocalFilesAsync JSON_parse md5 minimatch ignore_add depth directory
    includePatterns excludePatterns maxFileSize useRelativePaths
    progressCallback incrementalProcessing workspaceId w = (Throw e, w') ->
  e = DirectoryDoesNotExist directory \/ exists p, e = IOError p.
Proof.
  unfold crawlLocalFilesAsync. intros Hrun.
  destruct (fs w !! directory) as [[| items |]|] eqn:Hdir;
    try (injection Hrun as <- _; left; reflexivity).
  right.
  destruct (loadGitignore_run directory w) as (spec & log1 & Hload).
  unfold bind at 1 in Hrun. rewrite Hload in Hrun.
  unfold bind at 1 in Hrun.
  match type of Hrun with
  | (let (_, _) := ?m in _) = _ => destruct m as [[a|e0] w0] eqn:Hwalk
  end.
  - match type of Hrun with
    | context [forEachM ?starts ?acc ?body] =>
        destruct (batches_result progressCallback maxFileSize
                    incrementalProcessing
                    (if incrementalProcessing && negb (truthy workspaceId)
                     then Some (path_basename directory) else workspaceId)
                    a starts acc w0) as (r & w3 & Hb & _)
    end.
    unfold bind at 1 in Hrun.
    match type of Hrun with
    | context [forEachM ?starts ?acc ?body ?w1] =>
        assert (Hb' : forEachM starts acc body w1 = (Ok r, w3)) by exact Hb
    end.
    rewrite Hb' in Hrun. discriminate.
  - injection Hrun as <- _.
    apply (collectFilePaths_throws _ _ _ _ _ _ _ _ _ _ _ Hwalk).
Qed.

(** C4 (as amended).  The error of the empty result is raised by
    [FetchRepoNode.exec], not by [crawlLocalFilesAsync].  For the crawl
    that [exec] starts: when it resolves, the root is a directory, and
    [exec] rejects with "No files found in directory" when the list of
    files is empty and resolves with the list otherwise; when it rejects,
    the error is not that one, and [exec] rejects with the same error. *)
Theorem exec_rejects_empty_result (depth : nat) (cancelledAt : nat -> bool)
    (preRes : SharedStore) (w : World) :
  match crawlLocalFilesAsync JSON_parse md5 minimatch ignore_add depth
          (localDir preRes) (sharedInclude preRes) (sharedExclude preRes)
          (option_map (Z.mul 1024) (sharedMaxFileSize preRes)) true
          (Some (execCallback cancelledAt)) false None w with
  | (Ok result, w') =>
      (exists items, fs w !! localDir preRes = Some (DirNode items))
      /\ unchanged result = None
      /\ FetchRepoNode_exec JSON_parse md5 minimatch ignore_add depth false
           cancelledAt preRes w
         = match files result with
           | [] => (Throw (NoFilesFound (localDir preRes)), w')
           | _ :: _ => (Ok (files result), w')
           end
  | (Throw e, w') =>
      e <> NoFilesFound (localDir preRes)
      /\ FetchRepoNode_exec JSON_parse md5 minimatch ignore_add depth false
           cancelledAt preRes w = (Throw e, w')
  end.
Proof.
  unfold FetchRepoNode_exec, bind.
  destruct (crawlLocalFilesAsync _ _ _ _ _ _ _ _ _ _ _ _ _ w)
    as [[result|e] w'] eqn:Hrun.
  - destruct (crawl_phases _ _ _ _ _ _ _ _ _ _ _ _ Hrun)
      as (spec & log1 & pending & w2 & Hdir & _ & _ & _ & Hunch).
    split; [exact Hdir|]. split; [apply Hunch; reflexivity|].
    destruct (files result); reflexivity.
  - split; [|reflexivity].
    destruct (crawl_throws _ _ _ _ _ _ _ _ _ _ _ _ Hrun) as [->|[p ->]];
      discriminate.
Qed.

End WithRuntime.

(** *** Closed examples *)

Section Examples.

Import Scenarios.

Abbreviation crawl :=
  (crawlLocalFilesAsync noJson MD5.md5_hex literalMatch literalIgnore).



(** C4, counterexample to the claim as stated: the directory exists, no
    file is eligible, and the crawl resolves with the empty result. *)
Lemma crawl_resolves_with_empty_result :
  fs emptyDirWorld !! "/empty" = Some (DirNode [])
  /\ (crawl 64 "/empty" None None (Some 1024%Z) true None false None
            emptyDirWorld).1
     = Ok (mkResult [] None).
Proof. vm_compute. repeat split. Qed.

Example exec_on_empty_directory :
  (FetchRepoNode_exec noJson MD5.md5_hex literalMatch literalIgnore 64 false
     (fun _ => false) (mkShared "/empty" None None (Some 100%Z))
     emptyDirWorld).1
  = Throw (NoFilesFound "/empty").
Proof. vm_compute. reflexivity. Qed.

(** The second scenario of the spec: an incremental crawl that finds its
    only file unchanged resolves with no file and a count of one. *)
Example crawl_all_unchanged :
  (crawl 64 "/proj" (Some ["a.txt"]) None (Some 1024%Z) true None true
         (Some "w1") twoFilesWorld).1
  = Ok (mkResult [] (Some 1)).
Proof. vm_compute. reflexivity. Qed.

(** Two crawls of the project of the spec in incremental mode: the first
    records the digests of its two candidates, [.gitignore] and [a.txt];
    the second, on the world the first left, finds both unchanged. *)
Example second_crawl_finds_nothing_changed :
  let first := crawl 64 "/proj" None None (Some 1024%Z) true None true
                     (Some "w1") projectWorld in
  let second := crawl 64 "/proj" None None (Some 1024%Z) true None true
                      (Some "w1") first.2 in
  first.1 = Ok (mkResult [mkFileInfo ".gitignore" "b.txt";
                          mkFileInfo "a.txt" "hello"] (Some 0))
  /\ second.1 = Ok (mkResult [] (Some 2)).
Proof. vm_compute. split; reflexivity. Qed.

(** Witness of C6: [b.txt] is ignored and matches an inclusion pattern. *)
Lemma ignore_rules_exclude_first_witness :
  collectFilePaths literalMatch (Some (literalIgnore ["b.txt"]))
    (Some ["a.txt"; "b.txt"]) None 64 "/proj" "/proj" true [] projectWorld
  = (Ok [mkPending "/proj/a.txt" "a.txt"],
     withLog projectWorld
       [EvReaddir "/proj"; EvStat "/proj/.gitignore"; EvStat "/proj/a.txt";
        EvStat "/proj/b.txt"])
  /\ isIncluded literalMatch (Some ["a.txt"; "b.txt"]) "b.txt" = true
  /\ forall e, In e [mkPending "/proj/a.txt" "a.txt"] ->
               relativePath e <> "b.txt".
Proof.
  assert (Hrun :
    collectFilePaths literalMatch (Some (literalIgnore ["b.txt"]))
      (Some ["a.txt"; "b.txt"]) None 64 "/proj" "/proj" true [] projectWorld
    = (Ok [mkPending "/proj/a.txt" "a.txt"],
       withLog projectWorld
         [EvReaddir "/proj"; EvStat "/proj/.gitignore"; EvStat "/proj/a.txt";
          EvStat "/proj/b.txt"])) by (vm_compute; reflexivity).
  split; [exact Hrun|]. split; [reflexivity|].
  destruct (ignore_rules_exclude_first literalMatch (literalIgnore ["b.txt"])
              (Some ["a.txt"; "b.txt"]) None 64 "/proj" true projectWorld _ _
              Hrun) as (Hig & _).
  apply (Hig "b.txt"). reflexivity.
Defined.

Lemma prunedTree_namesOk : namesOk prunedTree.
Proof.
  unfold namesOk. apply (bool_decide_unpack _). vm_compute. exact I.
Qed.

(** Witness of C7: [node_modules] is excluded and holds a file that matches
    an inclusion pattern. *)
Lemma excluded_directories_are_pruned_witness :
  namesOk (fs prunedWorld)
  /\ (crawl 64 "/proj" (Some ["src/index.ts"; "node_modules/index.ts"])
            (Some ["node_modules"]) None true None false None prunedWorld).1
     = Ok (mkResult [mkFileInfo "src/index.ts" "main"] None)
  /\ exists pendingFiles,
       forall e, In e pendingFiles ->
                 ~ inside "/proj/node_modules" (pfPath e).
Proof.
  split; [exact prunedTree_namesOk|].
  assert (Hrun :
    crawl 64 "/proj" (Some ["src/index.ts"; "node_modules/index.ts"])
          (Some ["node_modules"]) None true None false None prunedWorld
    = (Ok (mkResult [mkFileInfo "src/index.ts" "main"] None),
       withLog prunedWorld
         [EvReaddir "/proj"; EvStat "/proj/node_modules"; EvStat "/proj/src";
          EvReaddir "/proj/src"; EvStat "/proj/src/index.ts";
          EvStat "/proj/src/index.ts"; EvReadFile "/proj/src/index.ts"]))
    by (vm_compute; reflexivity).
  split; [rewrite Hrun; reflexivity|].
  destruct (excluded_directories_are_pruned noJson MD5.md5_hex literalMatch
              literalIgnore 64 "/proj"
              (Some ["src/index.ts"; "node_modules/index.ts"])
              (Some ["node_modules"]) None true None false None prunedWorld
              _ _ prunedTree_namesOk Hrun)
    as (spec & w1 & pendingFiles & walkLog & Hload & _ & _ & _ & Hcand & _).
  exists pendingFiles. intros e He Hin.
  assert (Hspec : spec = None).
  { assert (Hl : loadGitignore literalIgnore "/proj" prunedWorld
                 = (Ok None, prunedWorld)) by reflexivity.
    rewrite Hl in Hload. injection Hload as <- _. reflexivity. }
  subst spec.
  specialize (Hcand e "/proj/node_modules" He
                (ex_intro _ "node_modules" eq_refl) Hin).
  discriminate Hcand.
Defined.

End Examples.

End CrawlerSpec.

(** ** The progress manager *)

Module ProgressSpec.
Import Progress.

Local Open Scope Q_scope.

Lemma max0_nonneg (x : Q) : 0 <= max0 x.
Proof. unfold max0. destruct (Qlt_le_dec 0 x); lra. Qed.

Lemma max0_of_nonneg (x : Q) : 0 <= x -> max0 x == x.
Proof. unfold max0. intros H. destruct (Qlt_le_dec 0 x); lra. Qed.

Lemma clampPercentage_range (p : Q) : 0 <= clampPercentage p <= 100.
Proof.
  unfold clampPercentage.
  destruct (Qlt_le_dec p 0); destruct (Qlt_le_dec 100 _); lra.
Qed.

(** *** What one call reports *)

Lemma reportProgress_reported (x : Q) (pm : ProgressManager) :
  reported (reportProgress x pm)
  = reported pm ++ (if progress pm then [max0 x] else []).
Proof.
  unfold reportProgress. destruct (progress pm); simpl;
    [reflexivity|symmetry; apply app_nil_r].
Qed.

Lemma step_reported (pm : ProgressManager) (c : call) :
  reported (step pm c)
  = reported pm ++ (if progress pm then [max0 (handed pm c)] else []).
Proof.
  destruct pm as [sink rep tok cur sp tot last].
  destruct c, sink; try reflexivity; simpl; symmetry; apply app_nil_r.
Qed.

Lemma run_reported (calls : list call) :
  forall pm, exists new,
    reported (run calls pm) = reported pm ++ new
    /\ Forall (fun inc => 0 <= inc) new.
Proof.
  induction calls as [|c calls IH]; intros pm.
  - exists []. split; [symmetry; apply app_nil_r|constructor].
  - destruct (IH (step pm c)) as (new & Hnew & Hpos).
    exists ((if progress pm then [max0 (handed pm c)] else []) ++ new).
    split.
    + change (run (c :: calls) pm) with (run calls (step pm c)).
      rewrite Hnew, step_reported, <- app_assoc. reflexivity.
    + apply Forall_app. split; [|exact Hpos].
      destruct (progress pm); constructor; [apply max0_nonneg|constructor].
Qed.

(** C10.  Whatever the calls and their order, and whatever the state they
    start from, every increment the run hands to the sink is non-negative. *)
Theorem emitted_increments_nonnegative (calls : list call)
    (pm : ProgressManager) :
  Forall (fun increment => 0 <= increment) (emitted calls pm).
Proof.
  unfold emitted. destruct (run_reported calls pm) as (new & -> & Hpos).
  rewrite drop_app_length. exact Hpos.
Qed.

(** *** The aggregate *)

Lemma calculateTotalProgress_total (pm : ProgressManager) :
  totalProgress (calculateTotalProgress pm)
  == weightedAggregate (stageProgress pm).
Proof.
  unfold calculateTotalProgress, weightedAggregate. simpl. field.
Qed.

Lemma mapSet_range (sp : ProcessStage -> Q) (stage : ProcessStage)
    (value : Q) :
  (forall s, 0 <= sp s <= 100) -> 0 <= value <= 100 ->
  forall s, 0 <= mapSet sp stage value s <= 100.
Proof.
  intros Hsp Hv s. unfold mapSet. destruct (decide (s = stage)); auto.
Qed.

Lemma mapSet_same (sp : ProcessStage -> Q) (stage : ProcessStage)
    (value : Q) : mapSet sp stage value stage = value.
Proof. unfold mapSet. destruct (decide (stage = stage)); congruence. Qed.

(** *** One call *)

Lemma step_total (pm : ProgressManager) (c : call) :
  totalProgress (step pm c)
  = match c with
    | StartStage _ => totalProgress pm
    | UpdateStageProgress percentage =>
        totalProgress (calculateTotalProgress
          (setStageProgress (currentStage pm) (clampPercentage percentage)
                            pm))
    | CompleteStage =>
        totalProgress (calculateTotalProgress
          (setStageProgress (currentStage pm) 100 pm))
    end.
Proof.
  destruct pm as [sink rep tok cur sp tot last].
  destruct c, sink; reflexivity.
Qed.

Lemma step_stageProgress (pm : ProgressManager) (c : call) :
  stageProgress (step pm c)
  = match c with
    | StartStage stage => mapSet (stageProgress pm) stage 0
    | UpdateStageProgress percentage =>
        mapSet (stageProgress pm) (currentStage pm)
               (clampPercentage percentage)
    | CompleteStage => mapSet (stageProgress pm) (currentStage pm) 100
    end.
Proof.
  destruct pm as [sink rep tok cur sp tot last].
  destruct c, sink; reflexivity.
Qed.

Lemma step_lastReported (pm : ProgressManager) (c : call) :
  lastReportedProgress (step pm c)
  = match c with
    | StartStage _ => lastReportedProgress pm
    | _ => totalProgress (step pm c)
    end.
Proof.
  destruct pm as [sink rep tok cur sp tot last].
  destruct c, sink; reflexivity.
Qed.

(** *** The stages *)

Lemma allStages_NoDup : NoDup allStages.
Proof.
  apply (bool_decide_unpack _). vm_compute. exact I.
Qed.

Lemma allStages_complete (stage : ProcessStage) : stage ∈ allStages.
Proof. apply list_elem_of_In. destruct stage; simpl; tauto. Qed.

Lemma reset_stageProgress (pm : ProgressManager) (stage : ProcessStage) :
  stageProgress (reset pm) stage = 0.
Proof. destruct stage; reflexivity. Qed.

End ProgressSpec.

(** ** The rounding to the nearest double *)

Module Round64Spec.
Import ProgressFloat.

Local Open Scope Q_scope.

Lemma two_nonzero : ~ 2 == 0.
Proof. intros H. discriminate H. Qed.

Lemma pow2_pos (e : Z) : 0 < pow2 e.
Proof. apply Qpower_0_lt. reflexivity. Qed.

Lemma pow2_plus (a b : Z) : pow2 (a + b) == pow2 a * pow2 b.
Proof. apply Qpower_plus, two_nonzero. Qed.

Lemma pow2_le (a b : Z) : (a <= b)%Z -> pow2 a <= pow2 b.
Proof. intros H. apply Qpower_le_compat_l; [exact H|]. discriminate. Qed.

Lemma pow2_lt_inv (a b : Z) : pow2 a < pow2 b -> (a < b)%Z.
Proof. intros H. apply (Qpower_lt_compat_l_inv 2); [exact H|reflexivity]. Qed.

Lemma pow2_inject (a : Z) : (0 <= a)%Z -> pow2 a == inject_Z (2 ^ a).
Proof. intros H. symmetry. apply (Zpower_Qpower 2), H. Qed.

(** A positive number lies in the binade [binade] computes. *)
Lemma binade_spec (x : Q) :
  0 < x -> pow2 (binade x) <= x /\ x < pow2 (binade x + 1).
Proof.
  intros Hx. destruct x as [n d].
  assert (Hn : (0 < n)%Z).
  { unfold Qlt in Hx. cbn in Hx. lia. }
  pose proof (Z.log2_spec n Hn) as [Hn1 Hn2].
  pose proof (Z.log2_spec (Zpos d) eq_refl) as [Hd1 Hd2].
  pose proof (Z.log2_nonneg n) as Hln.
  pose proof (Z.log2_nonneg (Zpos d)) as Hld.
  set (ln := Z.log2 n) in *. set (ld := Z.log2 (Zpos d)) in *.
  assert (Hx' : (n # d) * inject_Z (Zpos d) == inject_Z n).
  { unfold Qeq, Qmult, inject_Z. cbn. lia. }
  assert (HD : 0 < inject_Z (Zpos d)) by reflexivity.
  assert (Hlow : pow2 (ln - ld - 1) <= n # d).
  { replace (ln - ld - 1)%Z with (ln - (ld + 1))%Z by lia.
    unfold pow2. rewrite Qpower_minus by exact two_nonzero.
    apply Qle_shift_div_r; [apply pow2_pos|].
    fold (pow2 ln). fold (pow2 (ld + 1)).
    rewrite (pow2_inject ln), (pow2_inject (ld + 1)) by lia.
    assert (H1 : inject_Z (2 ^ ln) <= inject_Z n) by (rewrite <- Zle_Qle; lia).
    assert (H2 : inject_Z (Zpos d) <= inject_Z (2 ^ (ld + 1)))
      by (rewrite <- Zle_Qle; unfold Z.succ in Hd2; lia).
    apply (Qle_trans _ _ _ H1). rewrite <- Hx'.
    apply Qmult_le_l; [exact Hx|exact H2]. }
  assert (Hhigh : n # d < pow2 (ln - ld + 1)).
  { replace (ln - ld + 1)%Z with (ln + 1 - ld)%Z by lia.
    unfold pow2. rewrite Qpower_minus by exact two_nonzero.
    apply Qlt_shift_div_l; [apply pow2_pos|].
    fold (pow2 ld). fold (pow2 (ln + 1)).
    rewrite (pow2_inject ld), (pow2_inject (ln + 1)) by lia.
    assert (H1 : inject_Z n < inject_Z (2 ^ (ln + 1)))
      by (rewrite <- Zlt_Qlt; unfold Z.succ in Hn2; lia).
    assert (H2 : inject_Z (2 ^ ld) <= inject_Z (Zpos d))
      by (rewrite <- Zle_Qle; lia).
    apply (Qle_lt_trans _ ((n # d) * inject_Z (Zpos d))); [|rewrite Hx'; exact H1].
    apply Qmult_le_l; [exact Hx|exact H2]. }
  unfold binade. cbn [Qnum Qden]. fold ln ld.
  destruct (Qle_bool (pow2 (ln - ld)) (n # d)) eqn:Hb.
  - apply Qle_bool_iff in Hb. split; [exact Hb|exact Hhigh].
  - split; [exact Hlow|].
    replace (ln - ld - 1 + 1)%Z with (ln - ld)%Z by lia.
    apply Qnot_le_lt. intros H. apply Qle_bool_iff in H. congruence.
Qed.

Lemma binade_monotone (x y : Q) : 0 < x -> x <= y -> (binade x <= binade y)%Z.
Proof.
  intros Hx Hxy.
  assert (Hy : 0 < y) by lra.
  destruct (binade_spec x Hx) as [Hx1 _].
  destruct (binade_spec y Hy) as [_ Hy2].
  assert (H : pow2 (binade x) < pow2 (binade y + 1)) by lra.
  apply pow2_lt_inv in H. lia.
Qed.

(** Rounding to the nearest integer. *)
Lemma roundHalfEven_bounds (y : Q) :
  (Qfloor y <= roundHalfEven y <= Qfloor y + 1)%Z.
Proof.
  unfold roundHalfEven.
  destruct (Qcompare _ _); [destruct (Z.even _)| |]; lia.
Qed.

Lemma roundHalfEven_monotone (x y : Q) :
  x <= y -> (roundHalfEven x <= roundHalfEven y)%Z.
Proof.
  intros Hxy.
  pose proof (Qfloor_resp_le x y Hxy) as Hf.
  pose proof (roundHalfEven_bounds x) as Hbx.
  pose proof (roundHalfEven_bounds y) as Hby.
  destruct (Z.eq_dec (Qfloor x) (Qfloor y)) as [Heq|Hne]; [|lia].
  unfold roundHalfEven. rewrite <- Heq.
  destruct (Qcompare_spec (x - inject_Z (Qfloor x)) (1 # 2)) as [Hx|Hx|Hx];
    destruct (Qcompare_spec (y - inject_Z (Qfloor x)) (1 # 2)) as [Hy|Hy|Hy];
    try destruct (Z.even (Qfloor x)); try lia; lra.
Qed.

Lemma roundHalfEven_integer (z : Z) : roundHalfEven (inject_Z z) = z.
Proof.
  unfold roundHalfEven. rewrite Qfloor_Z.
  destruct (Qcompare_spec (inject_Z z - inject_Z z) (1 # 2)) as [H|H|H];
    [lra|reflexivity|lra].
Qed.

(** Rounding a positive number. *)
Lemma roundPos_bounds (x : Q) :
  0 < x -> pow2 (binade x) <= roundPos x <= pow2 (binade x + 1).
Proof.
  intros Hx. destruct (binade_spec x Hx) as [Hlo Hhi].
  unfold roundPos. set (e := (binade x - 52)%Z).
  pose proof (pow2_pos e) as He.
  assert (Hb : pow2 (binade x) == inject_Z (2 ^ 52) * pow2 e).
  { rewrite <- (pow2_inject 52) by lia. rewrite <- pow2_plus.
    unfold e. replace (52 + (binade x - 52))%Z with (binade x) by lia.
    reflexivity. }
  assert (Hb1 : pow2 (binade x + 1) == inject_Z (2 ^ 53) * pow2 e).
  { rewrite <- (pow2_inject 53) by lia. rewrite <- pow2_plus.
    unfold e. replace (53 + (binade x - 52))%Z with (binade x + 1)%Z by lia.
    reflexivity. }
  assert (Hlo' : inject_Z (2 ^ 52) <= x / pow2 e).
  { apply Qle_shift_div_l; [exact He|]. rewrite <- Hb. exact Hlo. }
  assert (Hhi' : x / pow2 e <= inject_Z (2 ^ 53)).
  { apply Qle_shift_div_r; [exact He|]. rewrite <- Hb1. lra. }
  apply roundHalfEven_monotone in Hlo', Hhi'.
  rewrite roundHalfEven_integer in Hlo', Hhi'.
  rewrite Hb, Hb1. split; apply Qmult_le_compat_r; try lra;
    rewrite <- Zle_Qle; assumption.
Qed.

Lemma roundPos_monotone (x y : Q) :
  0 < x -> x <= y -> roundPos x <= roundPos y.
Proof.
  intros Hx Hxy. assert (Hy : 0 < y) by lra.
  pose proof (binade_monotone x y Hx Hxy) as Hb.
  destruct (Z.eq_dec (binade x) (binade y)) as [Heq|Hne].
  - unfold roundPos. rewrite <- Heq. set (e := (binade x - 52)%Z).
    pose proof (pow2_pos e) as He.
    apply Qmult_le_compat_r; [|lra].
    rewrite <- Zle_Qle. apply roundHalfEven_monotone.
    unfold Qdiv. apply Qmult_le_compat_r; [exact Hxy|].
    apply Qinv_le_0_compat. lra.
  - destruct (roundPos_bounds x Hx) as [_ H1].
    destruct (roundPos_bounds y Hy) as [H2 _].
    assert (H3 : pow2 (binade x + 1) <= pow2 (binade y))
      by (apply pow2_le; lia).
    lra.
Qed.

Lemma roundPos_pos (x : Q) : 0 < x -> 0 < roundPos x.
Proof.
  intros Hx. destruct (roundPos_bounds x Hx) as [H _].
  pose proof (pow2_pos (binade x)). lra.
Qed.

(** The sign of a number is the sign of its reduced numerator. *)
Lemma Qred_sign (x : Q) :
  match Qnum (Qred x) with
  | Z0 => x == 0
  | Zpos _ => 0 < x
  | Zneg _ => x < 0
  end.
Proof.
  pose proof (Qred_correct x) as H.
  destruct (Qred x) as [n d]. cbn [Qnum].
  destruct n as [|p|p]; rewrite <- H.
  - reflexivity.
  - reflexivity.
  - reflexivity.
Qed.

Lemma round64_cases (x : Q) :
  (x == 0 /\ round64 x == 0)
  \/ (0 < x /\ round64 x == roundPos (Qred x))
  \/ (x < 0 /\ round64 x == - roundPos (- Qred x)).
Proof.
  pose proof (Qred_sign x) as H. unfold round64. cbv zeta.
  destruct (Qnum (Qred x)).
  - left. split; [exact H|reflexivity].
  - right. left. split; [exact H|apply Qred_correct].
  - right. right. split; [exact H|apply Qred_correct].
Qed.

Lemma round64_proper (x y : Q) : x == y -> round64 x == round64 y.
Proof.
  intros H. unfold round64. rewrite (Qred_complete x y H). reflexivity.
Qed.

Lemma round64_monotone (x y : Q) : x <= y -> round64 x <= round64 y.
Proof.
  intros Hxy.
  pose proof (Qred_correct x) as Hrx. pose proof (Qred_correct y) as Hry.
  destruct (round64_cases x) as [[Hx ->]|[[Hx ->]|[Hx ->]]];
    destruct (round64_cases y) as [[Hy ->]|[[Hy ->]|[Hy ->]]];
    try lra.
  - assert (H := roundPos_pos (Qred y)). lra.
  - apply roundPos_monotone; lra.
  - assert (H := roundPos_pos (- Qred x)). lra.
  - assert (H := roundPos_pos (- Qred x)).
    assert (H' := roundPos_pos (Qred y)). lra.
  - apply Qopp_le_compat. apply roundPos_monotone; lra.
Qed.

Lemma round64_integer (n : Z) :
  (0 <= n <= 100)%Z -> round64 (inject_Z n) == inject_Z n.
Proof.
  intros Hn.
  assert (Hall : forallb (fun k => Qeq_bool (round64 (inject_Z (Z.of_nat k)))
                                            (inject_Z (Z.of_nat k)))
                         (seq 0 101) = true) by (vm_compute; reflexivity).
  rewrite forallb_forall in Hall.
  specialize (Hall (Z.to_nat n)).
  rewrite Z2Nat.id in Hall by lia.
  apply Qeq_bool_iff, Hall, in_seq. lia.
Qed.

(** The rounding to the nearest double is a rounding. *)
Lemma round64_Rounding : Rounding round64.
Proof.
  constructor;
    [exact round64_proper|exact round64_monotone|exact round64_integer].
Qed.

End Round64Spec.

(** ** The progress manager in floating point *)

Module ProgressFloatSpec.
Import Progress ProgressFloat.

Local Open Scope Q_scope.

Section WithRounding.

Variable rnd : Q -> Q.
Hypothesis Hrnd : Rounding rnd.

#[local] Instance rnd_Proper : Proper (Qeq ==> Qeq) rnd.
Proof. intros x y H. apply (rnd_proper rnd Hrnd), H. Qed.

Lemma rnd_zero : rnd 0 == 0.
Proof. apply (rnd_integer rnd Hrnd 0). lia. Qed.

Lemma rnd_nonneg (x : Q) : 0 <= x -> 0 <= rnd x.
Proof.
  intros H. rewrite <- rnd_zero. apply (rnd_monotone rnd Hrnd), H.
Qed.

Lemma rnd_integer_sum (a b : Z) (x y : Q) :
  (0 <= a)%Z -> (0 <= b)%Z -> (a + b <= 100)%Z ->
  x == inject_Z a -> y == inject_Z b -> rnd (x + y) == inject_Z (a + b).
Proof.
  intros Ha Hb Hab Hx Hy. rewrite Hx, Hy, <- inject_Z_plus.
  apply (rnd_integer rnd Hrnd). lia.
Qed.

(** *** The aggregate *)

Abbreviation sums sp :=
  (fold_left (fun (acc : Q * Q) (stage : ProcessStage) =>
                let weight := STAGE_WEIGHTS stage in
                (rnd (acc.1 + rnd (rnd (sp stage / 100) * weight)),
                 rnd (acc.2 + weight)))).

Lemma aggregateOf_sums (sp : ProcessStage -> Q) :
  aggregateOf rnd sp
  = rnd (rnd ((sums sp allStages (0, 0)).1 / (sums sp allStages (0, 0)).2)
         * 100).
Proof. reflexivity. Qed.

Lemma STAGE_WEIGHTS_nonneg (stage : ProcessStage) : 0 <= STAGE_WEIGHTS stage.
Proof. destruct stage; discriminate. Qed.

Lemma sums_monotone (sp sp' : ProcessStage -> Q) (l : list ProcessStage) :
  (forall s, sp s <= sp' s) ->
  forall acc acc' : Q * Q,
    acc.1 <= acc'.1 -> acc.2 = acc'.2 ->
    (sums sp l acc).1 <= (sums sp' l acc').1
    /\ (sums sp l acc).2 = (sums sp' l acc').2.
Proof.
  intros Hsp. induction l as [|stage l IH]; intros acc acc' H1 H2.
  - split; assumption.
  - cbn [fold_left]. apply IH; cbn [fst snd]; [|rewrite H2; reflexivity].
    apply (rnd_monotone rnd Hrnd), Qplus_le_compat; [exact H1|].
    apply (rnd_monotone rnd Hrnd), Qmult_le_compat_r;
      [|apply STAGE_WEIGHTS_nonneg].
    apply (rnd_monotone rnd Hrnd).
    unfold Qdiv. apply Qmult_le_compat_r; [apply Hsp|discriminate].
Qed.

(** The weights add up to 100 without rounding. *)
Lemma totalWeight (sp : ProcessStage -> Q) :
  (sums sp allStages (0, 0)).2 == 100.
Proof.
  cbn [fold_left allStages fst snd STAGE_WEIGHTS].
  apply (rnd_integer_sum 100 0); try lia; [|reflexivity].
  apply (rnd_integer_sum 90 10); try lia; [|reflexivity].
  apply (rnd_integer_sum 65 25); try lia; [|reflexivity].
  apply (rnd_integer_sum 55 10); try lia; [|reflexivity].
  apply (rnd_integer_sum 40 15); try lia; [|reflexivity].
  apply (rnd_integer_sum 20 20); try lia; [|reflexivity].
  apply (rnd_integer_sum 5 15); try lia; [|reflexivity].
  apply (rnd_integer_sum 0 5); try lia; reflexivity.
Qed.

(** The aggregate grows with the recorded percentages. *)
Lemma aggregateOf_monotone (sp sp' : ProcessStage -> Q) :
  (forall s, sp s <= sp' s) -> aggregateOf rnd sp <= aggregateOf rnd sp'.
Proof.
  intros Hsp. rewrite !aggregateOf_sums.
  destruct (sums_monotone sp sp' allStages Hsp (0, 0) (0, 0))
    as [H1 H2]; [apply Qle_refl|reflexivity|].
  rewrite <- H2. pose proof (totalWeight sp) as HW.
  apply (rnd_monotone rnd Hrnd), Qmult_le_compat_r; [|discriminate].
  apply (rnd_monotone rnd Hrnd).
  unfold Qdiv. apply Qmult_le_compat_r; [exact H1|].
  apply Qinv_le_0_compat. rewrite HW. discriminate.
Qed.

Lemma aggregateOf_pointwise (sp sp' : ProcessStage -> Q) :
  (forall s, sp s == sp' s) -> aggregateOf rnd sp == aggregateOf rnd sp'.
Proof.
  intros H. apply Qle_antisym; apply aggregateOf_monotone; intros s;
    rewrite (H s); apply Qle_refl.
Qed.

(** With every stage at 0 the aggregate is 0, with every stage at 100 it
    is 100: no operation rounds. *)
Lemma aggregateOf_uniform (sp : ProcessStage -> Q) (u : Z) :
  (0 <= u <= 1)%Z ->
  (forall s, sp s == inject_Z (100 * u)) ->
  aggregateOf rnd sp == inject_Z (100 * u).
Proof.
  intros Hu Hsp.
  assert (Hterm : forall s (w : Z),
            (0 <= w <= 100)%Z -> STAGE_WEIGHTS s == inject_Z w ->
            rnd (rnd (sp s / 100) * STAGE_WEIGHTS s) == inject_Z (u * w)).
  { intros s w Hw Hs. rewrite Hs, (Hsp s).
    assert (H1 : inject_Z (100 * u) / 100 == inject_Z u).
    { rewrite inject_Z_mult. field. }
    rewrite H1, (rnd_integer rnd Hrnd u) by lia.
    rewrite <- inject_Z_mult. apply (rnd_integer rnd Hrnd). nia. }
  assert (HT : (sums sp allStages (0, 0)).1 == inject_Z (100 * u)).
  { cbn [fold_left allStages fst snd].
    replace (100 * u)%Z with (u * 100 + u * 0)%Z by lia.
    apply rnd_integer_sum; try nia; [|apply Hterm; [lia|reflexivity]].
    replace (u * 100)%Z with (u * 90 + u * 10)%Z by lia.
    apply rnd_integer_sum; try nia; [|apply Hterm; [lia|reflexivity]].
    replace (u * 90)%Z with (u * 65 + u * 25)%Z by lia.
    apply rnd_integer_sum; try nia; [|apply Hterm; [lia|reflexivity]].
    replace (u * 65)%Z with (u * 55 + u * 10)%Z by lia.
    apply rnd_integer_sum; try nia; [|apply Hterm; [lia|reflexivity]].
    replace (u * 55)%Z with (u * 40 + u * 15)%Z by lia.
    apply rnd_integer_sum; try nia; [|apply Hterm; [lia|reflexivity]].
    replace (u * 40)%Z with (u * 20 + u * 20)%Z by lia.
    apply rnd_integer_sum; try nia; [|apply Hterm; [lia|reflexivity]].
    replace (u * 20)%Z with (u * 5 + u * 15)%Z by lia.
    apply rnd_integer_sum; try nia; [|apply Hterm; [lia|reflexivity]].
    replace (u * 5)%Z with (0 + u * 5)%Z by lia.
    apply rnd_integer_sum; try nia; [reflexivity|].
    apply Hterm; [lia|reflexivity]. }
  rewrite aggregateOf_sums, HT, (totalWeight sp).
  assert (H1 : inject_Z (100 * u) / 100 == inject_Z u).
  { rewrite inject_Z_mult. field. }
  rewrite H1, (rnd_integer rnd Hrnd u) by lia.
  change 100 with (inject_Z 100) at 1. rewrite <- inject_Z_mult.
  rewrite Z.mul_comm. apply (rnd_integer rnd Hrnd). lia.
Qed.

(** *** One call *)

Lemma float_step_progress (pm : ProgressManager) (c : call) :
  progress (step rnd pm c) = progress pm.
Proof.
  destruct pm as [sink rep tok cur sp tot last].
  destruct c, sink; reflexivity.
Qed.

Lemma float_step_stageProgress (pm : ProgressManager) (c : call) :
  stageProgress (step rnd pm c)
  = match c with
    | StartStage stage => mapSet (stageProgress pm) stage 0
    | UpdateStageProgress percentage =>
        mapSet (stageProgress pm) (currentStage pm)
               (clampPercentage percentage)
    | CompleteStage => mapSet (stageProgress pm) (currentStage pm) 100
    end.
Proof.
  destruct pm as [sink rep tok cur sp tot last].
  destruct c, sink; reflexivity.
Qed.

Lemma float_step_currentStage (pm : ProgressManager) (c : call) :
  currentStage (step rnd pm c)
  = match c with
    | StartStage stage => stage
    | _ => currentStage pm
    end.
Proof.
  destruct pm as [sink rep tok cur sp tot last].
  destruct c, sink; reflexivity.
Qed.

Lemma float_step_total (pm : ProgressManager) (c : call) :
  totalProgress (step rnd pm c)
  = match c with
    | StartStage _ => totalProgress pm
    | _ => aggregateOf rnd (stageProgress (step rnd pm c))
    end.
Proof.
  destruct pm as [sink rep tok cur sp tot last].
  destruct c, sink; reflexivity.
Qed.

Lemma float_step_lastReported (pm : ProgressManager) (c : call) :
  lastReportedProgress (step rnd pm c)
  = match c with
    | StartStage _ => lastReportedProgress pm
    | _ => totalProgress (step rnd pm c)
    end.
Proof.
  destruct pm as [sink rep tok cur sp tot last].
  destruct c, sink; reflexivity.
Qed.

(** What a call hands to [reportProgress]. *)
Lemma float_step_reported (pm : ProgressManager) (c : call) :
  reported (step rnd pm c)
  = reported pm
    ++ (if progress pm
        then [max0 (match c with
                    | StartStage _ => 0
                    | _ => rnd (totalProgress (step rnd pm c)
                                - lastReportedProgress pm)
                    end)]
        else []).
Proof.
  destruct pm as [sink rep tok cur sp tot last].
  destruct c, sink; try reflexivity; simpl; symmetry; apply app_nil_r.
Qed.

(** The state a run in order maintains: the aggregate is the one of the
    recorded percentages, and it has been reported. *)
Abbreviation settledManager pm :=
  (totalProgress pm == aggregateOf rnd (stageProgress pm)
   /\ lastReportedProgress pm = totalProgress pm).

Lemma mapSet_grows (sp : ProcessStage -> Q) (stage : ProcessStage)
    (value : Q) :
  sp stage <= value -> forall s, sp s <= mapSet sp stage value s.
Proof.
  intros H s. unfold mapSet.
  destruct (decide (s = stage)) as [->|_]; [exact H|apply Qle_refl].
Qed.

Lemma float_step_settled (pm : ProgressManager) (c : call) :
  settledManager pm -> callKeepsOrder pm c ->
  settledManager (step rnd pm c)
  /\ totalProgress pm <= totalProgress (step rnd pm c)
  /\ (forall increment,
        reported (step rnd pm c) = reported pm ++ [increment] ->
        increment == rnd (totalProgress (step rnd pm c)
                          - lastReportedProgress pm)).
Proof.
  intros [Htot Hlast] Hc.
  assert (Hgrow : aggregateOf rnd (stageProgress pm)
                  <= aggregateOf rnd (stageProgress (step rnd pm c))).
  { apply aggregateOf_monotone. rewrite float_step_stageProgress.
    destruct c as [stage|percentage|]; apply mapSet_grows; cbn in Hc.
    - rewrite Hc. apply Qle_refl.
    - exact Hc.
    - exact Hc. }
  assert (Hsame : forall stage, c = StartStage stage ->
            aggregateOf rnd (stageProgress (step rnd pm c))
            == aggregateOf rnd (stageProgress pm)).
  { intros stage ->. apply aggregateOf_pointwise. intros s.
    rewrite float_step_stageProgress. cbn in Hc. unfold mapSet.
    destruct (decide (s = stage)) as [->|_]; [rewrite Hc|]; reflexivity. }
  assert (Hmono : totalProgress pm <= totalProgress (step rnd pm c)).
  { rewrite (float_step_total pm c).
    destruct c; [apply Qle_refl|rewrite Htot; exact Hgrow..]. }
  split; [split|split; [exact Hmono|]].
  - rewrite (float_step_total pm c).
    destruct c as [stage| |]; [|reflexivity..].
    rewrite Htot. symmetry. apply (Hsame stage eq_refl).
  - rewrite float_step_lastReported, (float_step_total pm c).
    destruct c; [exact Hlast|reflexivity..].
  - intros increment Hrep. rewrite float_step_reported in Hrep.
    apply app_inv_head in Hrep.
    destruct (progress pm); [|discriminate Hrep].
    injection Hrep as <-.
    assert (Hdiff : 0 <= totalProgress (step rnd pm c)
                         - lastReportedProgress pm)
      by (rewrite Hlast; lra).
    destruct c as [stage| |].
    + rewrite float_step_total, Hlast.
      assert (H0 : totalProgress pm - totalProgress pm == 0) by ring.
      rewrite H0, rnd_zero. reflexivity.
    + apply ProgressSpec.max0_of_nonneg, rnd_nonneg, Hdiff.
    + apply ProgressSpec.max0_of_nonneg, rnd_nonneg, Hdiff.
Qed.

(** *** Runs that keep the recorded percentages from decreasing *)

Lemma float_run_app (l1 l2 : list call) (pm : ProgressManager) :
  run rnd (l1 ++ l2) pm = run rnd l2 (run rnd l1 pm).
Proof. unfold run. apply fold_left_app. Qed.

Lemma float_keepsOrder_app (l1 l2 : list call) :
  forall pm, keepsOrder rnd l1 pm -> keepsOrder rnd l2 (run rnd l1 pm) ->
             keepsOrder rnd (l1 ++ l2) pm.
Proof.
  induction l1 as [|c l1 IH]; intros pm H1 H2; [exact H2|].
  destruct H1 as [Hc H1]. split; [exact Hc|]. apply IH; assumption.
Qed.

Lemma float_run_reported (calls : list call) :
  forall pm, progress pm = true ->
    exists new, reported (run rnd calls pm) = reported pm ++ new
                /\ length new = length calls.
Proof.
  induction calls as [|c calls IH]; intros pm Hp.
  - exists []. split; [symmetry; apply app_nil_r|reflexivity].
  - destruct (IH (step rnd pm c)) as (new & Hnew & Hlen);
      [rewrite float_step_progress; exact Hp|].
    change (run rnd (c :: calls) pm) with (run rnd calls (step rnd pm c)).
    rewrite Hnew, float_step_reported, Hp, <- app_assoc.
    eexists. split; [reflexivity|]. cbn. rewrite Hlen. reflexivity.
Qed.

Lemma float_emitted_cons (c : call) (calls : list call)
    (pm : ProgressManager) :
  progress pm = true ->
  exists increment,
    reported (step rnd pm c) = reported pm ++ [increment]
    /\ emitted rnd (c :: calls) pm
       = increment :: emitted rnd calls (step rnd pm c).
Proof.
  intros Hp. unfold emitted.
  change (run rnd (c :: calls) pm) with (run rnd calls (step rnd pm c)).
  destruct (float_run_reported calls (step rnd pm c)) as (new & -> & _);
    [rewrite float_step_progress; exact Hp|].
  rewrite drop_app_length, float_step_reported, Hp, <- app_assoc.
  rewrite drop_app_length. eexists. split; reflexivity.
Qed.

Lemma float_run_keepsOrder (calls : list call) :
  forall pm, settledManager pm -> progress pm = true ->
    keepsOrder rnd calls pm ->
    settledManager (run rnd calls pm)
    /\ nondecreasing (totalProgress pm :: aggregates rnd calls pm)
    /\ Forall2 Qeq (emitted rnd calls pm) (map rnd (differences rnd calls pm))
    /\ Qsum (differences rnd calls pm)
       == totalProgress (run rnd calls pm) - totalProgress pm.
Proof.
  induction calls as [|c calls IH]; intros pm Hset Hp Hord.
  - unfold emitted. cbn. rewrite drop_all.
    split; [exact Hset|]. split; [auto|]. split; [constructor|ring].
  - destruct Hord as [Hc Hord].
    destruct (float_step_settled pm c Hset Hc) as (Hset' & Hmono & Hinc).
    destruct (IH (step rnd pm c) Hset'
                 (eq_trans (float_step_progress pm c) Hp) Hord)
      as (Hfinal & Hsorted & Hdiff & Hsum).
    destruct (float_emitted_cons c calls pm Hp) as (increment & Hrep & ->).
    change (run rnd (c :: calls) pm) with (run rnd calls (step rnd pm c)).
    split; [exact Hfinal|]. split; [|split].
    + cbn [aggregates]. split; [exact Hmono|exact Hsorted].
    + cbn [differences map]. constructor; [apply Hinc, Hrep|exact Hdiff].
    + cbn [differences Qsum fold_right]. unfold Qsum in Hsum.
      destruct Hset as [_ Hlast]. rewrite Hsum, Hlast. ring.
Qed.

(** *** The run in the declared stage order *)

Lemma float_updates_keepOrder (l : list Q) :
  forall pm,
    nondecreasing (map clampPercentage l) ->
    stageProgress pm (currentStage pm) <= 100 ->
    match l with
    | [] => True
    | p :: _ => stageProgress pm (currentStage pm) <= clampPercentage p
    end ->
    keepsOrder rnd (map UpdateStageProgress l ++ [CompleteStage]) pm
    /\ (forall s, stageProgress
                    (run rnd (map UpdateStageProgress l ++ [CompleteStage])
                         pm) s
                  = if decide (s = currentStage pm) then 100
                    else stageProgress pm s).
Proof.
  induction l as [|p l IH]; intros pm Hsorted Hfull Hhead.
  - split; [split; [exact Hfull|exact I]|]. intros s.
    change (run rnd (map UpdateStageProgress [] ++ [CompleteStage]) pm)
      with (step rnd pm CompleteStage).
    rewrite float_step_stageProgress. reflexivity.
  - destruct Hsorted as [Hnext Hsorted].
    assert (Hcur : currentStage (step rnd pm (UpdateStageProgress p))
                   = currentStage pm) by apply float_step_currentStage.
    assert (Hsp : stageProgress (step rnd pm (UpdateStageProgress p))
                  = mapSet (stageProgress pm) (currentStage pm)
                           (clampPercentage p))
      by apply float_step_stageProgress.
    destruct (IH (step rnd pm (UpdateStageProgress p)) Hsorted)
      as [Hord Hfinal].
    { rewrite Hcur, Hsp, ProgressSpec.mapSet_same.
      apply ProgressSpec.clampPercentage_range. }
    { destruct l as [|q l]; [exact I|].
      rewrite Hcur, Hsp, ProgressSpec.mapSet_same. exact Hnext. }
    split; [split; [exact Hhead|exact Hord]|].
    intros s.
    change (run rnd (map UpdateStageProgress (p :: l) ++ [CompleteStage]) pm)
      with (run rnd (map UpdateStageProgress l ++ [CompleteStage])
                (step rnd pm (UpdateStageProgress p))).
    rewrite Hfinal, Hcur, Hsp. unfold mapSet.
    destruct (decide (s = currentStage pm)); reflexivity.
Qed.

Lemma float_stage_keepsOrder (percentages : ProcessStage -> list Q)
    (stage : ProcessStage) (pm : ProgressManager) :
  nondecreasing (map clampPercentage (percentages stage)) ->
  stageProgress pm stage = 0 ->
  keepsOrder rnd (stageCalls percentages stage) pm
  /\ (forall s, stageProgress (run rnd (stageCalls percentages stage) pm) s
                = if decide (s = stage) then 100 else stageProgress pm s).
Proof.
  intros Hsorted Hzero. unfold stageCalls.
  assert (Hcur : currentStage (step rnd pm (StartStage stage)) = stage)
    by apply float_step_currentStage.
  assert (Hsp : stageProgress (step rnd pm (StartStage stage))
                = mapSet (stageProgress pm) stage 0)
    by apply float_step_stageProgress.
  destruct (float_updates_keepOrder (percentages stage)
              (step rnd pm (StartStage stage)) Hsorted) as [Hord Hfinal].
  { rewrite Hcur, Hsp, ProgressSpec.mapSet_same. discriminate. }
  { destruct (percentages stage) as [|p l]; [exact I|].
    rewrite Hcur, Hsp, ProgressSpec.mapSet_same.
    apply ProgressSpec.clampPercentage_range. }
  split; [split; [exact Hzero|exact Hord]|].
  intros s.
  change (run rnd (StartStage stage
                   :: map UpdateStageProgress (percentages stage)
                      ++ [CompleteStage]) pm)
    with (run rnd (map UpdateStageProgress (percentages stage)
                   ++ [CompleteStage]) (step rnd pm (StartStage stage))).
  rewrite Hfinal, Hcur, Hsp. unfold mapSet.
  destruct (decide (s = stage)); reflexivity.
Qed.

Lemma float_stages_keepOrder (percentages : ProcessStage -> list Q)
    (stages : list ProcessStage) :
  (forall stage, nondecreasing (map clampPercentage (percentages stage))) ->
  NoDup stages ->
  forall pm,
    (forall s, s ∈ stages -> stageProgress pm s = 0) ->
    keepsOrder rnd (flat_map (stageCalls percentages) stages) pm
    /\ (forall s, stageProgress
                    (run rnd (flat_map (stageCalls percentages) stages) pm) s
                  = if decide (s ∈ stages) then 100
                    else stageProgress pm s).
Proof.
  intros Hsorted. induction stages as [|stage stages IH]; intros Hnd pm Hzero.
  - split; [exact I|]. intros s. simpl.
    destruct (decide (s ∈ [])) as [Hin|_]; [|reflexivity].
    apply elem_of_nil in Hin. contradiction.
  - apply NoDup_cons in Hnd as [Hnotin Hnd].
    destruct (float_stage_keepsOrder percentages stage pm (Hsorted stage))
      as [Hord1 Hfinal1]; [apply Hzero; left|].
    destruct (IH Hnd (run rnd (stageCalls percentages stage) pm))
      as [Hord2 Hfinal2].
    { intros s Hs. rewrite Hfinal1.
      destruct (decide (s = stage)) as [->|_]; [contradiction|].
      apply Hzero. right. exact Hs. }
    change (flat_map (stageCalls percentages) (stage :: stages))
      with (stageCalls percentages stage
            ++ flat_map (stageCalls percentages) stages).
    split; [apply float_keepsOrder_app; assumption|].
    intros s. rewrite float_run_app, Hfinal2, Hfinal1.
    destruct (decide (s ∈ stages)) as [Hin|Hnin];
      destruct (decide (s ∈ stage :: stages)) as [Hin'|Hnin'];
      try reflexivity.
    + exfalso. apply Hnin'. right. exact Hin.
    + destruct (decide (s = stage)) as [->|Hne]; [reflexivity|].
      apply elem_of_cons in Hin' as [->|Hin']; [congruence|contradiction].
    + destruct (decide (s = stage)) as [->|Hne]; [|reflexivity].
      exfalso. apply Hnin'. left.
Qed.

Lemma Qsum_Forall2 (l1 l2 : list Q) :
  Forall2 Qeq l1 l2 -> Qsum l1 == Qsum l2.
Proof.
  induction 1 as [|x y l1 l2 Hxy _ IH]; [reflexivity|].
  cbn. unfold Qsum in IH. rewrite Hxy, IH. reflexivity.
Qed.

Lemma Forall2_map_exact (l : list Q) :
  Forall (fun d => rnd d == d) l -> Forall2 Qeq (map rnd l) l.
Proof.
  induction 1 as [|d l Hd _ IH]; constructor; assumption.
Qed.


End WithRounding.

(** *** The doubles of the machine *)

(** [round64] yields what the floating point unit yields: the quotients,
    products and differences met along the run of the counterexample
    below, computed on the doubles of the machine and with [round64]. *)
Example round64_agrees_with_the_machine :
  let q := (1 / 100)%float in
  let t := (q * 5)%float in
  let g1 := ((t / 100) * 100)%float in
  let g4 := ((55 / 100) * 100)%float in
  map doubleValue [q; t; (t / 100)%float; g1; (5 - g1)%float;
                   (55 / 100)%float; g4; (g4 - 40)%float; (65 - g4)%float]
  = map round64
      [1 / 100; doubleValue q * 5; doubleValue t / 100;
       doubleValue (t / 100)%float * 100; 5 - doubleValue g1;
       55 / 100; doubleValue (55 / 100)%float * 100;
       doubleValue g4 - 40; 65 - doubleValue g4].
Proof. vm_compute. reflexivity. Qed.



End ProgressFloatSpec.

(** * Further properties *)

(** ** The hash cache: recording, checking and sweeping together *)

Module HashCacheLaws.
Import HashCache.

Section WithRuntime.

Variable JSON_parse : string -> option FileHashCache.
Variable md5 : string -> string.

(** A digest changes the log of the world at most. *)
Lemma calculateFileHash_frame (filePath : string) (content : option string)
    (w : World) :
  exists log,
    calculateFileHash md5 filePath content w
    = (match content with
       | Some c => if String.eqb c "" then
                     match readResult w filePath with
                     | Ok text => Ok (md5 text)
                     | Throw e => Throw e
                     end
                   else Ok (md5 c)
       | None => match readResult w filePath with
                 | Ok text => Ok (md5 text)
                 | Throw e => Throw e
                 end
       end, withLog w log).
Proof.
  destruct w as [path file writable now tree log].
  destruct content as [c|].
  - destruct (String.eqb c "") eqn:Hc.
    + exists (log ++ [EvReadFile filePath]).
      unfold calculateFileHash. rewrite Hc.
      unfold bind, fs_readFile, bind, logEvent, ret. cbn.
      destruct (readResult _ filePath); reflexivity.
    + exists log. unfold calculateFileHash. rewrite Hc. reflexivity.
  - exists (log ++ [EvReadFile filePath]).
    unfold calculateFileHash.
    unfold bind, fs_readFile, bind, logEvent, ret. cbn.
    destruct (readResult _ filePath); reflexivity.
Qed.

(** What [updateFileHash] does once the document is loaded. *)
Lemma updateFileHash_run (ws filePath : string) (content : option string)
    (w : World) (doc : FileHashCache) :
  readFileHashCache JSON_parse w = (Ok doc, w) ->
  updateFileHash JSON_parse md5 ws filePath content w
  = match calculateFileHash md5 filePath content w with
    | (Ok h, w1) =>
        writeFileHashCache
          (<[ws := <[filePath := mkEntry h (clock w1)]>
                     (default ∅ (doc !! ws))]> doc) w1
    | (Throw e, w1) => (Throw e, w1)
    end.
Proof.
  intros Hread. unfold updateFileHash. unfold bind at 1. rewrite Hread.
  unfold bind at 1.
  destruct (calculateFileHash md5 filePath content w) as [[h|e] w1];
    [|reflexivity].
  unfold bind at 1, Date_now.
  destruct (doc !! ws) as [wc|] eqn:Hws.
  - rewrite Hws. reflexivity.
  - rewrite lookup_insert_eq. cbn [default].
    rewrite insert_insert_eq. reflexivity.
Qed.

(** On an initialised, writable store a read returns what was written. *)
Lemma read_after_write (cache : FileHashCache) (w : World) :
  fileHashCachePath w <> "" ->
  cacheWritable w = true ->
  exists w', writeFileHashCache cache w = (Ok tt, w')
             /\ w' = withCacheFile w (Present (Stringified cache))
             /\ readFileHashCache JSON_parse w' = (Ok cache, w').
Proof.
  intros Hpath Hwr. apply String.eqb_neq in Hpath.
  destruct w as [path file writable now tree log]. cbn in Hpath, Hwr.
  subst writable.
  eexists. split; [|split; [reflexivity|]].
  - unfold writeFileHashCache. cbn. rewrite Hpath. reflexivity.
  - unfold readFileHashCache, withCacheFile. cbn. rewrite Hpath. reflexivity.
Qed.

Lemma readFileHashCache_log (w : World) (doc : FileHashCache)
    (log : list fsEvent) :
  readFileHashCache JSON_parse w = (Ok doc, w) ->
  readFileHashCache JSON_parse (withLog w log) = (Ok doc, withLog w log).
Proof.
  destruct w as [path file writable now tree log0].
  unfold readFileHashCache, withLog. cbn.
  destruct (String.eqb path ""); [intros H; inversion H; reflexivity|].
  unfold try_catch, bind, cache_access, cache_readFile, ret, throw. cbn.
  destruct file as [| |text]; cbn;
    try (intros H; inversion H; reflexivity).
  destruct (text_trim_is_empty text);
    [intros H; inversion H; reflexivity|].
  destruct (text_parse JSON_parse text);
    intros H; inversion H; reflexivity.
Qed.

Lemma lookupEntry_insert (doc : FileHashCache) (ws filePath : string)
    (entry : HashEntry) (ws' filePath' : string) :
  lookupEntry (<[ws := <[filePath := entry]> (default ∅ (doc !! ws))]> doc)
              ws' filePath'
  = if decide (ws' = ws /\ filePath' = filePath) then Some entry
    else lookupEntry doc ws' filePath'.
Proof.
  unfold lookupEntry.
  destruct (decide (ws' = ws)) as [->|Hws].
  - rewrite lookup_insert_eq. cbn.
    destruct (decide (filePath' = filePath)) as [->|Hp].
    + rewrite lookup_insert_eq.
      destruct (decide (ws = ws /\ filePath = filePath)) as [_|Hn];
        [reflexivity|]. exfalso. apply Hn. split; reflexivity.
    + rewrite lookup_insert_ne by congruence.
      destruct (decide (ws = ws /\ filePath' = filePath)) as [[_ H]|_];
        [contradiction|].
      destruct (doc !! ws); [reflexivity|]. cbn. apply lookup_empty.
  - rewrite lookup_insert_ne by congruence.
    destruct (decide (ws' = ws /\ filePath' = filePath)) as [[H _]|_];
      [contradiction|reflexivity].
Qed.

(** The world a successful [updateFileHash] leaves on an initialised,
    writable store. *)
Lemma updateFileHash_effect (ws filePath : string)
    (content : option string) (w w' : World) (doc : FileHashCache) :
  fileHashCachePath w <> "" ->
  cacheWritable w = true ->
  readFileHashCache JSON_parse w = (Ok doc, w) ->
  updateFileHash JSON_parse md5 ws filePath content w = (Ok tt, w') ->
  exists (h : string) (log : list fsEvent),
    calculateFileHash md5 filePath content w = (Ok h, withLog w log)
    /\ let doc' := <[ws := <[filePath := mkEntry h (clock w)]>
                             (default ∅ (doc !! ws))]> doc in
       w' = withCacheFile (withLog w log) (Present (Stringified doc'))
       /\ readFileHashCache JSON_parse w' = (Ok doc', w').
Proof.
  intros Hpath Hwr Hread Hrun.
  rewrite (updateFileHash_run _ _ _ _ _ Hread) in Hrun.
  destruct (calculateFileHash_frame filePath content w) as [log Hc].
  rewrite Hc in Hrun. rewrite Hc.
  match type of Hrun with
  | match ?r with Ok _ => _ | Throw _ => _ end = _ => destruct r as [h|e]
  end; [|discriminate Hrun].
  replace (clock (withLog w log)) with (clock w) in Hrun
    by (destruct w; reflexivity).
  match type of Hrun with
  | writeFileHashCache ?d _ = _ =>
      destruct (read_after_write d (withLog w log)) as (w2 & Hw & Heq & Hrd)
  end.
  - destruct w; exact Hpath.
  - destruct w; exact Hwr.
  - rewrite Hw in Hrun. injection Hrun as <-.
    exists h, log. split; [reflexivity|]. split; [exact Heq|exact Hrd].
Qed.

(** The digest computed is the one of the content given, or of the text
    on disk when none (or the empty string) is given. *)
Lemma calculateFileHash_digest (filePath : string) (content : option string)
    (w w1 : World) (h : string) :
  calculateFileHash md5 filePath content w = (Ok h, w1) ->
  exists text : string,
    match content with
    | Some c => if String.eqb c "" then readResult w filePath = Ok text
                else text = c
    | None => readResult w filePath = Ok text
    end
    /\ h = md5 text.
Proof.
  intros Hc.
  destruct (calculateFileHash_frame filePath content w) as [log Hf].
  rewrite Hf in Hc. clear Hf.
  destruct content as [c|]; [destruct (String.eqb c "")|].
  - destruct (readResult w filePath) as [text|e]; [|discriminate Hc].
    injection Hc as <- _. exists text. split; reflexivity.
  - injection Hc as <- _. exists c. split; reflexivity.
  - destruct (readResult w filePath) as [text|e]; [|discriminate Hc].
    injection Hc as <- _. exists text. split; reflexivity.
Qed.

(** X1.  On an initialised, writable store whose file holds a document,
    and for a workspace identifier and a path that name no property of
    [Object.prototype], a successful [updateFileHash] leaves a document that
    differs from the one loaded before in exactly one entry: the one of the
    workspace and path given, which now holds the MD5 digest of the content
    (of the text on disk when no content, or the empty string, is given)
    and the time of the clock. *)
Theorem updateFileHash_records (ws filePath : string)
    (content : option string) (w w' : World) (doc : FileHashCache) :
  holdsDocument JSON_parse w ->
  plainKeys ws filePath ->
  fileHashCachePath w <> "" ->
  cacheWritable w = true ->
  readFileHashCache JSON_parse w = (Ok doc, w) ->
  updateFileHash JSON_parse md5 ws filePath content w = (Ok tt, w') ->
  exists (text : string) (doc' : FileHashCache),
    match content with
    | Some c => if String.eqb c "" then readResult w filePath = Ok text
                else text = c
    | None => readResult w filePath = Ok text
    end
    /\ readFileHashCache JSON_parse w' = (Ok doc', w')
    /\ forall ws' filePath',
         lookupEntry doc' ws' filePath'
         = if decide (ws' = ws /\ filePath' = filePath)
           then Some (mkEntry (md5 text) (clock w))
           else lookupEntry doc ws' filePath'.
Proof.
  intros _ _ Hpath Hwr Hread Hrun.
  destruct (updateFileHash_effect _ _ _ _ _ _ Hpath Hwr Hread Hrun)
    as (h & log & Hc & _ & Hrd).
  destruct (calculateFileHash_digest _ _ _ _ _ Hc) as (text & Htext & ->).
  exists text. eexists. split; [exact Htext|].
  split; [exact Hrd|].
  intros ws' filePath'. apply lookupEntry_insert.
Qed.

(** X2.  Recording then checking: on an initialised, writable store whose
    file holds a document, and for a workspace identifier and a path that
    name no property of [Object.prototype], after a successful
    [updateFileHash] the check [hasFileChanged] for the same workspace, path
    and content answers [false]. *)
Theorem recorded_file_is_unchanged (ws filePath : string)
    (content : option string) (w w' : World) :
  holdsDocument JSON_parse w ->
  plainKeys ws filePath ->
  fileHashCachePath w <> "" ->
  cacheWritable w = true ->
  updateFileHash JSON_parse md5 ws filePath content w = (Ok tt, w') ->
  (hasFileChanged JSON_parse md5 ws filePath content w').1 = Ok false.
Proof.
  intros _ _ Hpath Hwr Hrun.
  destruct (HashCacheSpec.readFileHashCache_total JSON_parse w)
    as [doc Hread].
  destruct (updateFileHash_effect _ _ _ _ _ _ Hpath Hwr Hread Hrun)
    as (h & log & Hc & Hw' & Hrd).
  unfold hasFileChanged. unfold bind at 1. rewrite Hrd. cbv zeta.
  rewrite lookup_insert_eq. cbn [default from_option id].
  rewrite lookup_insert_eq.
  unfold try_catch, bind.
  destruct (calculateFileHash_frame filePath content w) as [log1 Hc1].
  destruct (calculateFileHash_frame filePath content w') as [log2 Hc2].
  rewrite Hc2.
  replace (readResult w' filePath) with (readResult w filePath)
    by (rewrite Hw'; destruct w; reflexivity).
  rewrite Hc1 in Hc. inversion Hc as [[Hh Hlog]]. rewrite Hh.
  unfold ret. cbn [hash fst]. rewrite String.eqb_refl. reflexivity.
Qed.

(** A check answers [false] when the loaded document holds the digest the
    content has now. *)
Lemma hasFileChanged_false (ws filePath : string) (content : option string)
    (w w0 : World) (doc : FileHashCache) (entry : HashEntry) :
  readFileHashCache JSON_parse w = (Ok doc, w) ->
  lookupEntry doc ws filePath = Some entry ->
  fs w = fs w0 ->
  (calculateFileHash md5 filePath content w0).1 = Ok (hash entry) ->
  (hasFileChanged JSON_parse md5 ws filePath content w).1 = Ok false.
Proof.
  intros Hread Hl Hfs Hc.
  unfold hasFileChanged. unfold bind at 1. rewrite Hread. cbv zeta.
  unfold lookupEntry in Hl.
  destruct (doc !! ws) as [wc|]; [|discriminate Hl]. cbn in Hl.
  cbn [default from_option id]. rewrite Hl.
  unfold try_catch, bind.
  destruct (calculateFileHash_frame filePath content w0) as [log0 Hc0].
  destruct (calculateFileHash_frame filePath content w) as [log1 Hc1].
  rewrite Hc0 in Hc. cbn [fst] in Hc. rewrite Hc1.
  replace (readResult w filePath) with (readResult w0 filePath)
    by (unfold readResult; rewrite Hfs; reflexivity).
  rewrite Hc. unfold ret. cbn [fst]. rewrite String.eqb_refl. reflexivity.
Qed.

(** X3.  When the cache file holds a document and the workspace identifier
    names no property of [Object.prototype], [updateFileHash] rejects
    exactly when no content is given (none, or the empty string) and the
    file cannot be read; the error is the one of the read and the cache file
    is left as it was. *)
Theorem updateFileHash_rejects_iff (ws filePath : string)
    (content : option string) (w : World) :
  holdsDocument JSON_parse w ->
  plainWorkspaceId ws ->
  let needsDisk := match content with
                   | Some c => String.eqb c ""
                   | None => true
                   end in
  (forall e w',
     updateFileHash JSON_parse md5 ws filePath content w = (Throw e, w') ->
     e = IOError filePath /\ cacheFile w' = cacheFile w
     /\ needsDisk = true /\ readResult w filePath = Throw (IOError filePath))
  /\ (needsDisk = true ->
      readResult w filePath = Throw (IOError filePath) ->
      exists w',
        updateFileHash JSON_parse md5 ws filePath content w
        = (Throw (IOError filePath), w')).
Proof.
  intros _ _ needsDisk.
  destruct (HashCacheSpec.readFileHashCache_total JSON_parse w)
    as [doc Hread].
  rewrite (updateFileHash_run _ _ _ _ _ Hread).
  destruct (calculateFileHash_frame filePath content w) as [log Hc].
  rewrite Hc. clear Hc.
  assert (Hres : forall r : outcome string,
             readResult w filePath = r ->
             r = Throw (IOError filePath) \/ exists text, r = Ok text).
  { intros r <-. unfold readResult.
    destruct (fs w !! filePath) as [[size [text|]| |]|]; eauto. }
  split.
  - intros e w' Hrun.
    destruct content as [c|]; subst needsDisk.
    + destruct (String.eqb c ""); [|unfold writeFileHashCache in Hrun;
        destruct (String.eqb _ ""); [discriminate|];
        destruct (cacheWritable _); discriminate].
      destruct (Hres _ eq_refl) as [Hr|[text Hr]]; rewrite Hr in Hrun |- *.
      * injection Hrun as <- <-. destruct w; repeat split; reflexivity.
      * unfold writeFileHashCache in Hrun.
        destruct (String.eqb _ ""); [discriminate|].
        destruct (cacheWritable _); discriminate.
    + destruct (Hres _ eq_refl) as [Hr|[text Hr]]; rewrite Hr in Hrun |- *.
      * injection Hrun as <- <-. destruct w; repeat split; reflexivity.
      * unfold writeFileHashCache in Hrun.
        destruct (String.eqb _ ""); [discriminate|].
        destruct (cacheWritable _); discriminate.
  - intros Hneed Hr. subst needsDisk.
    destruct content as [c|].
    + rewrite Hneed, Hr. eexists; reflexivity.
    + rewrite Hr. eexists; reflexivity.
Qed.


(** What [cleanupFileHashCache] does once the document is loaded. *)
Lemma cleanupFileHashCache_run (maxAgeMs : option Z) (w : World)
    (doc : FileHashCache) :
  readFileHashCache JSON_parse w = (Ok doc, w) ->
  cleanupFileHashCache JSON_parse maxAgeMs w
  = if Nat.ltb 0 (sweepCache (clock w) (default defaultMaxAgeMs maxAgeMs)
                             doc).2
    then writeFileHashCache
           (sweepCache (clock w) (default defaultMaxAgeMs maxAgeMs) doc).1 w
    else (Ok tt, w).
Proof.
  intros Hread. unfold cleanupFileHashCache. cbv zeta.
  unfold bind at 1. rewrite Hread. unfold bind at 1, Date_now.
  destruct (Nat.ltb 0 _); reflexivity.
Qed.

(** A write either leaves the world as it is, or the store is initialised
    and writable. *)
Lemma writeFileHashCache_cases (doc : FileHashCache) (w : World) :
  writeFileHashCache doc w = (Ok tt, w)
  \/ (fileHashCachePath w <> "" /\ cacheWritable w = true).
Proof.
  unfold writeFileHashCache.
  destruct (String.eqb (fileHashCachePath w) "") eqn:Hp; [left; reflexivity|].
  destruct (cacheWritable w); [|left; reflexivity].
  right. split; [|reflexivity]. apply String.eqb_neq, Hp.
Qed.

(** A swept document holds no stale entry. *)
Lemma swept_entries_fresh (now maxAgeMs : Z) (doc : FileHashCache)
    (ws filePath : string) (entry : HashEntry) :
  lookupEntry (sweepCache now maxAgeMs doc).1 ws filePath = Some entry ->
  lookupEntry doc ws filePath = Some entry
  /\ stale now maxAgeMs entry = false.
Proof.
  unfold lookupEntry. rewrite HashCacheSpec.sweepCache_entries.
  destruct (doc !! ws ≫= (fun wc => wc !! filePath)) as [e|];
    [|discriminate]. cbn.
  destruct (stale now maxAgeMs e) eqn:Hs; [discriminate|].
  intros H; injection H as <-. split; [reflexivity|exact Hs].
Qed.

Lemma sweep_of_swept_removes_nothing (now maxAgeMs : Z)
    (doc : FileHashCache) :
  (sweepCache now maxAgeMs (sweepCache now maxAgeMs doc).1).2 = 0.
Proof.
  destruct (sweepCache now maxAgeMs (sweepCache now maxAgeMs doc).1).2
    as [|n] eqn:Hn; [reflexivity|].
  assert (Hpos : 0 < (sweepCache now maxAgeMs
                        (sweepCache now maxAgeMs doc).1).2)
    by (rewrite Hn; lia).
  apply HashCacheSpec.sweepCache_removed in Hpos.
  destruct Hpos as (ws & wc & filePath & e & Hws & Hp & Hs).
  destruct (swept_entries_fresh now maxAgeMs doc ws filePath e) as [_ Hf].
  - unfold lookupEntry. rewrite Hws. exact Hp.
  - congruence.
Qed.


(** X6.  An entry recorded now outlives a sweep at the same time with a
    limit that is not negative (the default of thirty days is one): on an
    initialised, writable store whose file holds a document, and for a
    workspace identifier and a path that name no property of
    [Object.prototype], after [updateFileHash] and [cleanupFileHashCache]
    the file still counts as unchanged. *)
Theorem recorded_entry_survives_cleanup (ws filePath : string)
    (content : option string) (maxAgeMs : option Z) (w w1 : World) :
  holdsDocument JSON_parse w ->
  plainKeys ws filePath ->
  fileHashCachePath w <> "" ->
  cacheWritable w = true ->
  (0 <= default defaultMaxAgeMs maxAgeMs)%Z ->
  updateFileHash JSON_parse md5 ws filePath content w = (Ok tt, w1) ->
  let w2 := (cleanupFileHashCache JSON_parse maxAgeMs w1).2 in
  (hasFileChanged JSON_parse md5 ws filePath content w2).1 = Ok false.
Proof.
  intros _ _ Hpath Hwr Hlimit Hupd.
  destruct (HashCacheSpec.readFileHashCache_total JSON_parse w)
    as [doc Hread].
  destruct (updateFileHash_effect _ _ _ _ _ _ Hpath Hwr Hread Hupd)
    as (h & log & Hc & Hw1 & Hrd1).
  set (entry := mkEntry h (clock w)) in *.
  set (doc1 := <[ws := <[filePath := entry]> (default ∅ (doc !! ws))]> doc)
    in *.
  assert (Hl1 : lookupEntry doc1 ws filePath = Some entry).
  { unfold doc1. rewrite lookupEntry_insert.
    destruct (decide (ws = ws /\ filePath = filePath)) as [_|Hn];
      [reflexivity|]. exfalso. apply Hn. split; reflexivity. }
  assert (Hclock : clock w1 = clock w) by (rewrite Hw1; destruct w; reflexivity).
  assert (Hfs1 : fs w1 = fs w) by (rewrite Hw1; destruct w; reflexivity).
  assert (Hfresh : stale (clock w1) (default defaultMaxAgeMs maxAgeMs) entry
                   = false).
  { unfold stale, entry. cbn [timestamp]. rewrite Hclock. apply Z.ltb_ge. lia. }
  assert (Hdigest : (calculateFileHash md5 filePath content w).1
                    = Ok (hash entry)) by (rewrite Hc; reflexivity).
  pose proof (cleanupFileHashCache_run maxAgeMs w1 doc1 Hrd1) as Hrun.
  cbv zeta.
  destruct (Nat.ltb 0 _) eqn:Hlt in Hrun.
  - match type of Hrun with
    | _ = writeFileHashCache ?d w1 =>
        destruct (read_after_write d w1) as (w2 & Hw & Heq & Hrd2)
    end.
    + rewrite Hw1. destruct w; exact Hpath.
    + rewrite Hw1. destruct w; exact Hwr.
    + rewrite Hrun, Hw. cbn [snd].
      eapply (hasFileChanged_false _ _ _ w2 w _ entry);
        [exact Hrd2| |rewrite Heq, <- Hfs1; destruct w1; reflexivity
         |exact Hdigest].
      unfold lookupEntry. rewrite HashCacheSpec.sweepCache_entries.
      fold (lookupEntry doc1 ws filePath). rewrite Hl1. cbn.
      rewrite Hfresh. reflexivity.
  - rewrite Hrun. cbn [snd].
    exact (hasFileChanged_false _ _ _ w1 w _ entry Hrd1 Hl1 Hfs1 Hdigest).
Qed.

(** After a sweep on a store that can be written, no entry of the loaded
    document is older than the limit. *)
Lemma cleanupFileHashCache_leaves_fresh (maxAgeMs : option Z) (w : World) :
  fileHashCachePath w <> "" ->
  cacheWritable w = true ->
  exists (w' : World) (doc' : FileHashCache),
    cleanupFileHashCache JSON_parse maxAgeMs w = (Ok tt, w')
    /\ fileHashCachePath w' = fileHashCachePath w
    /\ readFileHashCache JSON_parse w' = (Ok doc', w')
    /\ forall ws filePath entry,
         lookupEntry doc' ws filePath = Some entry ->
         (clock w - timestamp entry <= default defaultMaxAgeMs maxAgeMs)%Z.
Proof.
  intros Hpath Hwr.
  destruct (HashCacheSpec.readFileHashCache_total JSON_parse w)
    as [doc Hread].
  rewrite (cleanupFileHashCache_run maxAgeMs w doc Hread).
  destruct (Nat.ltb 0 _) eqn:Hlt.
  - match goal with
    | |- context [writeFileHashCache ?d w] =>
        destruct (read_after_write d w Hpath Hwr) as (w2 & Hw & Heq & Hrd)
    end.
    eexists; eexists. split; [exact Hw|].
    split; [rewrite Heq; destruct w; reflexivity|]. split; [exact Hrd|].
    intros ws filePath entry Hl.
    apply swept_entries_fresh in Hl. destruct Hl as [_ Hs].
    unfold stale in Hs. apply Z.ltb_ge in Hs. exact Hs.
  - exists w, doc. split; [reflexivity|]. split; [reflexivity|].
    split; [exact Hread|].
    intros ws filePath entry Hl.
    destruct (stale (clock w) (default defaultMaxAgeMs maxAgeMs) entry)
      eqn:Hs; [|unfold stale in Hs; apply Z.ltb_ge in Hs; exact Hs].
    exfalso. apply Nat.ltb_ge in Hlt.
    assert (Hpos : 0 < (sweepCache (clock w)
                          (default defaultMaxAgeMs maxAgeMs) doc).2).
    { apply HashCacheSpec.sweepCache_removed.
      unfold lookupEntry in Hl.
      destruct (doc !! ws) as [wc|] eqn:Hws; [|discriminate Hl].
      exists ws, wc, filePath, entry. repeat split; assumption. }
    lia.
Qed.

Lemma cache_path_initialised (storagePath : string) :
  storagePath +:+ "/" +:+ FILE_HASH_CACHE_FILENAME <> "".
Proof.
  intros H. apply (f_equal String.length) in H.
  rewrite !CrawlerSpec.length_append in H.
  unfold FILE_HASH_CACHE_FILENAME in H. cbn in H. lia.
Qed.

(** A sweep resolves and keeps the path of the store. *)
Lemma cleanupFileHashCache_resolves (maxAgeMs : option Z) (w : World) :
  exists w' : World,
    cleanupFileHashCache JSON_parse maxAgeMs w = (Ok tt, w')
    /\ fileHashCachePath w' = fileHashCachePath w.
Proof.
  destruct (HashCacheSpec.readFileHashCache_total JSON_parse w)
    as [doc Hread].
  rewrite (cleanupFileHashCache_run maxAgeMs w doc Hread).
  destruct (Nat.ltb 0 _); [|exists w; split; reflexivity].
  match goal with
  | |- context [writeFileHashCache ?d w] =>
      destruct (writeFileHashCache_cases d w) as [Hw|[Hpath Hwr]];
        [exists w; split; [exact Hw|reflexivity]|];
      destruct (read_after_write d w Hpath Hwr) as (w2 & Hw & Heq & _)
  end.
  exists w2. split; [exact Hw|]. rewrite Heq. destruct w; reflexivity.
Qed.

Lemma initializeCacheServices_run (storagePath : string) (w : World) :
  initializeCacheServices JSON_parse true storagePath w
  = cleanupFileHashCache JSON_parse None
      (withCachePath w (storagePath +:+ "/" +:+ FILE_HASH_CACHE_FILENAME)).
Proof.
  unfold initializeCacheServices, try_catch.
  unfold bind at 1. unfold ret at 1. unfold bind at 1.
  unfold initializeFileHashCachePath.
  destruct (cleanupFileHashCache_resolves None
              (withCachePath w
                 (storagePath +:+ "/" +:+ FILE_HASH_CACHE_FILENAME)))
    as (w' & Hrun & _).
  rewrite Hrun. reflexivity.
Qed.


(** A check does not depend on the log. *)
Lemma hasFileChanged_log (ws filePath : string) (content : option string)
    (w : World) (log : list fsEvent) :
  (hasFileChanged JSON_parse md5 ws filePath content (withLog w log)).1
  = (hasFileChanged JSON_parse md5 ws filePath content w).1.
Proof.
  destruct (HashCacheSpec.readFileHashCache_total JSON_parse w)
    as [doc Hread].
  unfold hasFileChanged. unfold bind at 1 3.
  rewrite (readFileHashCache_log w doc log Hread), Hread. cbv zeta.
  destruct (default ∅ (doc !! ws) !! filePath) as [entry|]; [|reflexivity].
  unfold try_catch, bind.
  destruct (calculateFileHash_frame filePath content w) as [l1 H1].
  destruct (calculateFileHash_frame filePath content (withLog w log))
    as [l2 H2].
  rewrite H1, H2.
  replace (readResult (withLog w log) filePath) with (readResult w filePath)
    by (destruct w; reflexivity).
  match goal with
  | |- context [match ?r with Ok _ => _ | Throw _ => _ end] =>
      destruct r; reflexivity
  end.
Qed.

(** X8.  A store that cannot be written never learns.  When its file holds
    a document and the workspace identifier names no property of
    [Object.prototype], [updateFileHash] still resolves whenever the digest
    can be computed, but the cache file stays as it was and every later
    check answers as it did before. *)
Theorem unwritable_store_never_learns (ws filePath : string)
    (content : option string) (w : World) (r : outcome unit) (w' : World) :
  holdsDocument JSON_parse w ->
  plainWorkspaceId ws ->
  cacheWritable w = false ->
  updateFileHash JSON_parse md5 ws filePath content w = (r, w') ->
  cacheFile w' = cacheFile w
  /\ (r = Ok tt <->
      exists h, (calculateFileHash md5 filePath content w).1 = Ok h)
  /\ forall ws2 filePath2 content2,
       (hasFileChanged JSON_parse md5 ws2 filePath2 content2 w').1
       = (hasFileChanged JSON_parse md5 ws2 filePath2 content2 w).1.
Proof.
  intros _ _ Hwr Hrun.
  destruct (HashCacheSpec.readFileHashCache_total JSON_parse w)
    as [doc Hread].
  rewrite (updateFileHash_run _ _ _ _ _ Hread) in Hrun.
  destruct (calculateFileHash_frame filePath content w) as [log Hc].
  rewrite Hc in Hrun. rewrite Hc. cbn [fst].
  assert (Hw' : r = match (calculateFileHash md5 filePath content w).1 with
                    | Ok _ => Ok tt
                    | Throw e => Throw e
                    end /\ w' = withLog w log).
  { rewrite Hc. cbn [fst].
    match type of Hrun with
    | match ?x with Ok _ => _ | Throw _ => _ end = _ => destruct x as [h|e]
    end.
    - destruct (writeFileHashCache_cases
                  (<[ws := <[filePath := mkEntry h (clock (withLog w log))]>
                             (default ∅ (doc !! ws))]> doc) (withLog w log))
        as [Hw|[_ Hw]].
      + rewrite Hw in Hrun. injection Hrun as <- <-. split; reflexivity.
      + destruct w; cbn in Hwr, Hw. congruence.
    - injection Hrun as <- <-. split; reflexivity. }
  destruct Hw' as [Hr ->]. rewrite Hc in Hr. cbn [fst] in Hr.
  split; [destruct w; reflexivity|]. split.
  - rewrite Hr.
    match goal with
    | |- context [match ?x with Ok _ => _ | Throw _ => _ end] =>
        destruct x as [h|e]
    end.
    + split; [intros _; exists h; reflexivity|reflexivity].
    + split; [discriminate|intros [h H]; discriminate H].
  - intros ws2 filePath2 content2. apply hasFileChanged_log.
Qed.

End WithRuntime.

(** *** Instances on the stored scenarios *)

Lemma updateFileHash_records_witness :
  let w := Scenarios.twoFilesWorld in
  let w' := (updateFileHash Scenarios.noJson MD5.md5_hex "w1" "/proj/a.txt"
               (Some "changed") w).2 in
  exists doc' : FileHashCache,
    readFileHashCache Scenarios.noJson w' = (Ok doc', w')
    /\ forall ws' filePath',
         lookupEntry doc' ws' filePath'
         = if decide (ws' = "w1" /\ filePath' = "/proj/a.txt")
           then Some (mkEntry (MD5.md5_hex "changed") (clock w))
           else lookupEntry Scenarios.twoFilesDoc ws' filePath'.
Proof.
  intros w w'.
  destruct (updateFileHash_records Scenarios.noJson MD5.md5_hex "w1"
              "/proj/a.txt" (Some "changed") w w' Scenarios.twoFilesDoc)
    as (text & doc' & Htext & Hrd & Hl).
  - exact I.
  - split; reflexivity.
  - vm_compute. discriminate.
  - reflexivity.
  - reflexivity.
  - vm_compute. reflexivity.
  - cbn in Htext. subst text. exists doc'. split; [exact Hrd|exact Hl].
Defined.

Lemma updateFileHash_rejects_iff_witness :
  holdsDocument Scenarios.noJson Scenarios.twoFilesWorld
  /\ plainWorkspaceId "w1"
  /\ exists w',
       updateFileHash Scenarios.noJson MD5.md5_hex "w1" "/proj/missing.txt"
         None Scenarios.twoFilesWorld
       = (Throw (IOError "/proj/missing.txt"), w').
Proof.
  split; [exact I|]. split; [reflexivity|].
  apply (updateFileHash_rejects_iff Scenarios.noJson MD5.md5_hex "w1"
           "/proj/missing.txt" None Scenarios.twoFilesWorld I eq_refl);
    reflexivity.
Defined.

Lemma recorded_file_is_unchanged_witness :
  let w := Scenarios.twoFilesWorld in
  let w' := (updateFileHash Scenarios.noJson MD5.md5_hex "w1" "/proj/b.txt"
               None w).2 in
  (hasFileChanged Scenarios.noJson MD5.md5_hex "w1" "/proj/b.txt" None w).1
    = Ok true
  /\ (hasFileChanged Scenarios.noJson MD5.md5_hex "w1" "/proj/b.txt" None
        w').1 = Ok false.
Proof.
  intros w w'. split; [vm_compute; reflexivity|].
  apply (recorded_file_is_unchanged Scenarios.noJson MD5.md5_hex "w1"
           "/proj/b.txt" None w w').
  - exact I.
  - split; reflexivity.
  - vm_compute. discriminate.
  - reflexivity.
  - vm_compute. reflexivity.
Defined.


Lemma recorded_entry_survives_cleanup_witness :
  let w := Scenarios.twoFilesWorld in
  let w1 := (updateFileHash Scenarios.noJson MD5.md5_hex "w1" "/proj/b.txt"
               None w).2 in
  let w2 := (cleanupFileHashCache Scenarios.noJson (Some 1000%Z) w1).2 in
  (hasFileChanged Scenarios.noJson MD5.md5_hex "w1" "/proj/b.txt" None w2).1
  = Ok false.
Proof.
  intros w w1.
  apply (recorded_entry_survives_cleanup Scenarios.noJson MD5.md5_hex "w1"
           "/proj/b.txt" None (Some 1000%Z) w w1).
  - exact I.
  - split; reflexivity.
  - vm_compute. discriminate.
  - reflexivity.
  - vm_compute. discriminate.
  - vm_compute. reflexivity.
Defined.


Lemma unwritable_store_never_learns_witness :
  let w := mkWorld Scenarios.cachePath
                   (Present (Stringified Scenarios.twoFilesDoc)) false 5000
                   Scenarios.twoFilesTree [] in
  let run := updateFileHash Scenarios.noJson MD5.md5_hex "w1" "/proj/b.txt"
               None w in
  run.1 = Ok tt
  /\ (hasFileChanged Scenarios.noJson MD5.md5_hex "w1" "/proj/b.txt" None
        run.2).1 = Ok true.
Proof.
  intros w run.
  destruct (unwritable_store_never_learns Scenarios.noJson MD5.md5_hex "w1"
              "/proj/b.txt" None w run.1 run.2) as (_ & _ & Hsame).
  - exact I.
  - reflexivity.
  - reflexivity.
  - vm_compute. reflexivity.
  - split; [vm_compute; reflexivity|].
    rewrite Hsame. vm_compute. reflexivity.
Defined.

End HashCacheLaws.

(** ** The crawler: what a crawl returns *)

Module CrawlerLaws.
Import HashCache Crawler.

Section WithRuntime.

Variable JSON_parse : string -> option FileHashCache.
Variable md5 : string -> string.
Variable minimatch : string -> string -> bool.
Variable ignore_add : list string -> string -> bool.

(** *** Worlds that differ in the log only *)

Lemma extendsLog_refl (w : World) : extendsLog w w.
Proof. exists []. rewrite app_nil_r. destruct w; reflexivity. Qed.

Lemma extendsLog_trans (w1 w2 w3 : World) :
  extendsLog w1 w2 -> extendsLog w2 w3 -> extendsLog w1 w3.
Proof.
  intros [l1 ->] [l2 ->]. exists (l1 ++ l2).
  destruct w1; unfold withLog; cbn. rewrite app_assoc. reflexivity.
Qed.

Lemma extendsLog_withLog (w : World) (l : list fsEvent) :
  extendsLog w (withLog w (ioLog w ++ l)).
Proof. exists l. reflexivity. Qed.

Lemma extendsLog_fs (w w' : World) : extendsLog w w' -> fs w' = fs w.
Proof. intros [l ->]. reflexivity. Qed.

Lemma extendsLog_cacheFile (w w' : World) :
  extendsLog w w' -> cacheFile w' = cacheFile w.
Proof. intros [l ->]. reflexivity. Qed.

Lemma forEachM_frame {A S : Type} (R : World -> World -> Prop)
    (body : A -> S -> M S) (l : list A) :
  (forall w, R w w) ->
  (forall w1 w2 w3, R w1 w2 -> R w2 w3 -> R w1 w3) ->
  (forall x s w r w', In x l -> body x s w = (r, w') -> R w w') ->
  forall s w r w', forEachM l s body w = (r, w') -> R w w'.
Proof.
  intros Hrefl Htrans. induction l as [|x l IH]; intros Hbody s w r w' Hrun.
  - injection Hrun as <- <-. apply Hrefl.
  - cbn [forEachM] in Hrun. unfold bind in Hrun.
    destruct (body x s w) as [[s1|e] w1] eqn:Hx.
    + apply (Htrans w w1 w').
      * apply (Hbody x s w (Ok s1) w1); [left; reflexivity|exact Hx].
      * apply (IH (fun y s0 w0 r0 w0' Hy => Hbody y s0 w0 r0 w0' (or_intror Hy))
                 s1 w1 r w' Hrun).
    + injection Hrun as <- <-.
      apply (Hbody x s w (Throw e) w1); [left; reflexivity|exact Hx].
Qed.

Lemma fs_stat_frame (path : string) (w : World) (r : outcome fsnode)
    (w' : World) :
  fs_stat path w = (r, w') ->
  w' = withLog w (ioLog w ++ [EvStat path])
  /\ r = match fs w !! path with
         | Some node => Ok node
         | None => Throw (IOError path)
         end.
Proof.
  unfold fs_stat, bind, logEvent. destruct w as [p f wr now tree log]. cbn.
  destruct (tree !! path); intros H; injection H as <- <-;
    split; reflexivity.
Qed.

Lemma fs_readdir_frame (path : string) (w : World)
    (r : outcome (list string)) (w' : World) :
  fs_readdir path w = (r, w') ->
  w' = withLog w (ioLog w ++ [EvReaddir path])
  /\ r = match fs w !! path with
         | Some (DirNode items) => Ok items
         | _ => Throw (IOError path)
         end.
Proof.
  unfold fs_readdir, bind, logEvent. destruct w as [p f wr now tree log]. cbn.
  destruct (tree !! path) as [[| |]|]; intros H; injection H as <- <-;
    split; reflexivity.
Qed.

Section Walk.

Variable gitignoreSpec : option (string -> bool).
Variable includePatterns excludePatterns : option (list string).
Variable rootDir : string.
Variable useRelativePaths : bool.

(** The walk changes the log only, whether it resolves or rejects. *)
Lemma collectFilePaths_frame (depth : nat) :
  forall (cur : string) (pending : list PendingFile) (w : World)
         (r : outcome (list PendingFile)) (w' : World),
    collectFilePaths minimatch gitignoreSpec includePatterns excludePatterns
      depth rootDir cur useRelativePaths pending w = (r, w') ->
    extendsLog w w'.
Proof.
  induction depth as [|depth IH]; intros cur pending w r w' Hrun.
  - injection Hrun as <- <-. apply extendsLog_refl.
  - cbn [collectFilePaths] in Hrun. unfold bind at 1 in Hrun.
    destruct (fs_readdir cur w) as [[items|e] w1] eqn:Hrd.
    + apply fs_readdir_frame in Hrd. destruct Hrd as [-> _].
      eapply extendsLog_trans; [apply extendsLog_withLog|].
      eapply (forEachM_frame extendsLog); [apply extendsLog_refl
        |apply extendsLog_trans| |exact Hrun].
      intros item s w0 r0 w0' _ Hbody.
      unfold bind at 1 in Hbody.
      destruct (fs_stat (path_join cur item) w0) as [[stats|e] w2] eqn:Hst.
      * apply fs_stat_frame in Hst. destruct Hst as [-> _].
        eapply extendsLog_trans; [apply extendsLog_withLog|].
        destruct (isDirectory stats && negb _).
        -- exact (IH _ _ _ _ _ Hbody).
        -- destruct (negb (isFile stats) || _);
             [injection Hbody as <- <-; apply extendsLog_refl|].
           destruct (negb _);
             injection Hbody as <- <-; apply extendsLog_refl.
      * apply fs_stat_frame in Hst. destruct Hst as [-> _].
        injection Hbody as <- <-. apply extendsLog_withLog.
    + apply fs_readdir_frame in Hrd. destruct Hrd as [-> _].
      injection Hrun as <- <-. apply extendsLog_withLog.
Qed.

End Walk.

(** One candidate of a crawl without the cache. *)
Lemma processFile_full
    (progressCallback : option (nat -> nat -> string -> option jsError))
    (maxFileSize : option Z) (workspaceId : option string)
    (totalFiles i : nat) (fileInfo : PendingFile)
    (index unchangedCount : nat) (w : World) :
  exists log',
    processFile JSON_parse md5 progressCallback maxFileSize false
      workspaceId totalFiles i fileInfo index unchangedCount w
    = (Ok (emittedRecord progressCallback maxFileSize (fs w) totalFiles
             (i + index) fileInfo, unchangedCount),
       withLog w (ioLog w ++ log')).
Proof.
  destruct w as [path file writable now tree log].
  unfold processFile, emittedRecord. cbn [andb fs].
  unfold try_catch. unfold bind at 1.
  destruct (match progressCallback with
            | Some callback => callback (i + index) totalFiles
                                 (pfPath fileInfo)
            | None => None
            end) as [err|] eqn:Hcb.
  - exists []. rewrite app_nil_r.
    destruct progressCallback as [callback|]; [|discriminate Hcb].
    rewrite Hcb. reflexivity.
  - assert (Hpre : match progressCallback with
                   | Some callback =>
                       match callback (i + index) totalFiles
                               (pfPath fileInfo) with
                       | Some e => throw e
                       | None => ret tt
                       end
                   | None => ret tt
                   end = (ret tt : M unit)).
    { destruct progressCallback as [callback|]; [rewrite Hcb|]; reflexivity. }
    rewrite Hpre. unfold ret at 1.
    unfold bind at 1, fs_stat, bind at 1, logEvent. cbn.
    destruct (tree !! pfPath fileInfo) as [stats|] eqn:Hst.
    + destruct (tooLarge maxFileSize stats) eqn:Hbig.
      * exists [EvStat (pfPath fileInfo)]. unfold ret.
        destruct stats as [size [content|]| |]; try reflexivity.
        rewrite Hbig. reflexivity.
      * unfold bind at 1, ret at 1. cbn [negb].
        unfold bind at 1, fs_readFile, bind at 1, logEvent. cbn.
        unfold readResult. cbn. rewrite Hst.
        destruct stats as [size [content|]| |].
        -- exists [EvStat (pfPath fileInfo); EvReadFile (pfPath fileInfo)].
           rewrite Hbig. unfold bind, ret. cbn.
           rewrite <- app_assoc. reflexivity.
        -- exists [EvStat (pfPath fileInfo); EvReadFile (pfPath fileInfo)].
           unfold ret. rewrite <- app_assoc. reflexivity.
        -- exists [EvStat (pfPath fileInfo); EvReadFile (pfPath fileInfo)].
           unfold ret. rewrite <- app_assoc. reflexivity.
        -- exists [EvStat (pfPath fileInfo); EvReadFile (pfPath fileInfo)].
           unfold ret. rewrite <- app_assoc. reflexivity.
    + exists [EvStat (pfPath fileInfo)]. reflexivity.
Qed.

(** *** Batches *)

Lemma emittedRecords_app
    (progressCallback : option (nat -> nat -> string -> option jsError))
    (maxFileSize : option Z) (tree : gmap string fsnode) (totalFiles : nat)
    (l1 l2 : list PendingFile) :
  forall position,
    emittedRecords progressCallback maxFileSize tree totalFiles position
                   (l1 ++ l2)
    = emittedRecords progressCallback maxFileSize tree totalFiles position l1
      ++ emittedRecords progressCallback maxFileSize tree totalFiles
                        (position + length l1) l2.
Proof.
  induction l1 as [|e l1 IH]; intros position.
  - cbn. rewrite Nat.add_0_r. reflexivity.
  - cbn [app emittedRecords length]. rewrite IH.
    replace (S position + length l1) with (position + S (length l1)) by lia.
    destruct (emittedRecord _ _ _ _ _ e); reflexivity.
Qed.

Lemma firstn_plus {A : Type} (n m : nat) :
  forall l : list A, firstn (n + m) l = firstn n l ++ firstn m (skipn n l).
Proof.
  induction n as [|n IH]; intros l; [reflexivity|].
  destruct l as [|x l]; cbn [Nat.add firstn skipn app].
  - rewrite firstn_nil. reflexivity.
  - rewrite IH. reflexivity.
Qed.

(** Consecutive slices of width [b] make up the list; positions go on
    from one slice to the next. *)
Lemma emittedRecords_slices
    (progressCallback : option (nat -> nat -> string -> option jsError))
    (maxFileSize : option Z) (tree : gmap string fsnode) (totalFiles : nat)
    (b a k : nat) (l : list PendingFile) :
  emittedRecords progressCallback maxFileSize tree totalFiles (b * a)
                 (firstn b (skipn (b * a) l))
  ++ emittedRecords progressCallback maxFileSize tree totalFiles (b * S a)
                    (firstn (b * k) (skipn (b * S a) l))
  = emittedRecords progressCallback maxFileSize tree totalFiles (b * a)
                   (firstn (b * S k) (skipn (b * a) l)).
Proof.
  replace (b * S k) with (b + b * k) by lia.
  rewrite firstn_plus, emittedRecords_app.
  rewrite skipn_skipn.
  replace (b + b * a) with (b * S a) by lia.
  destruct (Nat.le_gt_cases b (length (skipn (b * a) l))) as [Hle|Hlt].
  - rewrite length_firstn, Nat.min_l by exact Hle.
    replace (b * a + b) with (b * S a) by lia. reflexivity.
  - assert (Hnil : skipn (b * S a) l = []).
    { apply skipn_all2. rewrite length_skipn in Hlt. lia. }
    rewrite Hnil, firstn_nil. reflexivity.
Qed.

(** One batch of a crawl without the cache. *)
Lemma processBatch_full
    (progressCallback : option (nat -> nat -> string -> option jsError))
    (maxFileSize : option Z) (workspaceId : option string)
    (totalFiles i : nat) (batch : list PendingFile) :
  forall (index unchangedCount : nat) (w : World),
  exists results,
    (exists w', processBatch JSON_parse md5 progressCallback maxFileSize
                  false workspaceId totalFiles i batch index unchangedCount w
                = (Ok (results, unchangedCount), w')
                /\ extendsLog w w')
    /\ filterBoolean results
       = emittedRecords progressCallback maxFileSize (fs w) totalFiles
                        (i + index) batch.
Proof.
  induction batch as [|e batch IH]; intros index unchangedCount w.
  - exists []. split; [|reflexivity].
    exists w. split; [reflexivity|apply extendsLog_refl].
  - destruct (processFile_full progressCallback maxFileSize workspaceId
                totalFiles i e index unchangedCount w) as [log1 Hfile].
    destruct (IH (S index) unchangedCount (withLog w (ioLog w ++ log1)))
      as (results & (w' & Hrest & Hext) & Hrec).
    exists (emittedRecord progressCallback maxFileSize (fs w) totalFiles
              (i + index) e :: results).
    split.
    + exists w'. split.
      * cbn [processBatch]. unfold bind at 1. rewrite Hfile.
        cbn [fst snd]. unfold bind at 1. rewrite Hrest. reflexivity.
      * eapply extendsLog_trans; [apply extendsLog_withLog|exact Hext].
    + cbn [emittedRecords]. unfold filterBoolean in *.
      replace (S (i + index)) with (i + S index) by lia.
      change (fs (withLog w (ioLog w ++ log1))) with (fs w) in Hrec.
      rewrite <- Hrec.
      destruct (emittedRecord _ _ _ _ _ e); reflexivity.
Qed.

(** The loop over the batches of a crawl without the cache. *)
Lemma batches_full
    (progressCallback : option (nat -> nat -> string -> option jsError))
    (maxFileSize : option Z) (workspaceId : option string)
    (pendingFiles : list PendingFile) (k : nat) :
  forall (a : nat) (acc : list FileInfo * nat) (w : World),
  exists w',
    forEachM (map (Nat.mul batchSize) (seq a k)) acc
      (fun i acc =>
         let batch := slice i (i + batchSize) pendingFiles in
         results <- processBatch JSON_parse md5 progressCallback maxFileSize
                      false workspaceId (length pendingFiles) i batch 0
                      acc.2 ;;
         ret (acc.1 ++ filterBoolean results.1, results.2)) w
    = (Ok (acc.1
           ++ emittedRecords progressCallback maxFileSize (fs w)
                (length pendingFiles) (batchSize * a)
                (firstn (batchSize * k)
                        (skipn (batchSize * a) pendingFiles)),
           acc.2), w')
    /\ extendsLog w w'.
Proof.
  induction k as [|k IH]; intros a acc w.
  - exists w. split; [|apply extendsLog_refl].
    rewrite Nat.mul_0_r. cbn. rewrite app_nil_r. destruct acc; reflexivity.
  - destruct (processBatch_full progressCallback maxFileSize workspaceId
                (length pendingFiles) (batchSize * a)
                (slice (batchSize * a) (batchSize * a + batchSize)
                       pendingFiles) 0 acc.2 w)
      as (results & (w1 & Hbatch & Hext1) & Hrec).
    destruct (IH (S a) (acc.1 ++ filterBoolean results, acc.2) w1)
      as (w' & Hrest & Hext2).
    exists w'. split; [|eapply extendsLog_trans; eassumption].
    match goal with
    | |- context [forEachM _ _ ?b] => set (body := b) in *
    end.
    cbn [seq map forEachM].
    assert (Hhead : body (batchSize * a) acc w
                    = (Ok (acc.1 ++ filterBoolean results, acc.2), w1)).
    { unfold body. cbv zeta. unfold bind. rewrite Hbatch. reflexivity. }
    unfold bind at 1. rewrite Hhead, Hrest. cbn [fst snd].
    rewrite (extendsLog_fs _ _ Hext1). rewrite Hrec.
    rewrite Nat.add_0_r. unfold slice.
    replace (batchSize * a + batchSize - batchSize * a) with batchSize by lia.
    rewrite <- app_assoc, emittedRecords_slices. reflexivity.
Qed.

Lemma batchStarts_cover (n : nat) :
  n <= batchSize * ((n + (batchSize - 1)) / batchSize).
Proof.
  unfold batchSize.
  pose proof (Nat.div_mod_eq (n + (50 - 1)) 50) as Hdiv.
  pose proof (Nat.mod_upper_bound (n + (50 - 1)) 50) as Hmod.
  lia.
Qed.

(** *** The crawl without the cache, phase by phase *)

Lemma loadGitignore_frame (directory : string) (w : World) :
  exists spec w1,
    loadGitignore ignore_add directory w = (Ok spec, w1) /\ extendsLog w w1.
Proof.
  destruct (CrawlerSpec.loadGitignore_run ignore_add directory w)
    as (spec & log' & Hrun).
  exists spec. eexists. split; [exact Hrun|apply extendsLog_withLog].
Qed.

Lemma crawl_full_run (depth : nat) (directory : string)
    (includePatterns excludePatterns : option (list string))
    (maxFileSize : option Z) (useRelativePaths : bool)
    (progressCallback : option (nat -> nat -> string -> option jsError))
    (workspaceId : option string) (w : World)
    (r : outcome CrawlResult) (w' : World) :
  crawlLocalFilesAsync JSON_parse md5 minimatch ignore_add depth directory
    includePatterns excludePatterns maxFileSize useRelativePaths
    progressCallback false workspaceId w = (r, w') ->
  extendsLog w w'
  /\ match fs w !! directory with
     | Some (DirNode _) =>
         exists spec w1,
           loadGitignore ignore_add directory w = (Ok spec, w1)
           /\ match collectFilePaths minimatch spec includePatterns
                      excludePatterns depth directory directory
                      useRelativePaths [] w1 with
              | (Ok pendingFiles, _) =>
                  r = Ok (mkResult
                            (emittedRecords progressCallback maxFileSize
                               (fs w) (length pendingFiles) 0 pendingFiles)
                            None)
              | (Throw e, _) => r = Throw e
              end
     | _ => r = Throw (DirectoryDoesNotExist directory)
     end.
Proof.
  intros Hrun. unfold crawlLocalFilesAsync in Hrun.
  destruct (fs w !! directory) as [[size content|items|]|] eqn:Hdir;
    try (injection Hrun as <- <-; split;
         [apply extendsLog_refl|reflexivity]).
  destruct (loadGitignore_frame directory w) as (spec & w1 & Hload & Hext1).
  unfold bind at 1 in Hrun. rewrite Hload in Hrun.
  unfold bind at 1 in Hrun.
  destruct (collectFilePaths minimatch spec includePatterns excludePatterns
              depth directory directory useRelativePaths [] w1)
    as [[pendingFiles|e] w2] eqn:Hwalk.
  - pose proof (collectFilePaths_frame _ _ _ _ _ _ _ _ _ _ _ Hwalk) as Hext2.
    cbv zeta in Hrun. cbn [andb] in Hrun. unfold batchStarts in Hrun.
    destruct (batches_full progressCallback maxFileSize workspaceId
                pendingFiles
                ((length pendingFiles + (batchSize - 1)) / batchSize) 0
                ([], 0) w2) as (w3 & Hloop & Hext3).
    cbv zeta in Hloop. rewrite Nat.mul_0_r in Hloop.
    cbn [fst snd app skipn] in Hloop.
    rewrite firstn_all2 in Hloop by apply batchStarts_cover.
    rewrite (extendsLog_fs _ _ Hext2), (extendsLog_fs _ _ Hext1) in Hloop.
    unfold bind at 1 in Hrun. rewrite Hloop in Hrun.
    unfold ret in Hrun. cbn [fst snd] in Hrun. injection Hrun as <- <-.
    split.
    + eapply extendsLog_trans; [exact Hext1|].
      eapply extendsLog_trans; [exact Hext2|exact Hext3].
    + exists spec, w1. split; [exact Hload|]. rewrite Hwalk. reflexivity.
  - injection Hrun as <- <-. split.
    + eapply extendsLog_trans; [exact Hext1|].
      exact (collectFilePaths_frame _ _ _ _ _ _ _ _ _ _ _ Hwalk).
    + exists spec, w1. split; [exact Hload|]. rewrite Hwalk. reflexivity.
Qed.

(** *** What the records say *)

Lemma emittedRecord_Some
    (progressCallback : option (nat -> nat -> string -> option jsError))
    (maxFileSize : option Z) (tree : gmap string fsnode)
    (totalFiles position : nat) (e : PendingFile) (f : FileInfo) :
  emittedRecord progressCallback maxFileSize tree totalFiles position e
    = Some f <->
  (forall callback, progressCallback = Some callback ->
                    callback position totalFiles (pfPath e) = None)
  /\ fiPath f = relativePath e
  /\ exists size,
       tree !! pfPath e = Some (FileNode size (Some (fiContent f)))
       /\ tooLarge maxFileSize (FileNode size (Some (fiContent f))) = false.
Proof.
  unfold emittedRecord. split.
  - intros H.
    destruct (match progressCallback with
              | Some callback => callback position totalFiles (pfPath e)
              | None => None
              end) as [err|] eqn:Hcb; [discriminate H|].
    destruct (tree !! pfPath e) as [[size [content|]| |]|];
      try discriminate H.
    destruct (tooLarge _ _) eqn:Hbig; [discriminate H|].
    injection H as <-. cbn. split; [|split; [reflexivity|]].
    + intros callback ->. exact Hcb.
    + exists size. split; [reflexivity|exact Hbig].
  - intros (Hcb & Hpath & size & Htree & Hbig).
    assert (Hcb' : match progressCallback with
                   | Some callback => callback position totalFiles (pfPath e)
                   | None => None
                   end = None).
    { destruct progressCallback as [callback|]; [|reflexivity].
      apply Hcb. reflexivity. }
    rewrite Hcb', Htree, Hbig. destruct f as [p c]. cbn in *.
    rewrite Hpath. reflexivity.
Qed.

Lemma emittedRecords_In
    (progressCallback : option (nat -> nat -> string -> option jsError))
    (maxFileSize : option Z) (tree : gmap string fsnode) (totalFiles : nat)
    (f : FileInfo) (l : list PendingFile) :
  forall position,
    In f (emittedRecords progressCallback maxFileSize tree totalFiles
                         position l) <->
    exists k e, l !! k = Some e
                /\ emittedRecord progressCallback maxFileSize tree totalFiles
                                 (position + k) e = Some f.
Proof.
  induction l as [|e l IH]; intros position.
  - cbn. split; [contradiction|]. intros (k & e & Hk & _).
    rewrite lookup_nil in Hk. discriminate Hk.
  - cbn [emittedRecords]. split.
    + intros Hin.
      destruct (emittedRecord _ _ _ _ position e) as [f0|] eqn:He.
      * destruct Hin as [<-|Hin].
        -- exists 0, e. rewrite Nat.add_0_r. split; [reflexivity|exact He].
        -- apply IH in Hin. destruct Hin as (k & e' & Hk & Hrec).
           exists (S k), e'. split; [exact Hk|].
           replace (position + S k) with (S position + k) by lia. exact Hrec.
      * apply IH in Hin. destruct Hin as (k & e' & Hk & Hrec).
        exists (S k), e'. split; [exact Hk|].
        replace (position + S k) with (S position + k) by lia. exact Hrec.
    + intros (k & e' & Hk & Hrec).
      destruct k as [|k].
      * cbn in Hk. injection Hk as <-. rewrite Nat.add_0_r in Hrec.
        rewrite Hrec. left. reflexivity.
      * cbn in Hk.
        assert (Hin : In f (emittedRecords progressCallback maxFileSize tree
                              totalFiles (S position) l)).
        { apply IH. exists k, e'. split; [exact Hk|].
          replace (S position + k) with (position + S k) by lia.
          exact Hrec. }
        destruct (emittedRecord _ _ _ _ position e);
          [right; exact Hin|exact Hin].
Qed.

Lemma emittedRecords_length
    (progressCallback : option (nat -> nat -> string -> option jsError))
    (maxFileSize : option Z) (tree : gmap string fsnode) (totalFiles : nat)
    (l : list PendingFile) :
  forall position,
    length (emittedRecords progressCallback maxFileSize tree totalFiles
                           position l) <= length l.
Proof.
  induction l as [|e l IH]; intros position; [reflexivity|].
  cbn [emittedRecords length]. specialize (IH (S position)).
  destruct (emittedRecord _ _ _ _ position e); cbn [length]; lia.
Qed.

(** X9.  A crawl without the cache returns, in the order of the walk, one
    record for each candidate that the callback lets pass, that can be
    examined and read and that is within the size limit, and nothing else:
    batching neither drops nor repeats nor reorders.  It reports no count
    of unchanged files and changes nothing but the log. *)
Theorem full_crawl_returns_every_readable_candidate
    (depth : nat) (directory : string)
    (includePatterns excludePatterns : option (list string))
    (maxFileSize : option Z) (useRelativePaths : bool)
    (progressCallback : option (nat -> nat -> string -> option jsError))
    (workspaceId : option string) (w : World)
    (result : CrawlResult) (w' : World) :
  crawlLocalFilesAsync JSON_parse md5 minimatch ignore_add depth directory
    includePatterns excludePatterns maxFileSize useRelativePaths
    progressCallback false workspaceId w = (Ok result, w') ->
  exists spec w1 pendingFiles w2,
    loadGitignore ignore_add directory w = (Ok spec, w1)
    /\ collectFilePaths minimatch spec includePatterns excludePatterns depth
         directory directory useRelativePaths [] w1 = (Ok pendingFiles, w2)
    /\ files result
       = emittedRecords progressCallback maxFileSize (fs w)
                        (length pendingFiles) 0 pendingFiles
    /\ unchanged result = None
    /\ length (files result) <= length pendingFiles
    /\ extendsLog w w'.
Proof.
  intros Hrun.
  destruct (crawl_full_run _ _ _ _ _ _ _ _ _ _ _ Hrun) as [Hext Hcase].
  destruct (fs w !! directory) as [[| |]|]; try discriminate Hcase.
  destruct Hcase as (spec & w1 & Hload & Hwalk).
  destruct (collectFilePaths minimatch spec includePatterns excludePatterns
              depth directory directory useRelativePaths [] w1)
    as [[pendingFiles|e] w2] eqn:Hcollect; [|discriminate Hwalk].
  injection Hwalk as ->.
  exists spec, w1, pendingFiles, w2.
  split; [exact Hload|]. split; [exact Hcollect|]. split; [reflexivity|].
  split; [reflexivity|]. split; [apply emittedRecords_length|exact Hext].
Qed.

(** *** [FetchRepoNode.exec] on top of the crawl *)

Lemma exec_run (depth : nat) (cancelledAt : nat -> bool)
    (preRes : SharedStore) (w : World) :
  FetchRepoNode_exec JSON_parse md5 minimatch ignore_add depth false
    cancelledAt preRes w
  = match crawlLocalFilesAsync JSON_parse md5 minimatch ignore_add depth
            (localDir preRes) (sharedInclude preRes) (sharedExclude preRes)
            (option_map (Z.mul 1024) (sharedMaxFileSize preRes)) true
            (Some (execCallback cancelledAt)) false None w with
    | (Ok result, w') =>
        if Nat.eqb (length (files result)) 0
        then (Throw (NoFilesFound (localDir preRes)), w')
        else (Ok (files result), w')
    | (Throw e, w') => (Throw e, w')
    end.
Proof.
  unfold FetchRepoNode_exec, bind.
  destruct (crawlLocalFilesAsync _ _ _ _ _ _ _ _ _ _ _ _ _ w)
    as [[result|e] w']; [|reflexivity].
  destruct (Nat.eqb _ 0); reflexivity.
Qed.

(** X10.  What [exec] resolves with: a list that is not empty, each element
    of which is the record of a candidate of the walk, at some position of
    the list of candidates.  The element carries the path of that
    candidate, relative to [localDir], and the content of the regular file
    the tree has there, whose size is at most [maxFileSize] KiB (when that
    limit is set and not zero); and the callback of that candidate, called
    with its position, saw no cancellation. *)
Theorem exec_returns_disk_content_within_limit
    (depth : nat) (cancelledAt : nat -> bool) (preRes : SharedStore)
    (w : World) (fileList : list FileInfo) (w' : World) :
  FetchRepoNode_exec JSON_parse md5 minimatch ignore_add depth false
    cancelledAt preRes w = (Ok fileList, w') ->
  fileList <> []
  /\ exists spec w1 pendingFiles w2,
       loadGitignore ignore_add (localDir preRes) w = (Ok spec, w1)
       /\ collectFilePaths minimatch spec (sharedInclude preRes)
            (sharedExclude preRes) depth (localDir preRes) (localDir preRes)
            true [] w1 = (Ok pendingFiles, w2)
       /\ forall f, In f fileList ->
            exists (position : nat) (e : PendingFile) (size : Z),
              pendingFiles !! position = Some e
              /\ execCallback cancelledAt position (length pendingFiles)
                   (pfPath e) = None
              /\ cancelledAt position = false
              /\ fiPath f = path_relative (localDir preRes) (pfPath e)
              /\ fs w !! pfPath e
                 = Some (FileNode size (Some (fiContent f)))
              /\ (forall m, sharedMaxFileSize preRes = Some m ->
                            m <> 0%Z -> (size <= 1024 * m)%Z).
Proof.
  intros Hexec. rewrite exec_run in Hexec.
  destruct (crawlLocalFilesAsync _ _ _ _ _ _ _ _ _ _ _ _ _ w)
    as [[result|e] w1] eqn:Hcrawl; [|discriminate Hexec].
  destruct (Nat.eqb (length (files result)) 0) eqn:Hlen;
    [discriminate Hexec|].
  injection Hexec as <- <-.
  split.
  { intros Hnil. rewrite Hnil in Hlen. discriminate Hlen. }
  destruct (crawl_full_run _ _ _ _ _ _ _ _ _ _ _ Hcrawl) as [_ Hcase].
  destruct (fs w !! localDir preRes) as [[| |]|]; try discriminate Hcase.
  destruct Hcase as (spec & w1' & Hload & Hwalk).
  destruct (collectFilePaths minimatch spec (sharedInclude preRes)
              (sharedExclude preRes) depth (localDir preRes)
              (localDir preRes) true [] w1')
    as [[pendingFiles|e] w2] eqn:Hcollect; [|discriminate Hwalk].
  injection Hwalk as ->. cbn [files].
  exists spec, w1', pendingFiles, w2.
  split; [exact Hload|]. split; [exact Hcollect|].
  intros f Hin. apply emittedRecords_In in Hin.
  destruct Hin as (k & e & Hk & Hrec).
  apply emittedRecord_Some in Hrec. cbn [Nat.add] in Hrec.
  destruct Hrec as (Hcb & Hpath & size & Htree & Hbig).
  assert (Hin : In e pendingFiles).
  { apply list_elem_of_In. eapply list_elem_of_lookup_2. exact Hk. }
  destruct (CrawlerSpec.collectFilePaths_candidates _ _ _ _ _ _ _ _ _ _ _ _
              Hcollect e Hin) as [[]|(Hrel & _ & _)].
  specialize (Hcb _ eq_refl).
  exists k, e, size.
  split; [exact Hk|]. split; [exact Hcb|]. split.
  { unfold execCallback in Hcb.
    destruct (cancelledAt k); [discriminate Hcb|reflexivity]. }
  split; [rewrite Hpath, Hrel; reflexivity|].
  split; [exact Htree|].
  intros m Hm Hne. rewrite Hm in Hbig. cbn in Hbig.
  destruct (Z.eqb_spec (1024 * m) 0) as [H0|_]; [lia|].
  cbn in Hbig. apply Z.ltb_ge in Hbig. exact Hbig.
Qed.

Lemma emittedRecords_all_dropped
    (progressCallback : option (nat -> nat -> string -> option jsError))
    (maxFileSize : option Z) (tree : gmap string fsnode) (totalFiles : nat)
    (l : list PendingFile) :
  (forall position e,
     emittedRecord progressCallback maxFileSize tree totalFiles position e
     = None) ->
  forall position,
    emittedRecords progressCallback maxFileSize tree totalFiles position l
    = [].
Proof.
  intros Hnone. induction l as [|e l IH]; intros position; [reflexivity|].
  cbn [emittedRecords]. rewrite Hnone. apply IH.
Qed.

(** X11.  Cancellation seen by the callback is swallowed: once [exec] has
    passed its first check it never rejects with the cancellation error.
    A candidate whose callback throws is dropped and the crawl goes on, so
    that a token cancelled throughout ends in the error of the empty
    result (or in an error of the walk). *)
Theorem cancellation_in_the_callback_is_swallowed
    (depth : nat) (cancelledAt : nat -> bool) (preRes : SharedStore)
    (w : World) (r : outcome (list FileInfo)) (w' : World) :
  FetchRepoNode_exec JSON_parse md5 minimatch ignore_add depth false
    cancelledAt preRes w = (r, w') ->
  r <> Throw OperationCancelled
  /\ ((forall position, cancelledAt position = true) ->
      exists e, r = Throw e
                /\ (e = NoFilesFound (localDir preRes)
                    \/ e = DirectoryDoesNotExist (localDir preRes)
                    \/ exists p, e = IOError p)).
Proof.
  intros Hexec. rewrite exec_run in Hexec.
  destruct (crawlLocalFilesAsync _ _ _ _ _ _ _ _ _ _ _ _ _ w)
    as [[result|e] w1] eqn:Hcrawl.
  - destruct (crawl_full_run _ _ _ _ _ _ _ _ _ _ _ Hcrawl) as [_ Hcase].
    destruct (fs w !! localDir preRes) as [[| |]|]; try discriminate Hcase.
    destruct Hcase as (spec & w1' & _ & Hwalk).
    destruct (collectFilePaths minimatch spec (sharedInclude preRes)
                (sharedExclude preRes) depth (localDir preRes)
                (localDir preRes) true [] w1')
      as [[pendingFiles|e] w2] eqn:Hcollect; [|discriminate Hwalk].
    injection Hwalk as ->. cbn [files] in Hexec.
    split.
    + destruct (Nat.eqb _ 0); injection Hexec as <- <-; discriminate.
    + intros Hall.
      rewrite emittedRecords_all_dropped in Hexec.
      * injection Hexec as <- <-. eexists. split; [reflexivity|].
        left. reflexivity.
      * intros position e0. unfold emittedRecord, execCallback.
        rewrite Hall. reflexivity.
  - injection Hexec as <- <-.
    destruct (CrawlerSpec.crawl_throws _ _ _ _ _ _ _ _ _ _ _ _ _ _ _ _
                Hcrawl) as [->|[p ->]].
    + split; [discriminate|]. intros _. eexists. split; [reflexivity|].
      right. left. reflexivity.
    + split; [discriminate|]. intros _. eexists. split; [reflexivity|].
      right. right. exists p. reflexivity.
Qed.

(** *** Rejections of the crawl *)


(** *** One candidate in incremental mode *)

Lemma bind_eq {A B : Type} (m : M A) (k : A -> M B) (w : World)
    (r : outcome A) (w1 : World) :
  m w = (r, w1) ->
  bind m k w = match r with
               | Ok a => k a w1
               | Throw e => (Throw e, w1)
               end.
Proof. intros H. unfold bind. rewrite H. destruct r; reflexivity. Qed.

Lemma fs_stat_run (path : string) (w : World) :
  fs_stat path w
  = (match fs w !! path with
     | Some node => Ok node
     | None => Throw (IOError path)
     end, withLog w (ioLog w ++ [EvStat path])).
Proof.
  destruct (fs_stat path w) as [r w'] eqn:H. apply fs_stat_frame in H.
  destruct H as [-> ->]. reflexivity.
Qed.

Lemma processFile_incremental
    (progressCallback : option (nat -> nat -> string -> option jsError))
    (maxFileSize : option Z) (ws : string) (totalFiles i : nat)
    (fileInfo : PendingFile) (index unchangedCount : nat) (w : World)
    (doc : FileHashCache) :
  ws <> "" ->
  readFileHashCache JSON_parse w = (Ok doc, w) ->
  let p := pfPath fileInfo in
  let passes := match progressCallback with
                | Some callback => callback (i + index) totalFiles p
                | None => None
                end = None in
  exists res count' w',
    processFile JSON_parse md5 progressCallback maxFileSize true (Some ws)
      totalFiles i fileInfo index unchangedCount w = (Ok (res, count'), w')
    /\ ((res = None
         /\ unchangedCount <= count' <= S unchangedCount
         /\ (exists log, w' = withLog w log)
         /\ (passes -> settled md5 maxFileSize ws (fs w) doc p))
        \/ (exists size content log,
              res = Some (mkFileInfo (relativePath fileInfo) content)
              /\ count' = unchangedCount
              /\ passes
              /\ fs w !! p = Some (FileNode size (Some content))
              /\ tooLarge maxFileSize (FileNode size (Some content)) = false
              /\ (forall entry, lookupEntry doc ws p = Some entry ->
                                hash entry <> md5 content)
              /\ writeFileHashCache
                   (<[ws := <[p := mkEntry (md5 content) (clock w)]>
                              (default ∅ (doc !! ws))]> doc)
                   (withLog w log) = (Ok tt, w'))).
Proof.
  intros Hws Hread. cbv zeta. set (p := pfPath fileInfo).
  assert (Htruthy : truthy (Some ws) = true).
  { cbn. apply negb_true_iff, String.eqb_neq, Hws. }
  unfold processFile. rewrite Htruthy. cbn [andb default from_option id].
  fold p. unfold try_catch.
  destruct (match progressCallback with
            | Some callback => callback (i + index) totalFiles p
            | None => None
            end) as [err|] eqn:Hcb.
  { (* the callback throws *)
    exists None, unchangedCount, w. split.
    - unfold bind at 1.
      destruct progressCallback as [callback|]; [|discriminate Hcb].
      rewrite Hcb. reflexivity.
    - left. split; [reflexivity|]. split; [lia|]. split.
      + exists (ioLog w). destruct w; reflexivity.
      + intros H. discriminate H. }
  assert (Hpre : match progressCallback with
                 | Some callback =>
                     match callback (i + index) totalFiles p with
                     | Some e => throw e
                     | None => ret tt
                     end
                 | None => ret tt
                 end = (ret tt : M unit)).
  { destruct progressCallback as [callback|]; [rewrite Hcb|]; reflexivity. }
  rewrite Hpre. unfold bind at 1, ret at 1.
  rewrite (bind_eq _ _ _ _ _ (fs_stat_run p w)).
  set (w1 := withLog w (ioLog w ++ [EvStat p])).
  assert (Hread1 : readFileHashCache JSON_parse w1 = (Ok doc, w1))
    by (apply HashCacheLaws.readFileHashCache_log, Hread).
  destruct (fs w !! p) as [stats|] eqn:Hnode.
  2:{ (* stat rejects *)
    exists None, unchangedCount, w1. split; [reflexivity|].
    left. split; [reflexivity|]. split; [lia|]. split.
    - eexists; reflexivity.
    - intros _. unfold settled. rewrite Hnode. exact I. }
  destruct (tooLarge maxFileSize stats) eqn:Hbig.
  { (* over the limit *)
    exists None, unchangedCount, w1. split; [reflexivity|].
    left. split; [reflexivity|]. split; [lia|]. split.
    - eexists; reflexivity.
    - intros _. unfold settled. rewrite Hnode.
      destruct stats as [size [content|]| |]; try exact I.
      left. exact Hbig. }
  pose proof (CrawlerSpec.hasFileChanged_run JSON_parse md5 ws p w1 doc
                Hread1) as Hchk.
  fold (lookupEntry doc ws p) in Hchk.
  assert (Hres1 : readResult w1 p = readResult w p) by reflexivity.
  assert (Hnode' : readResult w p
                   = match stats with
                     | FileNode _ (Some content) => Ok content
                     | _ => Throw (IOError p)
                     end).
  { unfold readResult. rewrite Hnode. reflexivity. }
  destruct (lookupEntry doc ws p) as [entry|] eqn:Hentry.
  - (* an entry is stored *)
    rewrite Hres1, Hnode' in Hchk.
    set (w2 := withLog w1 (ioLog w1 ++ [EvReadFile p])) in *.
    destruct stats as [size [content|]| |];
      rewrite (bind_eq _ _ _ _ _ Hchk).
    + destruct (String.eqb (md5 content) (hash entry)) eqn:Hsame.
      * (* unchanged *)
        cbn [negb].
        exists None, (S unchangedCount), w2. split; [reflexivity|].
        left. split; [reflexivity|]. split; [lia|]. split.
        -- eexists; reflexivity.
        -- intros _. unfold settled. rewrite Hnode. right.
           exists entry. split; [exact Hentry|].
           symmetry. apply String.eqb_eq, Hsame.
      * (* changed *)
        cbn [negb].
        rewrite (bind_eq _ _ _ _ _ (CrawlerSpec.fs_readFile_run p w2)).
        assert (Hr2 : readResult w2 p = Ok content)
          by (unfold readResult; cbn; rewrite Hnode; reflexivity).
        rewrite Hr2.
        set (w3 := withLog w2 (ioLog w2 ++ [EvReadFile p])).
        assert (Hread3 : readFileHashCache JSON_parse w3 = (Ok doc, w3)).
        { apply HashCacheLaws.readFileHashCache_log.
          apply HashCacheLaws.readFileHashCache_log. exact Hread1. }
        unfold bind at 1.
        rewrite (HashCacheLaws.updateFileHash_run JSON_parse md5 ws p
                   (Some content) w3 doc Hread3).
        destruct (HashCacheLaws.calculateFileHash_frame md5 p (Some content)
                    w3) as [log4 Hcalc].
        assert (Hr3 : readResult w3 p = Ok content)
          by (unfold readResult; cbn; rewrite Hnode; reflexivity).
        rewrite Hr3 in Hcalc.
        assert (Hdigest : (if String.eqb content ""
                           then Ok (md5 content) else Ok (md5 content))
                          = (Ok (md5 content) : outcome string))
          by (destruct (String.eqb content ""); reflexivity).
        rewrite Hdigest in Hcalc. rewrite Hcalc.
        destruct (CrawlerSpec.writeFileHashCache_log
                    (<[ws := <[p := mkEntry (md5 content)
                                      (clock (withLog w3 log4))]>
                               (default ∅ (doc !! ws))]> doc)
                    (withLog w3 log4)) as (w5 & Hwrite & _).
        rewrite Hwrite.
        exists (Some (mkFileInfo (relativePath fileInfo) content)),
               unchangedCount, w5.
        split; [reflexivity|]. right.
        exists size, content, log4.
        split; [reflexivity|]. split; [reflexivity|].
        split; [reflexivity|]. split; [reflexivity|]. split; [exact Hbig|].
        split.
        -- intros entry' He Hh. injection He as <-.
           rewrite Hh, String.eqb_refl in Hsame. discriminate Hsame.
        -- exact Hwrite.
    + (* the file cannot be read *)
      cbn [negb].
      rewrite (bind_eq _ _ _ _ _ (CrawlerSpec.fs_readFile_run p w2)).
      assert (Hr2 : readResult w2 p = Throw (IOError p))
        by (unfold readResult; cbn; rewrite Hnode; reflexivity).
      rewrite Hr2.
      eexists None, unchangedCount, _. split; [reflexivity|].
      left. split; [reflexivity|]. split; [lia|]. split.
      * eexists; reflexivity.
      * intros _. unfold settled. rewrite Hnode. exact I.
    + cbn [negb].
      rewrite (bind_eq _ _ _ _ _ (CrawlerSpec.fs_readFile_run p w2)).
      assert (Hr2 : readResult w2 p = Throw (IOError p))
        by (unfold readResult; cbn; rewrite Hnode; reflexivity).
      rewrite Hr2.
      eexists None, unchangedCount, _. split; [reflexivity|].
      left. split; [reflexivity|]. split; [lia|]. split.
      * eexists; reflexivity.
      * intros _. unfold settled. rewrite Hnode. exact I.
    + cbn [negb].
      rewrite (bind_eq _ _ _ _ _ (CrawlerSpec.fs_readFile_run p w2)).
      assert (Hr2 : readResult w2 p = Throw (IOError p))
        by (unfold readResult; cbn; rewrite Hnode; reflexivity).
      rewrite Hr2.
      eexists None, unchangedCount, _. split; [reflexivity|].
      left. split; [reflexivity|]. split; [lia|]. split.
      * eexists; reflexivity.
      * intros _. unfold settled. rewrite Hnode. exact I.
  - (* no entry is stored *)
    rewrite (bind_eq _ _ _ _ _ Hchk). cbn [negb].
    rewrite (bind_eq _ _ _ _ _ (CrawlerSpec.fs_readFile_run p w1)).
    rewrite Hres1, Hnode'.
    set (w3 := withLog w1 (ioLog w1 ++ [EvReadFile p])).
    destruct stats as [size [content|]| |];
      try (eexists None, unchangedCount, _; split; [reflexivity|];
           left; split; [reflexivity|]; split; [lia|]; split;
           [eexists; reflexivity
           |intros _; unfold settled; rewrite Hnode; exact I]).
    assert (Hread3 : readFileHashCache JSON_parse w3 = (Ok doc, w3))
      by (apply HashCacheLaws.readFileHashCache_log; exact Hread1).
    unfold bind at 1.
    rewrite (HashCacheLaws.updateFileHash_run JSON_parse md5 ws p
               (Some content) w3 doc Hread3).
    destruct (HashCacheLaws.calculateFileHash_frame md5 p (Some content)
                w3) as [log4 Hcalc].
    assert (Hr3 : readResult w3 p = Ok content)
      by (unfold readResult; cbn; rewrite Hnode; reflexivity).
    rewrite Hr3 in Hcalc.
    assert (Hdigest : (if String.eqb content ""
                       then Ok (md5 content) else Ok (md5 content))
                      = (Ok (md5 content) : outcome string))
      by (destruct (String.eqb content ""); reflexivity).
    rewrite Hdigest in Hcalc. rewrite Hcalc.
    destruct (CrawlerSpec.writeFileHashCache_log
                (<[ws := <[p := mkEntry (md5 content)
                                  (clock (withLog w3 log4))]>
                           (default ∅ (doc !! ws))]> doc)
                (withLog w3 log4)) as (w5 & Hwrite & _).
    rewrite Hwrite.
    exists (Some (mkFileInfo (relativePath fileInfo) content)),
           unchangedCount, w5.
    split; [reflexivity|]. right.
    exists size, content, log4.
    split; [reflexivity|]. split; [reflexivity|].
    split; [reflexivity|]. split; [reflexivity|]. split; [exact Hbig|].
    split; [intros entry' He; discriminate He|exact Hwrite].
Qed.

Lemma sameStore_refl (w : World) : sameStore w w.
Proof. repeat split. Qed.

Lemma sameStore_trans (w1 w2 w3 : World) :
  sameStore w1 w2 -> sameStore w2 w3 -> sameStore w1 w3.
Proof.
  intros (H1 & H2 & H3 & H4) (K1 & K2 & K3 & K4).
  repeat split; congruence.
Qed.

Lemma sameStore_withLog (w : World) (log : list fsEvent) :
  sameStore w (withLog w log).
Proof. repeat split. Qed.

Lemma settledIn_withLog (maxFileSize : option Z) (ws : string) (w : World)
    (log : list fsEvent) (q : string) :
  settledIn JSON_parse md5 maxFileSize ws w q ->
  settledIn JSON_parse md5 maxFileSize ws (withLog w log) q.
Proof.
  intros (doc & Hread & Hs). exists doc. split; [|exact Hs].
  apply HashCacheLaws.readFileHashCache_log, Hread.
Qed.

(** A candidate of the first crawl: whatever becomes of it, it is settled
    afterwards, and so is every path that was settled before. *)
Lemma processFile_settles
    (progressCallback : option (nat -> nat -> string -> option jsError))
    (maxFileSize : option Z) (ws : string) (totalFiles i : nat)
    (fileInfo : PendingFile) (index unchangedCount : nat) (w : World) :
  ws <> "" ->
  fileHashCachePath w <> "" ->
  cacheWritable w = true ->
  (forall callback, progressCallback = Some callback ->
     forall k n p, callback k n p = None) ->
  exists res count' w',
    processFile JSON_parse md5 progressCallback maxFileSize true (Some ws)
      totalFiles i fileInfo index unchangedCount w = (Ok (res, count'), w')
    /\ sameStore w w'
    /\ settledIn JSON_parse md5 maxFileSize ws w' (pfPath fileInfo)
    /\ forall q, settledIn JSON_parse md5 maxFileSize ws w q ->
                 settledIn JSON_parse md5 maxFileSize ws w' q.
Proof.
  intros Hws Hpath Hwr Hcb.
  destruct (HashCacheSpec.readFileHashCache_total JSON_parse w)
    as [doc Hread].
  destruct (processFile_incremental progressCallback maxFileSize ws
              totalFiles i fileInfo index unchangedCount w doc Hws Hread)
    as (res & count' & w' & Hrun & Hcase).
  exists res, count', w'. split; [exact Hrun|].
  assert (Hpass : match progressCallback with
                  | Some callback =>
                      callback (i + index) totalFiles (pfPath fileInfo)
                  | None => None
                  end = None).
  { destruct progressCallback as [callback|]; [|reflexivity].
    apply (Hcb callback eq_refl). }
  destruct Hcase as [(_ & _ & [log ->] & Hsettled)
                    |(size & content & log & _ & _ & _ & Hnode & Hbig
                      & _ & Hwrite)].
  - split; [apply sameStore_withLog|]. split.
    + apply settledIn_withLog. exists doc. split; [exact Hread|].
      exact (Hsettled Hpass).
    + intros q. apply settledIn_withLog.
  - match type of Hwrite with
    | writeFileHashCache ?d _ = _ =>
        destruct (HashCacheLaws.read_after_write JSON_parse d
                    (withLog w log)) as (w2 & Hw & Heq & Hrd)
    end.
    { destruct w; exact Hpath. }
    { destruct w; exact Hwr. }
    rewrite Hw in Hwrite. injection Hwrite as <-.
    assert (Hfs : fs w2 = fs w) by (rewrite Heq; destruct w; reflexivity).
    split; [rewrite Heq; destruct w; repeat split|]. split.
    + eexists. split; [exact Hrd|].
      unfold settled. rewrite Hfs, Hnode. right.
      eexists. split.
      * rewrite HashCacheLaws.lookupEntry_insert.
        destruct (decide (ws = ws /\ pfPath fileInfo = pfPath fileInfo))
          as [_|Hn]; [reflexivity|]. exfalso. apply Hn. split; reflexivity.
      * reflexivity.
    + intros q (doc0 & Hread0 & Hs).
      rewrite Hread in Hread0. injection Hread0 as <-.
      eexists. split; [exact Hrd|].
      unfold settled in *. rewrite Hfs.
      destruct (fs w !! q) as [[sz [c|]| |]|] eqn:Hq; try exact I.
      destruct Hs as [Hs|(entry & He & Hh)]; [left; exact Hs|]. right.
      rewrite HashCacheLaws.lookupEntry_insert.
      destruct (decide (ws = ws /\ q = pfPath fileInfo)) as [[_ ->]|_].
      * eexists. split; [reflexivity|]. cbn [hash].
        rewrite Hnode in Hq. injection Hq as _ ->. reflexivity.
      * exists entry. split; [exact He|exact Hh].
Qed.

(** A candidate that is settled gives no record and leaves the document as
    it is. *)
Lemma processFile_settled
    (progressCallback : option (nat -> nat -> string -> option jsError))
    (maxFileSize : option Z) (ws : string) (totalFiles i : nat)
    (fileInfo : PendingFile) (index unchangedCount : nat) (w : World) :
  ws <> "" ->
  settledIn JSON_parse md5 maxFileSize ws w (pfPath fileInfo) ->
  exists count' w',
    processFile JSON_parse md5 progressCallback maxFileSize true (Some ws)
      totalFiles i fileInfo index unchangedCount w = (Ok (None, count'), w')
    /\ exists log, w' = withLog w log.
Proof.
  intros Hws (doc & Hread & Hs).
  destruct (processFile_incremental progressCallback maxFileSize ws
              totalFiles i fileInfo index unchangedCount w doc Hws Hread)
    as (res & count' & w' & Hrun & Hcase).
  destruct Hcase as [(-> & _ & Hlog & _)
                    |(size & content & log & _ & _ & _ & Hnode & Hbig
                      & Hdiff & _)].
  - exists count', w'. split; [exact Hrun|exact Hlog].
  - exfalso. unfold settled in Hs. rewrite Hnode in Hs.
    destruct Hs as [Hs|(entry & He & Hh)]; [congruence|].
    exact (Hdiff entry He Hh).
Qed.

(** *** Batches in incremental mode *)

Lemma processBatch_settles
    (progressCallback : option (nat -> nat -> string -> option jsError))
    (maxFileSize : option Z) (ws : string) (totalFiles i : nat)
    (batch : list PendingFile) :
  ws <> "" ->
  (forall callback, progressCallback = Some callback ->
     forall k n p, callback k n p = None) ->
  forall (index unchangedCount : nat) (w : World),
    fileHashCachePath w <> "" ->
    cacheWritable w = true ->
    exists results count' w',
      processBatch JSON_parse md5 progressCallback maxFileSize true (Some ws)
        totalFiles i batch index unchangedCount w
      = (Ok (results, count'), w')
      /\ sameStore w w'
      /\ (forall e, In e batch ->
            settledIn JSON_parse md5 maxFileSize ws w' (pfPath e))
      /\ forall q, settledIn JSON_parse md5 maxFileSize ws w q ->
                   settledIn JSON_parse md5 maxFileSize ws w' q.
Proof.
  intros Hws Hcb.
  induction batch as [|e batch IH]; intros index unchangedCount w Hpath Hwr.
  - exists [], unchangedCount, w. split; [reflexivity|].
    split; [apply sameStore_refl|]. split; [intros e []|auto].
  - destruct (processFile_settles progressCallback maxFileSize ws totalFiles
                i e index unchangedCount w Hws Hpath Hwr Hcb)
      as (res & c1 & w1 & Hfile & Hsame1 & Hset1 & Hmono1).
    destruct Hsame1 as (Hp1 & Hw1 & Hc1 & Hf1).
    destruct (IH (S index) c1 w1) as (results & c2 & w2 & Hrest & Hsame2
                                      & Hset2 & Hmono2).
    { rewrite Hp1. exact Hpath. }
    { rewrite Hw1. exact Hwr. }
    exists (res :: results), c2, w2. split.
    + cbn [processBatch]. unfold bind at 1. rewrite Hfile. cbn [fst snd].
      unfold bind at 1. rewrite Hrest. reflexivity.
    + split; [eapply sameStore_trans; [|exact Hsame2]; repeat split;
              assumption|].
      split.
      * intros e' [<-|Hin]; [apply Hmono2, Hset1|apply Hset2, Hin].
      * intros q Hq. apply Hmono2, Hmono1, Hq.
Qed.

Lemma processBatch_settled
    (progressCallback : option (nat -> nat -> string -> option jsError))
    (maxFileSize : option Z) (ws : string) (totalFiles i : nat)
    (batch : list PendingFile) :
  ws <> "" ->
  forall (index unchangedCount : nat) (w : World),
    (forall e, In e batch ->
       settledIn JSON_parse md5 maxFileSize ws w (pfPath e)) ->
    exists results count' w',
      processBatch JSON_parse md5 progressCallback maxFileSize true (Some ws)
        totalFiles i batch index unchangedCount w
      = (Ok (results, count'), w')
      /\ filterBoolean results = []
      /\ exists log, w' = withLog w log.
Proof.
  intros Hws.
  induction batch as [|e batch IH]; intros index unchangedCount w Hall.
  - exists [], unchangedCount, w. split; [reflexivity|].
    split; [reflexivity|]. exists (ioLog w). destruct w; reflexivity.
  - destruct (processFile_settled progressCallback maxFileSize ws totalFiles
                i e index unchangedCount w Hws (Hall e (or_introl eq_refl)))
      as (c1 & w1 & Hfile & log1 & ->).
    destruct (IH (S index) c1 (withLog w log1))
      as (results & c2 & w2 & Hrest & Hnone & log2 & ->).
    { intros e' Hin. apply settledIn_withLog, Hall. right. exact Hin. }
    exists (None :: results), c2, (withLog w log2). split.
    + cbn [processBatch]. unfold bind at 1. rewrite Hfile. cbn [fst snd].
      unfold bind at 1. rewrite Hrest. reflexivity.
    + split; [exact Hnone|]. exists log2. reflexivity.
Qed.

(** The loop of the first crawl settles every candidate of every slice. *)
Lemma batches_settle
    (progressCallback : option (nat -> nat -> string -> option jsError))
    (maxFileSize : option Z) (ws : string)
    (pendingFiles : list PendingFile) (starts : list nat) :
  ws <> "" ->
  (forall callback, progressCallback = Some callback ->
     forall k n p, callback k n p = None) ->
  forall (acc : list FileInfo * nat) (w : World),
    fileHashCachePath w <> "" ->
    cacheWritable w = true ->
    exists r w',
      forEachM starts acc
        (fun i acc =>
           let batch := slice i (i + batchSize) pendingFiles in
           results <- processBatch JSON_parse md5 progressCallback
                        maxFileSize true (Some ws) (length pendingFiles) i
                        batch 0 acc.2 ;;
           ret (acc.1 ++ filterBoolean results.1, results.2)) w
      = (Ok r, w')
      /\ sameStore w w'
      /\ (forall i e, In i starts ->
            In e (slice i (i + batchSize) pendingFiles) ->
            settledIn JSON_parse md5 maxFileSize ws w' (pfPath e))
      /\ forall q, settledIn JSON_parse md5 maxFileSize ws w q ->
                   settledIn JSON_parse md5 maxFileSize ws w' q.
Proof.
  intros Hws Hcb.
  induction starts as [|i starts IH]; intros acc w Hpath Hwr.
  - exists acc, w. split; [reflexivity|]. split; [apply sameStore_refl|].
    split; [intros i e []|auto].
  - destruct (processBatch_settles progressCallback maxFileSize ws
                (length pendingFiles) i
                (slice i (i + batchSize) pendingFiles) Hws Hcb 0 acc.2 w
                Hpath Hwr)
      as (results & c1 & w1 & Hbatch & Hsame1 & Hset1 & Hmono1).
    pose proof Hsame1 as (Hp1 & Hw1 & _ & _).
    destruct (IH (acc.1 ++ filterBoolean results, c1) w1)
      as (r & w2 & Hrest & Hsame2 & Hset2 & Hmono2).
    { rewrite Hp1. exact Hpath. }
    { rewrite Hw1. exact Hwr. }
    exists r, w2. split.
    + match goal with
      | |- context [forEachM _ _ ?b] => set (body := b) in *
      end.
      cbn [forEachM].
      assert (Hhead : body i acc w
                      = (Ok (acc.1 ++ filterBoolean results, c1), w1)).
      { unfold body. cbv zeta. unfold bind. rewrite Hbatch. reflexivity. }
      unfold bind at 1. rewrite Hhead. exact Hrest.
    + split; [eapply sameStore_trans; eassumption|]. split.
      * intros j e [<-|Hj] He; [apply Hmono2, Hset1, He|].
        exact (Hset2 j e Hj He).
      * intros q Hq. apply Hmono2, Hmono1, Hq.
Qed.

(** The loop over candidates that are all settled returns no record. *)
Lemma batches_settled
    (progressCallback : option (nat -> nat -> string -> option jsError))
    (maxFileSize : option Z) (ws : string)
    (pendingFiles : list PendingFile) (starts : list nat) :
  ws <> "" ->
  forall (acc : list FileInfo * nat) (w : World),
    (forall e, In e pendingFiles ->
       settledIn JSON_parse md5 maxFileSize ws w (pfPath e)) ->
    exists count' w',
      forEachM starts acc
        (fun i acc =>
           let batch := slice i (i + batchSize) pendingFiles in
           results <- processBatch JSON_parse md5 progressCallback
                        maxFileSize true (Some ws) (length pendingFiles) i
                        batch 0 acc.2 ;;
           ret (acc.1 ++ filterBoolean results.1, results.2)) w
      = (Ok (acc.1, count'), w')
      /\ exists log, w' = withLog w log.
Proof.
  intros Hws.
  induction starts as [|i starts IH]; intros acc w Hall.
  - exists acc.2, w. split; [destruct acc; reflexivity|].
    exists (ioLog w). destruct w; reflexivity.
  - destruct (processBatch_settled progressCallback maxFileSize ws
                (length pendingFiles) i
                (slice i (i + batchSize) pendingFiles) Hws 0 acc.2 w)
      as (results & c1 & w1 & Hbatch & Hnone & log1 & ->).
    { intros e He. apply Hall. eapply CrawlerSpec.In_slice. exact He. }
    destruct (IH (acc.1, c1) (withLog w log1))
      as (c2 & w2 & Hrest & log2 & ->).
    { intros e He. apply settledIn_withLog, Hall, He. }
    exists c2, (withLog w log2). split; [|exists log2; reflexivity].
    match goal with
    | |- context [forEachM _ _ ?b] => set (body := b) in *
    end.
    cbn [forEachM].
    assert (Hhead : body i acc w = (Ok (acc.1, c1), withLog w log1)).
    { unfold body. cbv zeta. unfold bind. rewrite Hbatch. unfold ret.
      cbn [fst snd]. rewrite Hnone, app_nil_r. reflexivity. }
    unfold bind at 1. rewrite Hhead. exact Hrest.
Qed.

(** Every candidate lies in one of the slices. *)
Lemma batchStarts_slices {A : Type} (l : list A) (x : A) :
  In x l ->
  exists i, In i (batchStarts (length l))
            /\ In x (slice i (i + batchSize) l).
Proof.
  intros Hin. apply list_elem_of_In, list_elem_of_lookup in Hin.
  destruct Hin as [k Hk].
  assert (Hlt : k < length l) by (eapply lookup_lt_Some; exact Hk).
  assert (Hb : batchSize <> 0) by (unfold batchSize; lia).
  exists (batchSize * (k / batchSize)). split.
  - unfold batchStarts. apply in_map, in_seq. split; [lia|].
    cbn [Nat.add]. apply Nat.Div0.div_lt_upper_bound.
    pose proof (batchStarts_cover (length l)). lia.
  - unfold slice.
    replace (batchSize * (k / batchSize) + batchSize
             - batchSize * (k / batchSize)) with batchSize by lia.
    apply list_elem_of_In, list_elem_of_lookup.
    exists (k mod batchSize).
    rewrite lookup_take_lt by (apply Nat.mod_upper_bound, Hb).
    rewrite lookup_drop. rewrite <- Nat.div_mod_eq. exact Hk.
Qed.

(** *** The walk depends on the tree only *)

Lemma forEachM_same_tree {A S : Type} (body : A -> S -> M S) (l : list A) :
  (forall x s wA wB r wA',
     In x l -> fs wA = fs wB -> body x s wA = (r, wA') ->
     exists wB', body x s wB = (r, wB') /\ fs wA' = fs wB') ->
  forall s wA wB r wA',
    fs wA = fs wB -> forEachM l s body wA = (r, wA') ->
    exists wB', forEachM l s body wB = (r, wB') /\ fs wA' = fs wB'.
Proof.
  induction l as [|x l IH]; intros Hbody s wA wB r wA' Hfs Hrun.
  - injection Hrun as <- <-. exists wB. split; [reflexivity|exact Hfs].
  - cbn [forEachM] in Hrun |- *. unfold bind in Hrun |- *.
    destruct (body x s wA) as [[s1|e] wA1] eqn:Hx.
    + destruct (Hbody x s wA wB (Ok s1) wA1 (or_introl eq_refl) Hfs Hx)
        as (wB1 & HxB & Hfs1).
      rewrite HxB.
      apply (IH (fun y s0 w0 w0' r0 w1 Hy => Hbody y s0 w0 w0' r0 w1
                                               (or_intror Hy))
               s1 wA1 wB1 r wA' Hfs1 Hrun).
    + destruct (Hbody x s wA wB (Throw e) wA1 (or_introl eq_refl) Hfs Hx)
        as (wB1 & HxB & Hfs1).
      rewrite HxB. injection Hrun as <- <-.
      exists wB1. split; [reflexivity|exact Hfs1].
Qed.

Lemma collectFilePaths_same_tree
    (gitignoreSpec : option (string -> bool))
    (includePatterns excludePatterns : option (list string))
    (rootDir : string) (useRelativePaths : bool) (depth : nat) :
  forall (cur : string) (pending : list PendingFile) (wA wB : World)
         (r : outcome (list PendingFile)) (wA' : World),
    fs wA = fs wB ->
    collectFilePaths minimatch gitignoreSpec includePatterns excludePatterns
      depth rootDir cur useRelativePaths pending wA = (r, wA') ->
    exists wB',
      collectFilePaths minimatch gitignoreSpec includePatterns
        excludePatterns depth rootDir cur useRelativePaths pending wB
      = (r, wB')
      /\ fs wA' = fs wB'.
Proof.
  induction depth as [|depth IH]; intros cur pending wA wB r wA' Hfs Hrun.
  - injection Hrun as <- <-. exists wB. split; [reflexivity|exact Hfs].
  - cbn [collectFilePaths] in Hrun |- *.
    unfold bind at 1 in Hrun. unfold bind at 1.
    destruct (fs_readdir cur wA) as [rA wA1] eqn:HrdA.
    destruct (fs_readdir cur wB) as [rB wB1] eqn:HrdB.
    apply fs_readdir_frame in HrdA. apply fs_readdir_frame in HrdB.
    destruct HrdA as [-> ->]. destruct HrdB as [-> ->]. rewrite <- Hfs.
    destruct (fs wA !! cur) as [[| items |]|];
      try (injection Hrun as <- <-; eexists; split;
           [reflexivity|exact Hfs]).
    revert Hrun. apply forEachM_same_tree; [|exact Hfs].
    intros item s w0 w0' r0 w1 _ Hfs0 Hbody.
    unfold bind at 1 in Hbody. unfold bind at 1.
    rewrite fs_stat_run in Hbody. rewrite fs_stat_run. rewrite <- Hfs0.
    destruct (fs w0 !! path_join cur item) as [stats|].
    + destruct (isDirectory stats && negb _).
      * eapply IH; [|exact Hbody]. exact Hfs0.
      * destruct (negb (isFile stats) || _);
          [injection Hbody as <- <-; eexists; split;
           [reflexivity|exact Hfs0]|].
        destruct (negb _);
          injection Hbody as <- <-; eexists; split;
            try reflexivity; exact Hfs0.
    + injection Hbody as <- <-. eexists. split; [reflexivity|exact Hfs0].
Qed.

Lemma loadGitignore_same_tree (directory : string) (wA wB : World) :
  fs wA = fs wB ->
  (loadGitignore ignore_add directory wA).1
  = (loadGitignore ignore_add directory wB).1.
Proof.
  intros Hfs. unfold loadGitignore. rewrite <- Hfs.
  destruct (fs wA !! path_join directory ".gitignore") as [node|] eqn:Hnode;
    [|reflexivity].
  unfold try_catch, bind.
  rewrite !CrawlerSpec.fs_readFile_run.
  unfold readResult. rewrite <- Hfs, Hnode.
  destruct node as [size [content|]| |]; reflexivity.
Qed.

(** *** Crawling twice *)

(** With the tasks of a batch run one after the other, as [processBatch]
    runs them, no write of one task falls between the read and the write
    of another.  On that schedule an incremental crawl on an initialised
    store that can be written, with a workspace identifier in effect and a
    callback that does not throw, settles every candidate, and a second
    crawl with the same arguments resolves with no file. *)
Lemma sequential_recrawl_returns_nothing
    (depth : nat) (directory : string)
    (includePatterns excludePatterns : option (list string))
    (maxFileSize : option Z) (useRelativePaths : bool)
    (progressCallback progressCallback2
       : option (nat -> nat -> string -> option jsError))
    (workspaceId : option string) (ws : string)
    (w : World) (result : CrawlResult) (w1 : World) :
  fileHashCachePath w <> "" ->
  cacheWritable w = true ->
  effectiveWorkspaceId directory workspaceId = Some ws ->
  ws <> "" ->
  (forall callback, progressCallback = Some callback ->
     forall k n p, callback k n p = None) ->
  crawlLocalFilesAsync JSON_parse md5 minimatch ignore_add depth directory
    includePatterns excludePatterns maxFileSize useRelativePaths
    progressCallback true workspaceId w = (Ok result, w1) ->
  exists count w2,
    crawlLocalFilesAsync JSON_parse md5 minimatch ignore_add depth directory
      includePatterns excludePatterns maxFileSize useRelativePaths
      progressCallback2 true workspaceId w1
    = (Ok (mkResult [] (Some count)), w2).
Proof.
  intros Hpath Hwr Heff Hws Hcb Hrun.
  unfold effectiveWorkspaceId in Heff.
  unfold crawlLocalFilesAsync in Hrun.
  destruct (fs w !! directory) as [[size content|items|]|] eqn:Hdir;
    try discriminate Hrun.
  destruct (loadGitignore_frame directory w) as (spec & wa & Hload & Hexta).
  unfold bind at 1 in Hrun. rewrite Hload in Hrun.
  unfold bind at 1 in Hrun.
  destruct (collectFilePaths minimatch spec includePatterns excludePatterns
              depth directory directory useRelativePaths [] wa)
    as [[pendingFiles|e] wb] eqn:Hwalk; [|discriminate Hrun].
  pose proof (collectFilePaths_frame _ _ _ _ _ _ _ _ _ _ _ Hwalk) as Hextb.
  pose proof (extendsLog_trans _ _ _ Hexta Hextb) as Hext.
  cbv zeta in Hrun. cbn [andb] in Hrun. rewrite Heff in Hrun.
  destruct (batches_settle progressCallback maxFileSize ws pendingFiles
              (batchStarts (length pendingFiles)) Hws Hcb ([], 0) wb)
    as (r & w' & Hloop & Hsame & Hset & _).
  { destruct Hext as [l ->]. destruct w; exact Hpath. }
  { destruct Hext as [l ->]. destruct w; exact Hwr. }
  cbv zeta in Hloop. unfold bind at 1 in Hrun. rewrite Hloop in Hrun.
  unfold ret in Hrun. injection Hrun as _ <-.
  assert (Hfs1 : fs w' = fs w).
  { destruct Hsame as (_ & _ & _ & ->). apply extendsLog_fs, Hext. }
  assert (Hall : forall e0, In e0 pendingFiles ->
                   settledIn JSON_parse md5 maxFileSize ws w' (pfPath e0)).
  { intros e0 He0. destruct (batchStarts_slices pendingFiles e0 He0)
      as (i & Hi & Hslice). exact (Hset i e0 Hi Hslice). }
  (* the second crawl *)
  destruct (loadGitignore_frame directory w') as (spec2 & wa2 & Hload2
                                                  & Hexta2).
  assert (Hspec : spec2 = spec).
  { pose proof (loadGitignore_same_tree directory w' w Hfs1) as Hsame_spec.
    rewrite Hload2, Hload in Hsame_spec. cbn [fst] in Hsame_spec.
    injection Hsame_spec as ->. reflexivity. }
  subst spec2.
  destruct (collectFilePaths_same_tree spec includePatterns excludePatterns
              directory useRelativePaths depth directory [] wa wa2
              (Ok pendingFiles) wb) as (wb2 & Hwalk2 & _).
  { rewrite (extendsLog_fs _ _ Hexta), (extendsLog_fs _ _ Hexta2).
    symmetry. exact Hfs1. }
  { exact Hwalk. }
  pose proof (collectFilePaths_frame _ _ _ _ _ _ _ _ _ _ _ Hwalk2)
    as Hextb2.
  destruct (extendsLog_trans _ _ _ Hexta2 Hextb2) as [log2 Hwb2].
  destruct (batches_settled progressCallback2 maxFileSize ws pendingFiles
              (batchStarts (length pendingFiles)) Hws ([], 0) wb2)
    as (count & w2 & Hloop2 & _).
  { intros e0 He0. rewrite Hwb2. apply settledIn_withLog, Hall, He0. }
  exists count, w2.
  unfold crawlLocalFilesAsync. rewrite Hfs1, Hdir.
  unfold bind at 1. rewrite Hload2. unfold bind at 1. rewrite Hwalk2.
  cbv zeta. cbn [andb]. rewrite Heff.
  cbv zeta in Hloop2. unfold bind at 1. rewrite Hloop2. reflexivity.
Qed.

Lemma allRecorded_settled (maxFileSize : option Z) (ws : string)
    (tree : gmap string fsnode) (doc : FileHashCache) (p : string) :
  allRecorded md5 maxFileSize ws tree doc ->
  settled md5 maxFileSize ws tree doc p.
Proof.
  intros Hall. unfold settled.
  destruct (tree !! p) as [[size [content|]| |]|] eqn:Hnode; try exact I.
  specialize (Hall p _ Hnode). unfold recorded in Hall.
  apply orb_true_iff in Hall. destruct Hall as [Hbig|Hentry];
    [left; exact Hbig|right].
  destruct (lookupEntry doc ws p) as [entry|]; [|discriminate Hentry].
  exists entry. split; [reflexivity|]. apply String.eqb_eq, Hentry.
Qed.

(** X13.  An incremental crawl of a tree that is wholly recorded returns
    no file and writes nothing.  When a workspace identifier is in effect
    (given, or the base name of the directory) and the document loaded
    holds, for that workspace, the digest of the content of every regular
    file of the tree that can be read and is within the size limit, the
    crawl changes the log only, and if it resolves it resolves with an empty
    list and a count of unchanged files, whatever the callback does. *)
Theorem crawl_of_recorded_tree_returns_nothing
    (depth : nat) (directory : string)
    (includePatterns excludePatterns : option (list string))
    (maxFileSize : option Z) (useRelativePaths : bool)
    (progressCallback : option (nat -> nat -> string -> option jsError))
    (workspaceId : option string) (ws : string) (doc : FileHashCache)
    (w : World) (r : outcome CrawlResult) (w' : World) :
  effectiveWorkspaceId directory workspaceId = Some ws ->
  ws <> "" ->
  readFileHashCache JSON_parse w = (Ok doc, w) ->
  allRecorded md5 maxFileSize ws (fs w) doc ->
  crawlLocalFilesAsync JSON_parse md5 minimatch ignore_add depth directory
    includePatterns excludePatterns maxFileSize useRelativePaths
    progressCallback true workspaceId w = (r, w') ->
  (exists log, w' = withLog w log)
  /\ forall result, r = Ok result ->
       files result = [] /\ exists count, unchanged result = Some count.
Proof.
  intros Heff Hws Hread Hall Hrun.
  unfold effectiveWorkspaceId in Heff.
  unfold crawlLocalFilesAsync in Hrun.
  destruct (fs w !! directory) as [[size content|items|]|] eqn:Hdir;
    try (injection Hrun as <- <-; split;
         [exists (ioLog w); destruct w; reflexivity
         |intros result H; discriminate H]).
  destruct (loadGitignore_frame directory w) as (spec & wa & Hload & Hexta).
  unfold bind at 1 in Hrun. rewrite Hload in Hrun.
  unfold bind at 1 in Hrun.
  destruct (collectFilePaths minimatch spec includePatterns excludePatterns
              depth directory directory useRelativePaths [] wa)
    as [[pendingFiles|e] wb] eqn:Hwalk.
  - pose proof (collectFilePaths_frame _ _ _ _ _ _ _ _ _ _ _ Hwalk) as Hextb.
    destruct (extendsLog_trans _ _ _ Hexta Hextb) as [logb Hwb].
    cbv zeta in Hrun. cbn [andb] in Hrun. rewrite Heff in Hrun.
    destruct (batches_settled progressCallback maxFileSize ws pendingFiles
                (batchStarts (length pendingFiles)) Hws ([], 0) wb)
      as (count & w2 & Hloop & log2 & Hw2).
    { intros e0 _. rewrite Hwb. apply settledIn_withLog.
      exists doc. split; [exact Hread|].
      apply allRecorded_settled, Hall. }
    cbv zeta in Hloop. unfold bind at 1 in Hrun. rewrite Hloop in Hrun.
    unfold ret in Hrun. injection Hrun as <- <-.
    split.
    + rewrite Hw2, Hwb. exists log2. destruct w. reflexivity.
    + intros result H. injection H as <-. cbn [files unchanged fst snd].
      split; [reflexivity|]. exists count. reflexivity.
  - injection Hrun as <- <-. split.
    + destruct (extendsLog_trans _ _ _ Hexta
                  (collectFilePaths_frame _ _ _ _ _ _ _ _ _ _ _ Hwalk))
        as [l ->].
      eexists. reflexivity.
    + intros result H. discriminate H.
Qed.

(** *** Counting *)

Lemma processFile_counts
    (progressCallback : option (nat -> nat -> string -> option jsError))
    (maxFileSize : option Z) (incrementalProcessing : bool)
    (workspaceId : option string) (totalFiles i : nat)
    (fileInfo : PendingFile) (index unchangedCount : nat) (w : World) :
  exists res count' w',
    processFile JSON_parse md5 progressCallback maxFileSize
      incrementalProcessing workspaceId totalFiles i fileInfo index
      unchangedCount w = (Ok (res, count'), w')
    /\ unchangedCount <= count'
    /\ length (filterBoolean [res]) + count' <= S unchangedCount.
Proof.
  unfold processFile, try_catch.
  match goal with
  | |- context [let (_, _) := ?m w in _] =>
      destruct (m w) as [[[res count']|e] w1] eqn:Hrun
  end.
  - exists res, count', w1. split; [reflexivity|].
    CrawlerSpec.bind_step Hrun. CrawlerSpec.bind_step Hrun.
    destruct (tooLarge maxFileSize a0);
      [injection Hrun as <- <- _; cbn; lia|].
    CrawlerSpec.bind_step Hrun.
    destruct (negb a1); [injection Hrun as <- <- _; cbn; lia|].
    CrawlerSpec.bind_step Hrun. CrawlerSpec.bind_step Hrun.
    injection Hrun as <- <- _. cbn. lia.
  - exists None, unchangedCount, w1. split; [reflexivity|]. cbn. lia.
Qed.

Lemma processBatch_counts
    (progressCallback : option (nat -> nat -> string -> option jsError))
    (maxFileSize : option Z) (incrementalProcessing : bool)
    (workspaceId : option string) (totalFiles i : nat)
    (batch : list PendingFile) :
  forall (index unchangedCount : nat) (w : World),
  exists results count' w',
    processBatch JSON_parse md5 progressCallback maxFileSize
      incrementalProcessing workspaceId totalFiles i batch index
      unchangedCount w = (Ok (results, count'), w')
    /\ unchangedCount <= count'
    /\ length (filterBoolean results) + count'
       <= length batch + unchangedCount.
Proof.
  induction batch as [|e batch IH]; intros index unchangedCount w.
  - exists [], unchangedCount, w. split; [reflexivity|]. cbn. lia.
  - destruct (processFile_counts progressCallback maxFileSize
                incrementalProcessing workspaceId totalFiles i e index
                unchangedCount w) as (res & c1 & w1 & Hfile & Hle1 & Hsum1).
    destruct (IH (S index) c1 w1) as (results & c2 & w2 & Hrest & Hle2
                                      & Hsum2).
    exists (res :: results), c2, w2. split.
    + cbn [processBatch]. unfold bind at 1. rewrite Hfile. cbn [fst snd].
      unfold bind at 1. rewrite Hrest. reflexivity.
    + split; [lia|]. unfold filterBoolean in *.
      destruct res as [f|]; cbn in Hsum1 |- *; lia.
Qed.

Lemma batches_counts
    (progressCallback : option (nat -> nat -> string -> option jsError))
    (maxFileSize : option Z) (incrementalProcessing : bool)
    (workspaceId : option string) (pendingFiles : list PendingFile)
    (k : nat) :
  forall (a : nat) (acc : list FileInfo * nat) (w : World),
  exists r w',
    forEachM (map (Nat.mul batchSize) (seq a k)) acc
      (fun i acc =>
         let batch := slice i (i + batchSize) pendingFiles in
         results <- processBatch JSON_parse md5 progressCallback maxFileSize
                      incrementalProcessing workspaceId
                      (length pendingFiles) i batch 0 acc.2 ;;
         ret (acc.1 ++ filterBoolean results.1, results.2)) w
    = (Ok r, w')
    /\ length r.1 + r.2
       <= length acc.1 + acc.2
          + length (firstn (batchSize * k)
                           (skipn (batchSize * a) pendingFiles)).
Proof.
  induction k as [|k IH]; intros a acc w.
  - exists acc, w. split; [reflexivity|]. lia.
  - destruct (processBatch_counts progressCallback maxFileSize
                incrementalProcessing workspaceId (length pendingFiles)
                (batchSize * a)
                (slice (batchSize * a) (batchSize * a + batchSize)
                       pendingFiles) 0 acc.2 w)
      as (results & c1 & w1 & Hbatch & Hle1 & Hsum1).
    destruct (IH (S a) (acc.1 ++ filterBoolean results, c1) w1)
      as (r & w' & Hrest & Hsum2).
    exists r, w'. split.
    + match goal with
      | |- context [forEachM _ _ ?b] => set (body := b) in *
      end.
      cbn [seq map forEachM].
      assert (Hhead : body (batchSize * a) acc w
                      = (Ok (acc.1 ++ filterBoolean results, c1), w1)).
      { unfold body. cbv zeta. unfold bind. rewrite Hbatch. reflexivity. }
      unfold bind at 1. rewrite Hhead. exact Hrest.
    + cbn [fst snd] in Hsum2. rewrite length_app in Hsum2.
      unfold slice in Hsum1.
      replace (batchSize * a + batchSize - batchSize * a) with batchSize
        in Hsum1 by lia.
      replace (batchSize * S k) with (batchSize + batchSize * k) by lia.
      rewrite firstn_plus, length_app, skipn_skipn.
      replace (batchSize + batchSize * a) with (batchSize * S a) by lia.
      lia.
Qed.

(** X14.  Nothing is counted twice: in incremental mode the files returned
    and the files reported as unchanged together never outnumber the
    candidates of the walk. *)
Theorem incremental_crawl_counts_each_candidate_once
    (depth : nat) (directory : string)
    (includePatterns excludePatterns : option (list string))
    (maxFileSize : option Z) (useRelativePaths : bool)
    (progressCallback : option (nat -> nat -> string -> option jsError))
    (workspaceId : option string) (w : World)
    (result : CrawlResult) (w' : World) :
  crawlLocalFilesAsync JSON_parse md5 minimatch ignore_add depth directory
    includePatterns excludePatterns maxFileSize useRelativePaths
    progressCallback true workspaceId w = (Ok result, w') ->
  exists spec w1 pendingFiles w2 unchangedCount,
    loadGitignore ignore_add directory w = (Ok spec, w1)
    /\ collectFilePaths minimatch spec includePatterns excludePatterns depth
         directory directory useRelativePaths [] w1 = (Ok pendingFiles, w2)
    /\ unchanged result = Some unchangedCount
    /\ length (files result) + unchangedCount <= length pendingFiles.
Proof.
  intros Hrun. unfold crawlLocalFilesAsync in Hrun.
  destruct (fs w !! directory) as [[size content|items|]|] eqn:Hdir;
    try discriminate Hrun.
  destruct (loadGitignore_frame directory w) as (spec & w1 & Hload & _).
  unfold bind at 1 in Hrun. rewrite Hload in Hrun.
  unfold bind at 1 in Hrun.
  destruct (collectFilePaths minimatch spec includePatterns excludePatterns
              depth directory directory useRelativePaths [] w1)
    as [[pendingFiles|e] w2] eqn:Hwalk; [|discriminate Hrun].
  cbv zeta in Hrun. unfold batchStarts in Hrun.
  destruct (batches_counts progressCallback maxFileSize true
              (if true && negb (truthy workspaceId)
               then Some (path_basename directory) else workspaceId)
              pendingFiles
              ((length pendingFiles + (batchSize - 1)) / batchSize) 0
              ([], 0) w2) as (r & w3 & Hloop & Hsum).
  cbv zeta in Hloop. unfold bind at 1 in Hrun. rewrite Hloop in Hrun.
  unfold ret in Hrun. injection Hrun as <- _.
  exists spec, w1, pendingFiles, w2, r.2.
  split; [exact Hload|]. split; [exact Hwalk|]. split; [reflexivity|].
  cbn [files]. cbn [length fst snd] in Hsum.
  pose proof (length_firstn
                (batchSize * ((length pendingFiles + (batchSize - 1))
                              / batchSize))
                (skipn (batchSize * 0) pendingFiles)) as Hlen.
  rewrite length_skipn in Hlen. lia.
Qed.

(** *** The walk misses nothing *)

Lemma forEachM_visits {A S : Type} (R : S -> S -> Prop) (J : World -> Prop)
    (body : A -> S -> M S) (l : list A) :
  (forall s, R s s) ->
  (forall s1 s2 s3, R s1 s2 -> R s2 s3 -> R s1 s3) ->
  (forall x s w s' w', In x l -> J w -> body x s w = (Ok s', w') ->
                       R s s' /\ J w') ->
  forall s w s' w',
    J w -> forEachM l s body w = (Ok s', w') ->
    R s s' /\ J w'
    /\ forall x, In x l ->
         exists s1 w1 s2 w2,
           J w1 /\ body x s1 w1 = (Ok s2, w2) /\ R s2 s'.
Proof.
  intros Hrefl Htrans.
  induction l as [|x l IH]; intros Hbody s w s' w' HJ Hrun.
  - injection Hrun as <- <-. split; [apply Hrefl|]. split; [exact HJ|].
    intros x [].
  - cbn [forEachM] in Hrun. unfold bind in Hrun.
    destruct (body x s w) as [[s1|e] w1] eqn:Hx; [|discriminate Hrun].
    destruct (Hbody x s w s1 w1 (or_introl eq_refl) HJ Hx) as [HR1 HJ1].
    destruct (IH (fun y s0 w0 s0' w0' Hy => Hbody y s0 w0 s0' w0'
                                              (or_intror Hy))
                s1 w1 s' w' HJ1 Hrun) as (HR2 & HJ2 & Hvisits).
    split; [eapply Htrans; eassumption|]. split; [exact HJ2|].
    intros y [<-|Hy].
    + exists s, w, s1, w1. split; [exact HJ|]. split; [exact Hx|exact HR2].
    + exact (Hvisits y Hy).
Qed.

Lemma collectFilePaths_complete
    (gitignoreSpec : option (string -> bool))
    (includePatterns excludePatterns : option (list string))
    (rootDir : string) (useRelativePaths : bool) (depth : nat) :
  forall (cur : string) (pending : list PendingFile) (w : World)
         (pending' : list PendingFile) (w' : World),
    collectFilePaths minimatch gitignoreSpec includePatterns excludePatterns
      depth rootDir cur useRelativePaths pending w = (Ok pending', w') ->
    incl pending pending'
    /\ forall p,
         reachable minimatch gitignoreSpec excludePatterns (fs w) rootDir
                   useRelativePaths cur p ->
         isIncluded minimatch includePatterns
                    (relPathOf rootDir useRelativePaths p) = true ->
         In (mkPending p (relPathOf rootDir useRelativePaths p)) pending'.
Proof.
  induction depth as [|depth IH]; intros cur pending w pending' w' Hrun;
    [discriminate Hrun|].
  cbn [collectFilePaths] in Hrun. unfold bind at 1 in Hrun.
  destruct (fs_readdir cur w) as [rd w0] eqn:Hrd.
  apply fs_readdir_frame in Hrd. destruct Hrd as [-> ->].
  destruct (fs w !! cur) as [[| items |]|] eqn:Hcur; try discriminate Hrun.
  match type of Hrun with
  | forEachM _ _ ?b _ = _ => set (body := b) in *
  end.
  assert (Hstep : forall x s w1 s' w1',
             In x items -> fs w1 = fs w -> body x s w1 = (Ok s', w1') ->
             incl s s' /\ fs w1' = fs w).
  { intros x s w1 s' w1' _ Hfs Hbody. unfold body in Hbody.
    unfold bind at 1 in Hbody. rewrite fs_stat_run in Hbody.
    destruct (fs w1 !! path_join cur x) as [stats|]; [|discriminate Hbody].
    destruct (isDirectory stats && negb _).
    - destruct (IH _ _ _ _ _ Hbody) as [Hincl _]. split; [exact Hincl|].
      rewrite (extendsLog_fs _ _ (collectFilePaths_frame _ _ _ _ _ _ _ _ _
                                    _ _ Hbody)). exact Hfs.
    - destruct (negb (isFile stats) || _);
        [injection Hbody as <- <-; split; [apply incl_refl|exact Hfs]|].
      destruct (negb _); injection Hbody as <- <-;
        (split; [|exact Hfs]); [apply incl_refl|apply incl_appl, incl_refl]. }
  destruct (forEachM_visits (@incl PendingFile) (fun w1 => fs w1 = fs w)
              body items (@incl_refl _)
              (fun s1 s2 s3 H12 H23 => incl_tran H12 H23) Hstep
              pending (withLog w (ioLog w ++ [EvReaddir cur])) pending' w'
              eq_refl Hrun) as (Hincl & _ & Hvisits).
  split; [exact Hincl|].
  intros p Hreach Hinc.
  inversion Hreach as [items0 item size content Hcur0 Hitem Hnode Hex Hp
                      |items0 item subItems p0 Hcur0 Hitem Hnode Hex Hsub Hp];
    rewrite Hcur in Hcur0; injection Hcur0 as <-;
    destruct (Hvisits item Hitem) as (s1 & w1 & s2 & w2 & Hfs & Hbody & Hs2);
    unfold body in Hbody; unfold bind at 1 in Hbody;
    rewrite fs_stat_run, Hfs, Hnode in Hbody; cbn [isDirectory isFile] in Hbody;
    rewrite Hex in Hbody; cbn [negb andb orb] in Hbody.
  - subst p. rewrite Hinc in Hbody. cbn [negb] in Hbody.
    injection Hbody as <- _. apply Hs2, in_or_app. right. left. reflexivity.
  - destruct (IH _ _ _ _ _ Hbody) as [_ Hall].
    apply Hs2, Hall; [|exact Hinc].
    change (fs (withLog w1 (ioLog w1 ++ [EvStat (path_join cur item)])))
      with (fs w1). rewrite Hfs. exact Hsub.
Qed.

(** X15.  A crawl without the cache misses nothing: every regular file that
    is reached from [directory] through listed directories that are not
    excluded, that is itself not excluded, passes the inclusion patterns,
    can be read and is within the size limit, is in the result with its
    relative path and its content (the callback not throwing). *)
Theorem full_crawl_finds_every_eligible_file
    (depth : nat) (directory : string)
    (includePatterns excludePatterns : option (list string))
    (maxFileSize : option Z) (useRelativePaths : bool)
    (progressCallback : option (nat -> nat -> string -> option jsError))
    (workspaceId : option string) (w : World)
    (result : CrawlResult) (w' : World) :
  (forall callback, progressCallback = Some callback ->
     forall k n p, callback k n p = None) ->
  crawlLocalFilesAsync JSON_parse md5 minimatch ignore_add depth directory
    includePatterns excludePatterns maxFileSize useRelativePaths
    progressCallback false workspaceId w = (Ok result, w') ->
  exists spec w1,
    loadGitignore ignore_add directory w = (Ok spec, w1)
    /\ forall p size content,
         reachable minimatch spec excludePatterns (fs w) directory
                   useRelativePaths directory p ->
         isIncluded minimatch includePatterns
                    (relPathOf directory useRelativePaths p) = true ->
         fs w !! p = Some (FileNode size (Some content)) ->
         tooLarge maxFileSize (FileNode size (Some content)) = false ->
         In (mkFileInfo (relPathOf directory useRelativePaths p) content)
            (files result).
Proof.
  intros Hcb Hrun.
  destruct (crawl_full_run _ _ _ _ _ _ _ _ _ _ _ Hrun) as [_ Hcase].
  destruct (fs w !! directory) as [[| |]|]; try discriminate Hcase.
  destruct Hcase as (spec & w1 & Hload & Hwalk).
  destruct (collectFilePaths minimatch spec includePatterns excludePatterns
              depth directory directory useRelativePaths [] w1)
    as [[pendingFiles|e] w2] eqn:Hcollect; [|discriminate Hwalk].
  injection Hwalk as ->.
  exists spec, w1. split; [exact Hload|].
  intros p size content Hreach Hinc Hnode Hbig.
  destruct (loadGitignore_frame directory w) as (spec' & w1' & Hload' & Hext).
  rewrite Hload in Hload'. injection Hload' as <- <-.
  destruct (collectFilePaths_complete _ _ _ _ _ _ _ _ _ _ _ Hcollect)
    as [_ Hall].
  assert (Hin : In (mkPending p (relPathOf directory useRelativePaths p))
                   pendingFiles).
  { apply Hall; [|exact Hinc]. rewrite (extendsLog_fs _ _ Hext).
    exact Hreach. }
  apply list_elem_of_In, list_elem_of_lookup in Hin. destruct Hin as [k Hk].
  cbn [files]. apply emittedRecords_In.
  exists k, (mkPending p (relPathOf directory useRelativePaths p)).
  split; [exact Hk|]. apply emittedRecord_Some. cbn [pfPath relativePath].
  split; [intros callback Hc; apply (Hcb callback Hc)|].
  split; [reflexivity|]. exists size. split; [exact Hnode|exact Hbig].
Qed.

(** *** The walk finds nothing else *)

Lemma reachable_same_tree
    (gitignoreSpec : option (string -> bool))
    (excludePatterns : option (list string)) (tree tree' : gmap string fsnode)
    (rootDir : string) (useRelativePaths : bool) (cur p : string) :
  tree = tree' ->
  reachable minimatch gitignoreSpec excludePatterns tree rootDir
            useRelativePaths cur p ->
  reachable minimatch gitignoreSpec excludePatterns tree' rootDir
            useRelativePaths cur p.
Proof. intros <-. exact (fun H => H). Qed.

Lemma collectFilePaths_sound
    (gitignoreSpec : option (string -> bool))
    (includePatterns excludePatterns : option (list string))
    (rootDir : string) (useRelativePaths : bool) (depth : nat) :
  forall (cur : string) (pending : list PendingFile) (w : World)
         (pending' : list PendingFile) (w' : World),
    collectFilePaths minimatch gitignoreSpec includePatterns excludePatterns
      depth rootDir cur useRelativePaths pending w = (Ok pending', w') ->
    forall e, In e pending' ->
      In e pending
      \/ (reachable minimatch gitignoreSpec excludePatterns (fs w) rootDir
                    useRelativePaths cur (pfPath e)
          /\ relativePath e = relPathOf rootDir useRelativePaths (pfPath e)
          /\ isIncluded minimatch includePatterns (relativePath e) = true).
Proof.
  induction depth as [|depth IH]; intros cur pending w pending' w' Hrun;
    [discriminate Hrun|].
  cbn [collectFilePaths] in Hrun. unfold bind at 1 in Hrun.
  destruct (fs_readdir cur w) as [rd w0] eqn:Hrd.
  apply fs_readdir_frame in Hrd. destruct Hrd as [-> ->].
  destruct (fs w !! cur) as [[| items |]|] eqn:Hcur; try discriminate Hrun.
  revert Hrun.
  apply (CrawlerSpec.forEachM_ok_inv
    (fun s w1 => fs w1 = fs w
       /\ forall e, In e s ->
            In e pending
            \/ (reachable minimatch gitignoreSpec excludePatterns (fs w)
                          rootDir useRelativePaths cur (pfPath e)
                /\ relativePath e
                   = relPathOf rootDir useRelativePaths (pfPath e)
                /\ isIncluded minimatch includePatterns (relativePath e)
                   = true))); [|split; [reflexivity|auto]].
  intros item s w1 s' w1' Hitem [Hfs Hs] Hbody.
  unfold bind at 1 in Hbody. rewrite fs_stat_run in Hbody.
  destruct (fs w1 !! path_join cur item) as [stats|] eqn:Hnode;
    [|discriminate Hbody].
  rewrite Hfs in Hnode.
  destruct (isExcluded minimatch gitignoreSpec excludePatterns
              (relPathOf rootDir useRelativePaths (path_join cur item)))
    eqn:Hex.
  - (* excluded: skipped, whatever it is *)
    rewrite andb_false_r, orb_true_r in Hbody.
    injection Hbody as <- <-. split; [exact Hfs|exact Hs].
  - cbn [negb] in Hbody. rewrite andb_true_r, orb_false_r in Hbody.
    destruct stats as [size content|subItems|]; cbn [isDirectory isFile negb]
      in Hbody.
    + (* a regular file *)
      destruct (isIncluded minimatch includePatterns
                  (relPathOf rootDir useRelativePaths (path_join cur item)))
        eqn:Hinc; cbn [negb] in Hbody; injection Hbody as <- <-;
        (split; [exact Hfs|]); [|exact Hs].
      intros e He. apply in_app_or in He. destruct He as [He|[<-|[]]];
        [exact (Hs e He)|].
      right. cbn [pfPath relativePath].
      split; [|split; [reflexivity|exact Hinc]].
      exact (reachable_file _ _ _ _ _ _ _ items item size content Hcur Hitem
               Hnode Hex).
    + (* a directory *)
      pose proof (collectFilePaths_frame _ _ _ _ _ _ _ _ _ _ _ Hbody)
        as Hext.
      split; [rewrite (extendsLog_fs _ _ Hext); exact Hfs|].
      intros e He.
      destruct (IH _ _ _ _ _ Hbody e He) as [Hin|(Hreach & Hrel & Hinc)];
        [exact (Hs e Hin)|].
      right. split; [|split; assumption].
      apply (reachable_below _ _ _ _ _ _ _ items item subItems (pfPath e)
               Hcur Hitem Hnode Hex).
      eapply reachable_same_tree; [|exact Hreach]. exact Hfs.
    + injection Hbody as <- <-. split; [exact Hfs|exact Hs].
Qed.

(** X16.  The candidates of a walk that resolves are exactly the regular
    files reached from the root through listed directories that are not
    excluded, that are themselves not excluded and that pass the inclusion
    patterns, each with its path relative to the root. *)
Theorem walk_finds_exactly_the_reachable_files
    (gitignoreSpec : option (string -> bool))
    (includePatterns excludePatterns : option (list string))
    (rootDir : string) (useRelativePaths : bool) (depth : nat)
    (w : World) (pendingFiles : list PendingFile) (w' : World) :
  collectFilePaths minimatch gitignoreSpec includePatterns excludePatterns
    depth rootDir rootDir useRelativePaths [] w = (Ok pendingFiles, w') ->
  forall e,
    In e pendingFiles <->
    reachable minimatch gitignoreSpec excludePatterns (fs w) rootDir
              useRelativePaths rootDir (pfPath e)
    /\ relativePath e = relPathOf rootDir useRelativePaths (pfPath e)
    /\ isIncluded minimatch includePatterns (relativePath e) = true.
Proof.
  intros Hrun e. split.
  - intros He.
    destruct (collectFilePaths_sound _ _ _ _ _ _ _ _ _ _ _ Hrun e He)
      as [[]|H]. exact H.
  - intros (Hreach & Hrel & Hinc).
    destruct (collectFilePaths_complete _ _ _ _ _ _ _ _ _ _ _ Hrun)
      as [_ Hall].
    destruct e as [p rel]. cbn [pfPath relativePath] in *. subst rel.
    apply Hall; assumption.
Qed.

End WithRuntime.

(** *** Instances on the stored scenarios *)

Lemma full_crawl_returns_every_readable_candidate_witness :
  let run := crawlLocalFilesAsync Scenarios.noJson MD5.md5_hex
               Scenarios.literalMatch Scenarios.literalIgnore 64 "/proj"
               None None (Some 1024%Z) true None false None
               Scenarios.projectWorld in
  run.1 = Ok (mkResult [mkFileInfo ".gitignore" "b.txt";
                        mkFileInfo "a.txt" "hello"] None)
  /\ exists spec w1 pendingFiles w2,
       loadGitignore Scenarios.literalIgnore "/proj" Scenarios.projectWorld
       = (Ok spec, w1)
       /\ collectFilePaths Scenarios.literalMatch spec None None 64 "/proj"
            "/proj" true [] w1 = (Ok pendingFiles, w2)
       /\ [mkFileInfo ".gitignore" "b.txt"; mkFileInfo "a.txt" "hello"]
          = emittedRecords None (Some 1024%Z) (fs Scenarios.projectWorld)
                           (length pendingFiles) 0 pendingFiles.
Proof.
  intros run.
  assert (Hrun : run = (Ok (mkResult [mkFileInfo ".gitignore" "b.txt";
                                      mkFileInfo "a.txt" "hello"] None),
                        run.2)) by (vm_compute; reflexivity).
  split; [rewrite Hrun; reflexivity|].
  destruct (full_crawl_returns_every_readable_candidate Scenarios.noJson
              MD5.md5_hex Scenarios.literalMatch Scenarios.literalIgnore 64
              "/proj" None None (Some 1024%Z) true None None
              Scenarios.projectWorld _ _ Hrun)
    as (spec & w1 & pendingFiles & w2 & Hload & Hwalk & Hfiles & _).
  exists spec, w1, pendingFiles, w2.
  split; [exact Hload|]. split; [exact Hwalk|exact Hfiles].
Defined.

Lemma exec_returns_disk_content_within_limit_witness :
  let run := FetchRepoNode_exec Scenarios.noJson MD5.md5_hex
               Scenarios.literalMatch Scenarios.literalIgnore 64 false
               (fun _ => false) (mkShared "/proj" None None (Some 1%Z))
               Scenarios.twoFilesWorld in
  run.1 = Ok [mkFileInfo "a.txt" "hello"; mkFileInfo "b.txt" "world"]
  /\ exists (p : string) (size : Z) (position : nat),
       "b.txt" = path_relative "/proj" p
       /\ fs Scenarios.twoFilesWorld !! p
          = Some (FileNode size (Some "world"))
       /\ (size <= 1024 * 1)%Z
       /\ (fun _ : nat => false) position = false.
Proof.
  intros run.
  assert (Hrun : run = (Ok [mkFileInfo "a.txt" "hello";
                            mkFileInfo "b.txt" "world"], run.2))
    by (vm_compute; reflexivity).
  split; [rewrite Hrun; reflexivity|].
  destruct (exec_returns_disk_content_within_limit Scenarios.noJson
              MD5.md5_hex Scenarios.literalMatch Scenarios.literalIgnore 64
              (fun _ => false) (mkShared "/proj" None None (Some 1%Z))
              Scenarios.twoFilesWorld _ _ Hrun)
    as [_ (spec & w1 & pendingFiles & w2 & _ & _ & Hall)].
  destruct (Hall (mkFileInfo "b.txt" "world"))
    as (position & e & size & _ & _ & Hcb & Hpath & Hnode & Hsize).
  - right. left. reflexivity.
  - exists (pfPath e), size, position.
    split; [exact Hpath|]. split; [exact Hnode|].
    split; [apply (Hsize 1%Z); [reflexivity|discriminate]|exact Hcb].
Defined.

Lemma cancellation_in_the_callback_is_swallowed_witness :
  let run := FetchRepoNode_exec Scenarios.noJson MD5.md5_hex
               Scenarios.literalMatch Scenarios.literalIgnore 64 false
               (fun _ => true) (mkShared "/proj" None None (Some 1%Z))
               Scenarios.twoFilesWorld in
  run.1 = Throw (NoFilesFound "/proj")
  /\ run.1 <> Throw OperationCancelled.
Proof.
  intros run. split; [vm_compute; reflexivity|].
  apply (cancellation_in_the_callback_is_swallowed Scenarios.noJson
           MD5.md5_hex Scenarios.literalMatch Scenarios.literalIgnore 64
           (fun _ => true) (mkShared "/proj" None None (Some 1%Z))
           Scenarios.twoFilesWorld run.1 run.2).
  vm_compute. reflexivity.
Defined.

Lemma crawl_of_recorded_tree_returns_nothing_witness :
  let run := crawlLocalFilesAsync Scenarios.noJson MD5.md5_hex
               Scenarios.literalMatch Scenarios.literalIgnore 64 "/proj"
               None None (Some 1024%Z) true None true (Some "w1")
               Scenarios.recordedWorld in
  run.1 = Ok (mkResult [] (Some 1))
  /\ exists log, run.2 = withLog Scenarios.recordedWorld log.
Proof.
  intros run. split; [vm_compute; reflexivity|].
  apply (crawl_of_recorded_tree_returns_nothing Scenarios.noJson MD5.md5_hex
           Scenarios.literalMatch Scenarios.literalIgnore 64 "/proj" None
           None (Some 1024%Z) true None (Some "w1") "w1"
           Scenarios.twoFilesDoc Scenarios.recordedWorld run.1 run.2).
  - reflexivity.
  - discriminate.
  - reflexivity.
  - unfold allRecorded. apply (bool_decide_unpack _). vm_compute. exact I.
  - vm_compute. reflexivity.
Defined.

Lemma incremental_crawl_counts_each_candidate_once_witness :
  let run := crawlLocalFilesAsync Scenarios.noJson MD5.md5_hex
               Scenarios.literalMatch Scenarios.literalIgnore 64 "/proj"
               None None (Some 1024%Z) true None true (Some "w1")
               Scenarios.twoFilesWorld in
  run.1 = Ok (mkResult [mkFileInfo "b.txt" "world"] (Some 1))
  /\ exists pendingFiles : list PendingFile, 1 + 1 <= length pendingFiles.
Proof.
  intros run.
  assert (Hrun : run = (Ok (mkResult [mkFileInfo "b.txt" "world"] (Some 1)),
                        run.2)) by (vm_compute; reflexivity).
  split; [rewrite Hrun; reflexivity|].
  destruct (incremental_crawl_counts_each_candidate_once Scenarios.noJson
              MD5.md5_hex Scenarios.literalMatch Scenarios.literalIgnore 64
              "/proj" None None (Some 1024%Z) true None (Some "w1")
              Scenarios.twoFilesWorld _ _ Hrun)
    as (spec & w1 & pendingFiles & w2 & n & _ & _ & Hn & Hsum).
  exists pendingFiles. cbn in Hn. injection Hn as <-. exact Hsum.
Defined.

Lemma full_crawl_finds_every_eligible_file_witness :
  let run := crawlLocalFilesAsync Scenarios.noJson MD5.md5_hex
               Scenarios.literalMatch Scenarios.literalIgnore 64 "/proj"
               None (Some ["node_modules"]) None true None false None
               Scenarios.prunedWorld in
  In (mkFileInfo "src/index.ts" "main") (files (mkResult
        [mkFileInfo "src/index.ts" "main"] None))
  /\ run.1 = Ok (mkResult [mkFileInfo "src/index.ts" "main"] None).
Proof.
  intros run.
  assert (Hrun : run = (Ok (mkResult [mkFileInfo "src/index.ts" "main"]
                                     None), run.2))
    by (vm_compute; reflexivity).
  split; [|rewrite Hrun; reflexivity].
  destruct (full_crawl_finds_every_eligible_file Scenarios.noJson
              MD5.md5_hex Scenarios.literalMatch Scenarios.literalIgnore 64
              "/proj" None (Some ["node_modules"]) None true None None
              Scenarios.prunedWorld _ _
              (fun callback H => match H with end) Hrun)
    as (spec & w1 & Hload & Hall).
  assert (Hspec : spec = None).
  { assert (Hl : loadGitignore Scenarios.literalIgnore "/proj"
                   Scenarios.prunedWorld
                 = (Ok None, Scenarios.prunedWorld)) by reflexivity.
    rewrite Hl in Hload. injection Hload as <- _. reflexivity. }
  subst spec.
  apply (Hall "/proj/src/index.ts" 4%Z "main").
  - apply (reachable_below _ _ _ _ _ _ _ ["node_modules"; "src"] "src"
             ["index.ts"]); [reflexivity|right; left; reflexivity
                            |reflexivity|reflexivity|].
    change "/proj/src/index.ts"
      with (path_join (path_join "/proj" "src") "index.ts").
    apply (reachable_file _ _ _ _ _ _ _ ["index.ts"] "index.ts" 4%Z
             (Some "main")); [reflexivity|left; reflexivity
                             |reflexivity|reflexivity].
  - reflexivity.
  - reflexivity.
  - reflexivity.
Defined.

Lemma walk_finds_exactly_the_reachable_files_witness :
  let run := collectFilePaths Scenarios.literalMatch None None
               (Some ["node_modules"]) 64 "/proj" "/proj" true []
               Scenarios.prunedWorld in
  run.1 = Ok [mkPending "/proj/src/index.ts" "src/index.ts"]
  /\ reachable Scenarios.literalMatch None (Some ["node_modules"])
               (fs Scenarios.prunedWorld) "/proj" true "/proj"
               "/proj/src/index.ts".
Proof.
  intros run.
  assert (Hrun : run = (Ok [mkPending "/proj/src/index.ts" "src/index.ts"],
                        run.2)) by (vm_compute; reflexivity).
  split; [rewrite Hrun; reflexivity|].
  destruct (proj1 (walk_finds_exactly_the_reachable_files
                     Scenarios.literalMatch None None (Some ["node_modules"])
                     "/proj" true 64 Scenarios.prunedWorld
                     [mkPending "/proj/src/index.ts" "src/index.ts"] run.2
                     Hrun (mkPending "/proj/src/index.ts" "src/index.ts"))
                  (or_introl eq_refl)) as (Hreach & _).
  exact Hreach.
Defined.

End CrawlerLaws.

(** ** The progress manager under arbitrary calls *)

Module ProgressLaws.
Import Progress.
Local Open Scope Q_scope.

Lemma weightedAggregate_range (sp : ProcessStage -> Q) :
  (forall stage, 0 <= sp stage <= 100) ->
  0 <= weightedAggregate sp <= 100.
Proof.
  intros H. unfold weightedAggregate.
  pose proof (H INITIALIZING). pose proof (H FETCHING_FILES).
  pose proof (H IDENTIFYING_ABSTRACTIONS).
  pose proof (H ANALYZING_RELATIONSHIPS). pose proof (H ORDERING_CHAPTERS).
  pose proof (H WRITING_CHAPTERS). pose proof (H COMBINING_TUTORIAL).
  pose proof (H COMPLETED). split; lra.
Qed.

Lemma step_inRange (pm : ProgressManager) (c : call) :
  inRange pm -> inRange (step pm c).
Proof.
  intros (Hsp & Htot & Hlast).
  assert (Hsp' : forall stage, 0 <= stageProgress (step pm c) stage <= 100).
  { rewrite ProgressSpec.step_stageProgress.
    destruct c as [stage|percentage|];
      apply ProgressSpec.mapSet_range; try exact Hsp;
      [split; lra|apply ProgressSpec.clampPercentage_range|split; lra]. }
  assert (Htot' : 0 <= totalProgress (step pm c) <= 100).
  { rewrite ProgressSpec.step_total.
    destruct c as [stage|percentage|]; [exact Htot| |];
      rewrite ProgressSpec.calculateTotalProgress_total;
      apply weightedAggregate_range; cbn [stageProgress setStageProgress];
      apply ProgressSpec.mapSet_range; try exact Hsp;
      [apply ProgressSpec.clampPercentage_range|split; lra]. }
  split; [exact Hsp'|]. split; [exact Htot'|].
  rewrite ProgressSpec.step_lastReported.
  destruct c; [exact Hlast|exact Htot'|exact Htot'].
Qed.

Lemma reset_inRange (pm : ProgressManager) : inRange (reset pm).
Proof.
  split; [|split; cbn; split; lra].
  intros stage. rewrite ProgressSpec.reset_stageProgress. split; lra.
Qed.

Lemma run_inRange (calls : list call) :
  forall pm, inRange pm -> inRange (run calls pm).
Proof.
  induction calls as [|c calls IH]; intros pm H; [exact H|].
  cbn [run fold_left]. apply IH, step_inRange, H.
Qed.

(** X17.  Whatever calls are made after a [reset], in whatever order and
    with whatever percentages, every recorded percentage, the aggregate and
    the aggregate last reported stay within 0 and 100. *)
Theorem progress_stays_in_range (calls : list call)
    (cancellationRequested : bool) (pm : ProgressManager) :
  let pm' := run calls (setProgressObjects cancellationRequested (reset pm))
  in
  (forall stage, 0 <= stageProgress pm' stage <= 100)
  /\ 0 <= totalProgress pm' <= 100
  /\ 0 <= lastReportedProgress pm' <= 100.
Proof.
  cbv zeta. apply run_inRange.
  destruct (reset_inRange pm) as (H1 & H2 & H3).
  split; [exact H1|]. split; [exact H2|exact H3].
Qed.

End ProgressLaws.

(** ** The progress manager in floating point, under arbitrary calls *)

Module ProgressFloatLaws.
Import Progress ProgressFloat.
Local Open Scope Q_scope.

Section WithRounding.

Variable rnd : Q -> Q.
Hypothesis Hrnd : Rounding rnd.

Lemma aggregateOf_range (sp : ProcessStage -> Q) :
  (forall stage, 0 <= sp stage <= 100) -> 0 <= aggregateOf rnd sp <= 100.
Proof.
  intros Hsp.
  assert (H0 : aggregateOf rnd (fun _ => 0) == 0)
    by (apply (ProgressFloatSpec.aggregateOf_uniform rnd Hrnd _ 0);
        [lia|reflexivity]).
  assert (H100 : aggregateOf rnd (fun _ => 100) == 100)
    by (apply (ProgressFloatSpec.aggregateOf_uniform rnd Hrnd _ 1);
        [lia|reflexivity]).
  split.
  - rewrite <- H0. apply (ProgressFloatSpec.aggregateOf_monotone rnd Hrnd).
    intros s. apply Hsp.
  - rewrite <- H100. apply (ProgressFloatSpec.aggregateOf_monotone rnd Hrnd).
    intros s. apply Hsp.
Qed.

Lemma float_step_inRange (pm : ProgressManager) (c : call) :
  inRange pm -> inRange (step rnd pm c).
Proof.
  intros (Hsp & Htot & Hlast).
  assert (Hsp' : forall stage,
            0 <= stageProgress (step rnd pm c) stage <= 100).
  { rewrite ProgressFloatSpec.float_step_stageProgress.
    destruct c as [stage|percentage|];
      apply ProgressSpec.mapSet_range; try exact Hsp;
      [split; lra|apply ProgressSpec.clampPercentage_range|split; lra]. }
  assert (Htot' : 0 <= totalProgress (step rnd pm c) <= 100).
  { rewrite ProgressFloatSpec.float_step_total.
    destruct c as [stage|percentage|]; [exact Htot| |];
      apply aggregateOf_range, Hsp'. }
  split; [exact Hsp'|]. split; [exact Htot'|].
  rewrite ProgressFloatSpec.float_step_lastReported.
  destruct c; [exact Hlast|exact Htot'|exact Htot'].
Qed.

Lemma float_step_increment (pm : ProgressManager) (c : call) :
  inRange pm ->
  Forall (fun increment => 0 <= increment <= 100)
         (skipn (length (reported pm)) (reported (step rnd pm c))).
Proof.
  intros Hpm. pose proof (float_step_inRange pm c Hpm) as (_ & Htot' & _).
  destruct Hpm as (_ & _ & Hlast).
  rewrite ProgressFloatSpec.float_step_reported, drop_app_length.
  destruct (progress pm); constructor; [|constructor].
  assert (H100 : rnd 100 == 100)
    by (apply (rnd_integer rnd Hrnd 100); lia).
  destruct c as [stage|percentage|]; [vm_compute; split; discriminate| |];
    (split; [apply ProgressSpec.max0_nonneg|]);
    unfold max0;
    destruct (Qlt_le_dec 0 _); try discriminate;
    rewrite <- H100; apply (rnd_monotone rnd Hrnd); lra.
Qed.

Lemma float_run_inRange (calls : list call) :
  forall pm, inRange pm ->
    inRange (run rnd calls pm)
    /\ Forall (fun increment => 0 <= increment <= 100)
              (emitted rnd calls pm).
Proof.
  induction calls as [|c calls IH]; intros pm H.
  - split; [exact H|]. unfold emitted. cbn. rewrite drop_all. constructor.
  - destruct (IH (step rnd pm c) (float_step_inRange pm c H)) as [Hr Hinc].
    split; [exact Hr|].
    pose proof (float_step_increment pm c H) as Hfirst.
    unfold emitted in *.
    change (run rnd (c :: calls) pm) with (run rnd calls (step rnd pm c))
      in *.
    assert (Hrep : exists new, reported (step rnd pm c)
                               = reported pm ++ new).
    { rewrite ProgressFloatSpec.float_step_reported. eexists. reflexivity. }
    destruct Hrep as [new Hnew].
    assert (Hrun : exists rest, reported (run rnd calls (step rnd pm c))
                                = reported (step rnd pm c) ++ rest).
    { clear. generalize (step rnd pm c). induction calls as [|c' calls IH'];
        intros pm'; [exists []; symmetry; apply app_nil_r|].
      destruct (IH' (step rnd pm' c')) as [rest Hrest].
      change (run rnd (c' :: calls) pm')
        with (run rnd calls (step rnd pm' c')).
      rewrite Hrest, ProgressFloatSpec.float_step_reported, <- app_assoc.
      eexists. reflexivity. }
    destruct Hrun as [rest Hrest].
    rewrite Hrest in Hinc |- *. rewrite drop_app_length in Hinc.
    rewrite Hnew in Hfirst |- *. rewrite drop_app_length in Hfirst.
    rewrite <- app_assoc, drop_app_length.
    apply Forall_app. split; assumption.
Qed.

(** X18.  In doubles as well, whatever calls are made after a [reset], in
    whatever order and with whatever percentages, every recorded
    percentage, the aggregate and the aggregate last reported stay within
    0 and 100, and every increment handed to the sink is within 0 and
    100. *)
Theorem float_progress_stays_in_range (calls : list call)
    (cancellationRequested : bool) (pm : ProgressManager) :
  let pm0 := setProgressObjects cancellationRequested (reset pm) in
  let pm' := run rnd calls pm0 in
  (forall stage, 0 <= stageProgress pm' stage <= 100)
  /\ 0 <= totalProgress pm' <= 100
  /\ 0 <= lastReportedProgress pm' <= 100
  /\ Forall (fun increment => 0 <= increment <= 100) (emitted rnd calls pm0).
Proof.
  cbv zeta.
  destruct (float_run_inRange calls
              (setProgressObjects cancellationRequested (reset pm)))
    as [(H1 & H2 & H3) H4].
  - destruct (ProgressLaws.reset_inRange pm) as (R1 & R2 & R3).
    split; [exact R1|]. split; [exact R2|exact R3].
  - split; [exact H1|]. split; [exact H2|]. split; [exact H3|exact H4].
Qed.

(** *** The calls of [FetchRepoNode] *)

Lemma clampPercentage_monotone (x y : Q) :
  x <= y -> clampPercentage x <= clampPercentage y.
Proof.
  intros H. unfold clampPercentage.
  destruct (Qlt_le_dec x 0), (Qlt_le_dec y 0);
    repeat match goal with
           | |- context [Qlt_le_dec 100 ?z] => destruct (Qlt_le_dec 100 z)
           end; lra.
Qed.

Lemma Math_round_monotone (x y : Q) :
  x <= y -> Math_round x <= Math_round y.
Proof.
  intros H. unfold Math_round. rewrite <- Zle_Qle.
  apply Qfloor_resp_le. lra.
Qed.

Lemma scanPercent_monotone (total i j : nat) :
  (i <= j)%nat -> scanPercent rnd total i <= scanPercent rnd total j.
Proof.
  intros H. unfold scanPercent. apply Math_round_monotone.
  apply (rnd_monotone rnd Hrnd), Qmult_le_compat_r; [|discriminate].
  apply (rnd_monotone rnd Hrnd).
  unfold Qdiv. apply Qmult_le_compat_r.
  - rewrite <- Zle_Qle. lia.
  - apply Qinv_le_0_compat. rewrite <- (Zle_Qle 0). lia.
Qed.

Lemma nondecreasing_map_seq (g : nat -> Q) :
  (forall i, g i <= g (S i)) ->
  forall n a, nondecreasing (map g (seq a n)).
Proof.
  intros Hg. induction n as [|n IH]; intros a; [exact I|].
  cbn [seq map nondecreasing]. split; [|apply IH].
  destruct n as [|n]; [exact I|]. cbn [seq map]. apply Hg.
Qed.

Lemma nondecreasing_between (lo hi : Q) (l : list Q) :
  lo <= hi ->
  Forall (fun x => lo <= x <= hi) l ->
  nondecreasing l ->
  nondecreasing (lo :: l ++ [hi]).
Proof.
  intros Hlohi Hall Hl.
  assert (Htail : nondecreasing (l ++ [hi])).
  { induction l as [|x l IH]; [cbn; auto|].
    inversion Hall as [|? ? Hx Hrest]; subst.
    destruct Hl as [Hhead Hl].
    cbn [app nondecreasing]. split; [|apply IH; assumption].
    destruct l as [|y l]; [cbn; lra|exact Hhead]. }
  cbn [nondecreasing]. split; [|exact Htail].
  destruct l as [|x l]; [cbn; exact Hlohi|].
  inversion Hall as [|? ? Hx Hrest]; subst. cbn. lra.
Qed.

Lemma fetchPercentages_nondecreasing (total : nat) :
  nondecreasing (map clampPercentage (fetchPercentages rnd total)).
Proof.
  unfold fetchPercentages. cbn [map]. rewrite map_app, map_map. cbn [map].
  assert (H0 : clampPercentage 0 == 0) by (vm_compute; reflexivity).
  assert (H100 : clampPercentage 100 == 100) by (vm_compute; reflexivity).
  apply nondecreasing_between.
  - pose proof (ProgressSpec.clampPercentage_range 100). lra.
  - apply Forall_forall. intros x Hx.
    apply list_elem_of_In, in_map_iff in Hx.
    destruct Hx as (i & <- & _).
    pose proof (ProgressSpec.clampPercentage_range
                  (scanPercent rnd total i)).
    lra.
  - apply nondecreasing_map_seq. intros i.
    apply clampPercentage_monotone, scanPercent_monotone. lia.
Qed.

(** X19.  The calls [FetchRepoNode] makes in a run that finds files and
    sees no cancellation, on a manager whose aggregate is the one of its
    recorded percentages and has been reported, and whose fetching stage
    is at 0: in doubles, the aggregate never decreases, every increment
    handed to the sink is the rounded difference of the aggregate and the
    aggregate last reported, and the stage ends at 100 with the other
    stages as they were, whatever the number of candidates. *)
Theorem fetch_stage_never_lowers_the_aggregate (total : nat)
    (pm : ProgressManager) :
  totalProgress pm == aggregateOf rnd (stageProgress pm) ->
  lastReportedProgress pm = totalProgress pm ->
  progress pm = true ->
  stageProgress pm FETCHING_FILES = 0 ->
  let calls := fetchStageCalls rnd total in
  nondecreasing (totalProgress pm :: aggregates rnd calls pm)
  /\ Forall2 Qeq (emitted rnd calls pm) (map rnd (differences rnd calls pm))
  /\ (forall stage,
        stageProgress (run rnd calls pm) stage
        = if decide (stage = FETCHING_FILES) then 100
          else stageProgress pm stage)
  /\ totalProgress (run rnd calls pm)
     == aggregateOf rnd (stageProgress (run rnd calls pm))
  /\ lastReportedProgress (run rnd calls pm)
     = totalProgress (run rnd calls pm).
Proof.
  intros Htot Hlast Hsink Hzero calls.
  destruct (ProgressFloatSpec.float_stage_keepsOrder rnd
              (fun _ => fetchPercentages rnd total) FETCHING_FILES pm
              (fetchPercentages_nondecreasing total) Hzero)
    as [Hord Hfinal].
  destruct (ProgressFloatSpec.float_run_keepsOrder rnd Hrnd calls pm
              (conj Htot Hlast) Hsink Hord)
    as ([Htot' Hlast'] & Hmono & Hdiff & _).
  split; [exact Hmono|]. split; [exact Hdiff|].
  split; [exact Hfinal|]. split; [exact Htot'|exact Hlast'].
Qed.

End WithRounding.

(** *** Instances in doubles *)

Lemma float_progress_stays_in_range_witness :
  let calls := [UpdateStageProgress 70; StartStage WRITING_CHAPTERS;
                UpdateStageProgress 30; CompleteStage;
                StartStage INITIALIZING; UpdateStageProgress (-5)] in
  let pm0 := setProgressObjects false (reset newProgressManager) in
  Rounding round64
  /\ Forall (fun increment => 0 <= increment <= 100)
            (emitted round64 calls pm0)
  /\ 0 <= totalProgress (run round64 calls pm0) <= 100.
Proof.
  intros calls pm0.
  split; [exact Round64Spec.round64_Rounding|].
  destruct (float_progress_stays_in_range round64
              Round64Spec.round64_Rounding calls false newProgressManager)
    as (_ & Htot & _ & Hinc).
  split; [exact Hinc|exact Htot].
Defined.

Lemma fetch_stage_never_lowers_the_aggregate_witness :
  let pm := setProgressObjects false (reset newProgressManager) in
  Rounding round64
  /\ Forall2 Qeq (fetchPercentages round64 3) [0; 0; 33; 67; 100]
  /\ scanPercent round64 40 23 == 57
  /\ nondecreasing (aggregates round64 (fetchStageCalls round64 3) pm)
  /\ stageProgress (run round64 (fetchStageCalls round64 3) pm)
                   FETCHING_FILES = 100.
Proof.
  intros pm.
  split; [exact Round64Spec.round64_Rounding|].
  split; [vm_compute; repeat constructor|].
  split; [vm_compute; reflexivity|].
  destruct (fetch_stage_never_lowers_the_aggregate round64
              Round64Spec.round64_Rounding 3 pm)
    as (Hmono & _ & Hfinal & _).
  - vm_compute. reflexivity.
  - reflexivity.
  - reflexivity.
  - reflexivity.
  - split; [apply Hmono|]. rewrite Hfinal. reflexivity.
Defined.

End ProgressFloatLaws.
